(** * Email list tooling of the EduKester app: extractor and validator

    A shallow embedding of the two client-side email tools of [src/App.tsx]:

    - [EmailValidator] (component state, [validateEmails], lines 2374-2437),
    - [EmailExtractor] (component state, [handleExtract], lines 2523-2536).

    JavaScript strings are sequences of UTF-16 code units; a code unit is a
    number in [N].  The built-ins the two handlers call ([trim],
    [toLowerCase], [split], [match], [RegExp.prototype.test], [Set],
    [Array.prototype.sort]) are modelled next to the code that uses them. *)

From Stdlib Require Import NArith ZArith List Bool Ascii String DecimalString Lia Sorted Permutation.
From stdpp Require Import base decidable list countable gmap.
Import ListNotations.

Local Open Scope N_scope.

(** ** JavaScript strings *)

Module JS.

(** A string is the list of its UTF-16 code units. *)
Abbreviation jsstring := (list N).

Definition ch (a : ascii) : N := N_of_ascii a.

(** [js] reads an ASCII literal as a JavaScript string. *)
Definition js (s : String.string) : jsstring :=
  map N_of_ascii (list_ascii_of_string s).

Definition range (lo hi : ascii) (c : N) : bool :=
  (ch lo <=? c) && (c <=? ch hi).

Definition isChar (a : ascii) (c : N) : bool := c =? ch a.

(** ECMAScript [WhiteSpace] and [LineTerminator] code units: what
    [String.prototype.trim] strips and what [\s] matches. *)
Definition isWhiteSpace (c : N) : bool :=
  (c =? 9) || (c =? 10) || (c =? 11) || (c =? 12) || (c =? 13) || (c =? 32)
  || (c =? 160) || (c =? 5760) || ((8192 <=? c) && (c <=? 8202))
  || (c =? 8232) || (c =? 8233) || (c =? 8239) || (c =? 8287)
  || (c =? 12288) || (c =? 65279).

(** [LineTerminator]: the code units the regular-expression dot refuses. *)
Definition isLineTerminator (c : N) : bool :=
  (c =? 10) || (c =? 13) || (c =? 8232) || (c =? 8233).

Fixpoint dropWhile (p : N -> bool) (s : jsstring) : jsstring :=
  match s with
  | [] => []
  | c :: s' => if p c then dropWhile p s' else s
  end.

(** [String.prototype.trim]. *)
Definition trim (s : jsstring) : jsstring :=
  rev (dropWhile isWhiteSpace (rev (dropWhile isWhiteSpace s))).

Definition isEmpty (s : jsstring) : bool :=
  match s with [] => true | _ => false end.

(** [!s.trim()]: the empty string is the only falsy string. *)
Definition blank (s : jsstring) : bool := isEmpty (trim s).

Definition isAscii (c : N) : bool := c <? 128.

Definition asciiLower (c : N) : N :=
  if range "A" "Z" c then c + 32 else c.

Definition isUpperAscii (c : N) : bool := range "A" "Z" c.

(** [String.prototype.toLowerCase].  On a string of ASCII code units the
    Unicode default case conversion is the letter-wise map of [A-Z] to
    [a-z]; the conversion of any other string is the platform's Unicode
    table, taken as the parameter [unicodeLower]. *)
Definition toLowerCase (unicodeLower : jsstring -> jsstring)
    (s : jsstring) : jsstring :=
  if forallb isAscii s then map asciiLower s else unicodeLower s.

(** [s.split(sep)] for a separator of one code unit. *)
Fixpoint splitChar (sep : N) (s : jsstring) : list jsstring :=
  match s with
  | [] => [[]]
  | c :: s' =>
      if c =? sep then [] :: splitChar sep s'
      else match splitChar sep s' with
           | h :: t => (c :: h) :: t
           | [] => [[c]]
           end
  end.

(** [arr.join(sep)]. *)
Fixpoint join (sep : jsstring) (l : list jsstring) : jsstring :=
  match l with
  | [] => []
  | [x] => x
  | x :: l' => x ++ sep ++ join sep l'
  end.

(** [[...new Set(arr)]]: a [Set] iterates in insertion order, and adding a
    value already present changes nothing. *)
Definition setAdd (seen : list jsstring) (x : jsstring) : list jsstring :=
  if bool_decide (x ∈ seen) then seen else seen ++ [x].

Definition uniq (l : list jsstring) : list jsstring :=
  fold_left setAdd l [].

(** The default comparison of [Array.prototype.sort]: strings compare by
    code units, a proper prefix first. *)
Fixpoint ltb (x y : jsstring) : bool :=
  match x, y with
  | _, [] => false
  | [], _ :: _ => true
  | a :: x', b :: y' => (a <? b) || ((a =? b) && ltb x' y')
  end.

Definition leb (x y : jsstring) : bool := negb (ltb y x).

Fixpoint insert (x : jsstring) (l : list jsstring) : list jsstring :=
  match l with
  | [] => [x]
  | y :: l' => if leb x y then x :: l else y :: insert x l'
  end.

(** [arr.sort()] with no comparator.  The order is total and two strings
    that compare equal are the same string, so every sorting algorithm
    returns the list computed here. *)
Fixpoint sort (l : list jsstring) : list jsstring :=
  match l with
  | [] => []
  | x :: l' => insert x (sort l')
  end.

(** [x] comes strictly before [y] in the order [sort] uses. *)
Definition lexLt (x y : jsstring) : Prop := ltb x y = true.

(** A string that holds no ASCII capital and that [toLowerCase] leaves as
    it is. *)
Definition isLowerCase (unicodeLower : jsstring -> jsstring)
    (s : jsstring) : Prop :=
  forallb (fun c => negb (isUpperAscii c)) s = true
  /\ toLowerCase unicodeLower s = s.

(** How often the code unit [c] occurs in [s]. *)
Definition occurrences (c : N) (s : jsstring) : nat :=
  length (filter (fun d => d = c) s).

End JS.

(** ** Regular expressions *)

Module RegExp.
Import JS.

(** The constructs the two patterns of the source use.  [Cls p] is a
    character class (or a single character), given by its membership
    test. *)
Inductive re : Type :=
  | Eps : re
  | Cls : (N -> bool) -> re
  | Seq : re -> re -> re
  | Alt : re -> re -> re
  | Star : re -> re.

(** [r+], [r?], [r{1,3}] and [r{2,}], all greedy. *)
Definition Plus (r : re) : re := Seq r (Star r).
Definition Opt (r : re) : re := Alt r Eps.
Definition Rep1to3 (r : re) : re := Seq r (Opt (Seq r (Opt r))).
Definition Rep2up (r : re) : re := Seq r (Seq r (Star r)).

(** The strings of a pattern. *)
Inductive lang : re -> jsstring -> Prop :=
  | lang_eps : lang Eps []
  | lang_cls p c : p c = true -> lang (Cls p) [c]
  | lang_seq a b u v : lang a u -> lang b v -> lang (Seq a b) (u ++ v)
  | lang_alt_l a b u : lang a u -> lang (Alt a b) u
  | lang_alt_r a b u : lang b u -> lang (Alt a b) u
  | lang_star_nil a : lang (Star a) []
  | lang_star_cons a u v : lang a u -> lang (Star a) v -> lang (Star a) (u ++ v).

(** Greedy repetition.  [step s] lists what one iteration can leave of
    [s]; an iteration that consumes nothing is refused, as the ECMAScript
    RepeatMatcher does, so [length s] rounds are always enough. *)
Fixpoint star_runs (step : jsstring -> list jsstring) (fuel : nat)
    (s : jsstring) : list jsstring :=
  match fuel with
  | O => [s]
  | S f =>
      flat_map
        (fun s' => if (length s' <? length s)%nat then star_runs step f s' else [])
        (step s)
      ++ [s]
  end.

(** The backtracking matcher.  [runs r s] lists, in the order in which a
    backtracking engine tries them, every rest that a match of [r] at the
    start of [s] can leave: alternatives left to right, repetitions the
    longest first. *)
Fixpoint runs (r : re) (s : jsstring) : list jsstring :=
  match r with
  | Eps => [s]
  | Cls p =>
      match s with
      | c :: s' => if p c then [s'] else []
      | [] => []
      end
  | Seq a b => flat_map (runs b) (runs a s)
  | Alt a b => runs a s ++ runs b s
  | Star a => star_runs (runs a) (length s) s
  end.

(** [/^r$/.test(s)]: with no [m] flag the anchors hold at the two ends of
    the string only, so the search succeeds exactly when some way of
    matching [r] from index 0 leaves nothing. *)
Definition test_anchored (r : re) (s : jsstring) : bool :=
  existsb isEmpty (runs r s).

(** [s.match(/r/g) || []]: the matches from left to right, each search
    starting where the previous match ended (one further after an empty
    match).  [skip] counts the code units of the last match still to be
    passed. *)
Fixpoint matchAll (r : re) (skip : nat) (s : jsstring) : list jsstring :=
  match s with
  | [] =>
      match skip, runs r [] with
      | O, _ :: _ => [[]]
      | _, _ => []
      end
  | c :: s' =>
      match skip with
      | S k => matchAll r k s'
      | O =>
          match runs r s with
          | rest :: _ =>
              let n := (length s - length rest)%nat in
              take n s :: matchAll r (n - 1) s'
          | [] => matchAll r 0 s'
          end
      end
  end.

(** The loop of [s.split(/r/)] for a pattern without capture groups: a
    match at [q] that ends where the current piece starts is passed over,
    any other closes the piece.  [cur] is the current piece, reversed. *)
Fixpoint splitFrom (r : re) (skip : nat) (cur : jsstring) (s : jsstring)
    : list jsstring :=
  match s with
  | [] => [rev cur]
  | c :: s' =>
      match skip with
      | S k => splitFrom r k cur s'
      | O =>
          match runs r s with
          | [] => splitFrom r 0 (c :: cur) s'
          | rest :: _ =>
              let n := (length s - length rest)%nat in
              match n, cur with
              | O, [] => splitFrom r 0 (c :: cur) s'
              | O, _ => rev cur :: splitFrom r 0 [c] s'
              | S k, _ => rev cur :: splitFrom r k [] s'
              end
          end
      end
  end.

(** [s.split(/r/)]: the empty string splits into no piece when the
    pattern matches it and into itself otherwise; any other string goes
    through the loop. *)
Definition split (r : re) (s : jsstring) : list jsstring :=
  match s, runs r [] with
  | [], _ :: _ => []
  | _, _ => splitFrom r 0 [] s
  end.

(** [classes P r]: every character class written in [r] satisfies [P]. *)
Fixpoint classes (P : (N -> bool) -> Prop) (r : re) : Prop :=
  match r with
  | Eps => True
  | Cls p => P p
  | Seq a b | Alt a b => classes P a /\ classes P b
  | Star a => classes P a
  end.

(** Vocabulary for the facts about greedy runs of one class: [stops p t]
    says that [t] does not go on with a character of the class, and
    [giveBack w t] lists what a run over [w] can leave of [w ++ t], the
    longest run first. *)
Definition stops (p : N -> bool) (t : jsstring) : bool :=
  match t with
  | [] => true
  | c :: _ => negb (p c)
  end.

Fixpoint giveBack (w t : jsstring) : list jsstring :=
  match w with
  | [] => [t]
  | _ :: w' => giveBack w' t ++ [w ++ t]
  end.

End RegExp.

(** ** The email validation tool ([EmailValidation], App.tsx 2364-2437) *)

Module EmailValidation.
Import JS RegExp.

Local Infix "**" := Seq (at level 60, right associativity).

Definition quote : N := 34.
Definition backslash : N := 92.

(** The negated class of line 2404, written there twice: any code unit
    but the angle brackets, the parentheses, the square brackets, the
    backslash, the dot, the comma, the semicolon, the colon, white space,
    the at sign and the double quote. *)
Definition atomChar (c : N) : bool :=
  negb (isChar "<" c || isChar ">" c || isChar "(" c || isChar ")" c
        || isChar "[" c || isChar "]" c || (c =? backslash) || isChar "." c
        || isChar "," c || isChar ";" c || isChar ":" c || isWhiteSpace c
        || isChar "@" c || (c =? quote)).

(** The regular-expression dot. *)
Definition anyChar (c : N) : bool := negb (isLineTerminator c).

Definition digit (c : N) : bool := range "0" "9" c.

(** [[a-zA-Z\-0-9]]. *)
Definition hostChar (c : N) : bool :=
  range "a" "z" c || range "A" "Z" c || isChar "-" c || range "0" "9" c.

(** [[a-zA-Z]]. *)
Definition alpha (c : N) : bool := range "a" "z" c || range "A" "Z" c.

(** The local part: dot-separated runs of [atomChar], or one or more
    characters (any but line terminators) between two double quotes. *)
Definition localPart : re :=
  Alt (Plus (Cls atomChar) ** Star (Cls (isChar ".") ** Plus (Cls atomChar)))
      (Cls (N.eqb quote) ** Plus (Cls anyChar) ** Cls (N.eqb quote)).

(** [\[[0-9]{1,3}\.[0-9]{1,3}\.[0-9]{1,3}\.[0-9]{1,3}]]. *)
Definition ipLiteral : re :=
  Cls (isChar "[") **
  Rep1to3 (Cls digit) ** Cls (isChar ".") **
  Rep1to3 (Cls digit) ** Cls (isChar ".") **
  Rep1to3 (Cls digit) ** Cls (isChar ".") **
  Rep1to3 (Cls digit) ** Cls (isChar "]").

(** [([a-zA-Z\-0-9]+\.)+[a-zA-Z]{2,}]. *)
Definition hostName : re :=
  Plus (Plus (Cls hostChar) ** Cls (isChar ".")) ** Rep2up (Cls alpha).

(** The body of [emailRegex], between [^] and [$] (line 2404). *)
Definition emailRegex : re :=
  localPart ** Cls (isChar "@") ** Alt ipLiteral hostName.

(** [/[,\s\n]+/], the separator of line 2407. *)
Definition sepChar (c : N) : bool :=
  isChar "," c || isWhiteSpace c || (c =? 10).

Definition separator : re := Plus (Cls sepChar).

(** [Set.prototype.has] applied to an array element that may be
    [undefined]: a set of strings does not hold [undefined]. *)
Definition has (s : gset jsstring) (x : option jsstring) : bool :=
  match x with
  | Some d => bool_decide (d ∈ s)
  | None => false
  end.

(** The three lists of [validation] (line 2410). *)
Record Validation := {
  valid : list jsstring;
  invalid : list jsstring;
  risky : list jsstring
}.

(** [ValidationResult] (line 2366): the three lists and the two counts. *)
Record ValidationResult := {
  lists :> Validation;
  duplicates : Z;
  total : Z
}.

(** The state of the component (lines 2374-2377). *)
Record State := {
  inputText : jsstring;
  results : option ValidationResult;
  loading : bool;
  error : String.string
}.

Definition inputRequired : String.string := "Please provide emails to validate.".

Section Validator.

(** The platform's case conversion of non-ASCII strings, and the two sets
    imported from [./data/disposable-domains] (line 7); that module is not
    part of the sources at hand, so the sets are parameters. *)
Variable unicodeLower : jsstring -> jsstring.
Variable disposableDomains : gset jsstring.
Variable roleBasedEmails : gset jsstring.

(** Line 2407. *)
Definition emails (text : jsstring) : list jsstring :=
  filter (fun e => negb (isEmpty (trim e))) (split separator text).

(** Line 2408. *)
Definition uniqueEmails (text : jsstring) : list jsstring :=
  uniq (map (fun e => toLowerCase unicodeLower (trim e)) (emails text)).

(** One round of the loop of lines 2416-2428. *)
Definition classify (v : Validation) (email : jsstring) : Validation :=
  if negb (test_anchored emailRegex email) then
    {| valid := valid v; invalid := invalid v ++ [email]; risky := risky v |}
  else
    let domain := splitChar (ch "@") email !! 1%nat in
    let user := splitChar (ch "@") email !! 0%nat in
    if has disposableDomains domain || has roleBasedEmails user then
      {| valid := valid v; invalid := invalid v; risky := risky v ++ [email] |}
    else
      {| valid := valid v ++ [email]; invalid := invalid v; risky := risky v |}.

(** The body of the timer callback (lines 2403-2434): the value handed to
    [setResults]. *)
Definition validation (text : jsstring) : ValidationResult :=
  let validation :=
    fold_left classify (uniqueEmails text)
      {| valid := []; invalid := []; risky := [] |} in
  {| lists := validation;
     total := Z.of_nat (length (emails text));
     duplicates :=
       Z.of_nat (length (emails text)) - Z.of_nat (length (uniqueEmails text)) |}.

(** What [validateEmails] does before it returns (lines 2393-2399). *)
Definition validateEmails_begin (st : State) : State :=
  if blank (inputText st) then
    {| inputText := inputText st; results := results st;
       loading := loading st; error := inputRequired |}
  else
    {| inputText := inputText st; results := None;
       loading := true; error := "" |}.

(** The timer callback, run on the input text the handler saw. *)
Definition validateEmails_timeout (text : jsstring) (st : State) : State :=
  {| inputText := inputText st; results := Some (validation text);
     loading := false; error := error st |}.

(** [validateEmails] with its timer run to the end: on blank input the
    callback is never scheduled. *)
Definition validateEmails (st : State) : State :=
  if blank (inputText st) then validateEmails_begin st
  else validateEmails_timeout (inputText st) (validateEmails_begin st).

End Validator.

(** Modelled from the spec: the set [disposableDomains] of
    [./data/disposable-domains], which is not among the sources.  The spec
    names "mailinator.com" as a disposable domain. *)
Definition specDisposableDomains : gset jsstring :=
  {[ js "mailinator.com" ]}.

(** Modelled from the spec: the set [roleBasedEmails] of the same module.
    The spec names "admin", "noreply" and "support" as role-based local
    parts. *)
Definition specRoleBasedEmails : gset jsstring :=
  {[ js "admin"; js "noreply"; js "support" ]}.

(** A case conversion for examples whose strings are all ASCII, where the
    Unicode table is never consulted. *)
Definition asciiOnly (s : jsstring) : jsstring := s.

(** The component as it is mounted ([useState] defaults) with [text]
    typed into the text area. *)
Definition typed (text : jsstring) : State :=
  {| inputText := text; results := None; loading := false; error := "" |}.

(** Vocabulary for the statements below: the test of line 2417 and the
    test of line 2422 on one address. *)
Definition passes (email : jsstring) : bool := test_anchored emailRegex email.

Definition flagged (disposableDomains roleBasedEmails : gset jsstring)
    (email : jsstring) : bool :=
  has disposableDomains (splitChar (ch "@") email !! 1%nat)
  || has roleBasedEmails (splitChar (ch "@") email !! 0%nat).

(** An address with a quoted local part: [quoted l d] is the local part
    [l] between double quotes, an at sign and the domain [d]. *)
Definition quoted (l d : String.string) : jsstring :=
  quote :: js l ++ quote :: ch "@" :: js d.

(** Vocabulary for the statements below: an address with a quoted local
    part as the pattern admits it: one or more code units, none of them
    a line terminator, between two double quotes, then an at sign and a
    domain of the pattern (an IP literal or a host name). *)
Definition quotedAddress (email : jsstring) : Prop :=
  exists w d,
    email = quote :: w ++ quote :: ch "@" :: d
    /\ w <> [] /\ forallb anyChar w = true
    /\ lang (Alt ipLiteral hostName) d.

(** The three lists of a result, one after the other. *)
Definition all (v : Validation) : list jsstring :=
  valid v ++ invalid v ++ risky v.

(** Following the spec's words: the local part and the domain of an
    address, split at its last at sign. *)
Definition splitAtLast (email : jsstring) : option (jsstring * jsstring) :=
  match rev (splitChar (ch "@") email) with
  | domain :: (_ :: _) as before =>
      Some (join [ch "@"] (rev before), domain)
  | _ => None
  end.

End EmailValidation.

(** ** The email extractor tool ([EmailExtractor], App.tsx 2522-2536) *)

Module EmailExtractor.
Import JS RegExp.

Local Infix "**" := Seq (at level 60, right associativity).

(** [[a-zA-Z0-9._-]].  The pattern carries the [i] flag; without the [u]
    flag no code unit outside ASCII canonicalizes to an ASCII letter, and
    the class already holds both cases, so the flag changes nothing. *)
Definition addrChar (c : N) : bool :=
  range "a" "z" c || range "A" "Z" c || range "0" "9" c
  || isChar "." c || isChar "_" c || isChar "-" c.

(** [/([a-zA-Z0-9._-]+@[a-zA-Z0-9._-]+\.[a-zA-Z0-9._-]+)/gi] (line 2532). *)
Definition emailRegex : re :=
  Plus (Cls addrChar) ** Cls (isChar "@") **
  Plus (Cls addrChar) ** Cls (isChar ".") ** Plus (Cls addrChar).

(** Vocabulary for the statements below: a run of [addrChar], an at sign,
    and a run of [addrChar] with a dot inside it. *)
Definition addressShape (e : jsstring) : Prop :=
  exists a b c,
    e = a ++ ch "@" :: b ++ ch "." :: c
    /\ a <> [] /\ b <> [] /\ c <> []
    /\ forallb addrChar a = true /\ forallb addrChar b = true
    /\ forallb addrChar c = true.

(** The state of the component (lines 2523-2525). *)
Record State := {
  inputText : jsstring;
  extractedEmails : list jsstring;
  copyButtonText : String.string
}.

Section Extractor.

Variable unicodeLower : jsstring -> jsstring.

(** Lines 2533-2534. *)
Definition foundEmails (text : jsstring) : list jsstring :=
  matchAll emailRegex 0 text.

Definition uniqueEmails (text : jsstring) : list jsstring :=
  uniq (map (toLowerCase unicodeLower) (foundEmails text)).

(** The list [handleExtract] hands to [setExtractedEmails]
    (lines 2528-2535). *)
Definition extractEmails (text : jsstring) : list jsstring :=
  if blank text then [] else sort (uniqueEmails text).

Definition handleExtract (st : State) : State :=
  {| inputText := inputText st;
     extractedEmails := extractEmails (inputText st);
     copyButtonText := copyButtonText st |}.

End Extractor.

End EmailExtractor.

(** ** Further built-ins *)

Module JSMore.
Import JS.

Local Open Scope Z_scope.

(** [s.indexOf(c)] for a search string of one code unit: the first index
    of [c], or -1. *)
Fixpoint indexOf (c : N) (s : jsstring) : Z :=
  match s with
  | [] => -1
  | d :: s' =>
      if (d =? c)%N then 0
      else let i := indexOf c s' in if i <? 0 then -1 else i + 1
  end.

(** [s.substring(start, end)]: both arguments are clamped to the string,
    and swapped when the first is the larger. *)
Definition clamp (len : nat) (i : Z) : nat :=
  Z.to_nat (Z.min (Z.max i 0) (Z.of_nat len)).

Definition substring (s : jsstring) (start stop : Z) : jsstring :=
  let a := clamp (length s) start in
  let b := clamp (length s) stop in
  take (Nat.max a b - Nat.min a b) (drop (Nat.min a b) s).

(** [arr.slice(0, end)]: a negative [end] counts from the end of the
    array. *)
Definition slice0 {A} (l : list A) (stop : Z) : list A :=
  let len := Z.of_nat (length l) in
  let k := if stop <? 0 then Z.max (len + stop) 0 else Z.min stop len in
  take (Z.to_nat k) l.

(** [arr.findIndex(p)]: the first index whose element satisfies [p], or
    -1. *)
Fixpoint findIndex {A} (p : A -> bool) (l : list A) : Z :=
  match l with
  | [] => -1
  | x :: l' =>
      if p x then 0
      else let i := findIndex p l' in if i <? 0 then -1 else i + 1
  end.

(** [arr.find(p)]: the first element that satisfies [p], or
    [undefined]. *)
Definition find {A} (p : A -> bool) (l : list A) : option A := List.find p l.

(** A non-negative integer below 10^21 in a template literal: its decimal
    digits. *)
Definition decimal (n : N) : jsstring :=
  js (NilZero.string_of_uint (N.to_uint n)).

(** Vocabulary for the statements below: [l] names its entries in the
    order in which they first come in [p]: of two entries of [l], the
    earlier one occurs in [p] before every occurrence of the later one. *)
Definition firstOccurrenceOrder {A : Type} (l p : list A) : Prop :=
  forall (i j : nat) (a b : A),
    l !! i = Some a -> l !! j = Some b -> (i < j)%nat ->
    exists k : nat,
      p !! k = Some a /\ forall k' : nat, p !! k' = Some b -> (k < k')%nat.

(** [!s] for a value that is a string or [null]: [null] and the empty
    string are the falsy ones. *)
Definition falsy (s : option jsstring) : bool :=
  match s with
  | None => true
  | Some t => isEmpty t
  end.

End JSMore.

(** ** The image studio ([NanoBananaStudio], App.tsx 707-848) *)

Module ImageStudio.
Import JS JSMore.

Local Open Scope Z_scope.

(** What [dataUrlToParts] returns; [data] is [undefined] when the URL
    holds no comma. *)
Record Parts := {
  data : option jsstring;
  mimeType : jsstring
}.

(** Lines 715-719.  [split] returns at least one piece, so [meta] is a
    string; the last branch is never taken. *)
Definition dataUrlToParts (dataUrl : jsstring) : Parts :=
  match splitChar (ch ",") dataUrl with
  | meta :: rest =>
      {| data := head rest;
         mimeType :=
           substring meta (indexOf (ch ":") meta + 1) (indexOf (ch ";") meta) |}
  | [] => {| data := None; mimeType := [] |}
  end.

(** The template literal of line 759. *)
Definition imageUrl (mime payload : jsstring) : jsstring :=
  js "data:" ++ mime ++ js ";base64," ++ payload.

(** The state of the component (lines 708-712). *)
Record State := {
  history : list jsstring;
  currentIndex : Z;
  prompt : jsstring;
  loading : bool;
  error : jsstring
}.

Definition initial : State :=
  {| history := []; currentIndex := -1; prompt := []; loading := false;
     error := [] |}.

(** [reader.onloadend] of [handleFileSelect] (lines 724-729), with the
    data URL the reader produced. *)
Definition fileLoaded (result : jsstring) (st : State) : State :=
  {| history := [result]; currentIndex := 0; prompt := prompt st;
     loading := loading st; error := [] |}.

(** The Undo button (line 805): a disabled button does not fire. *)
Definition clickUndo (st : State) : State :=
  if (currentIndex st <=? 0) || loading st then st
  else {| history := history st;
          currentIndex := Z.max 0 (currentIndex st - 1);
          prompt := prompt st; loading := loading st; error := error st |}.

(** The Redo button (line 806). *)
Definition clickRedo (st : State) : State :=
  if (currentIndex st >=? Z.of_nat (length (history st)) - 1) || loading st
  then st
  else {| history := history st;
          currentIndex :=
            Z.min (Z.of_nat (length (history st)) - 1) (currentIndex st + 1);
          prompt := prompt st; loading := loading st; error := error st |}.

(** A click on the thumbnail of index [index] (line 838); the thumbnails
    are drawn from [history], so [index] is one of its indices. *)
Definition clickThumbnail (index : nat) (st : State) : State :=
  if loading st then st
  else {| history := history st; currentIndex := Z.of_nat index;
          prompt := prompt st; loading := loading st; error := error st |}.

(** What the awaited call of [handleGenerate] can come to: a response
    with, maybe, an image part (its MIME type and data) and, maybe, text;
    or an exception, with its message when it is an [Error]. *)
Inductive Outcome :=
  | Responded (image : option (jsstring * jsstring)) (text : option jsstring)
  | Threw (message : option jsstring).

(** The message of the [catch] block (line 772). *)
Definition failure (o : Outcome) : option jsstring :=
  match o with
  | Responded (Some _) _ => None
  | Responded None text =>
      Some (js "Failed to edit: " ++
            (if falsy text then js "Model did not return an image."
             else js "Model returned a text response: " ++ default [] text))
  | Threw (Some m) => Some (js "Failed to edit: " ++ m)
  | Threw None => Some (js "Failed to edit: Unknown error")
  end.

(** [handleGenerate] up to its awaited call (lines 733-739). *)
Definition handleGenerate_begin (st : State) : State :=
  if isEmpty (prompt st) || (currentIndex st <? 0) then
    {| history := history st; currentIndex := currentIndex st;
       prompt := prompt st; loading := loading st;
       error := js "Please provide instructions." |}
  else
    {| history := history st; currentIndex := currentIndex st;
       prompt := prompt st; loading := true; error := [] |}.

(** [handleGenerate] from the end of its awaited call, come to [o]
    (lines 753-776).  [held] is the state of the render the handler was
    made in, whose [history] and [currentIndex] its closure holds; [st]
    is the state when the call ends. *)
Definition handleGenerate_end (o : Outcome) (held st : State) : State :=
  match o with
  | Responded (Some (mime, payload)) _ =>
      let newHistory :=
        slice0 (history held) (currentIndex held + 1)
        ++ [imageUrl mime payload] in
      {| history := newHistory;
         currentIndex := Z.of_nat (length newHistory) - 1;
         prompt := prompt st; loading := false; error := error st |}
  | _ =>
      {| history := history st; currentIndex := currentIndex st;
         prompt := prompt st; loading := false;
         error := default [] (failure o) |}
  end.

(** A whole run of [handleGenerate] (lines 733-777) with no other event
    between its start and its end. *)
Definition handleGenerate (o : Outcome) (st : State) : State :=
  if isEmpty (prompt st) || (currentIndex st <? 0) then
    {| history := history st; currentIndex := currentIndex st;
       prompt := prompt st; loading := loading st;
       error := js "Please provide instructions." |}
  else
    match o with
    | Responded (Some (mime, payload)) _ =>
        let newHistory :=
          slice0 (history st) (currentIndex st + 1) ++ [imageUrl mime payload] in
        {| history := newHistory;
           currentIndex := Z.of_nat (length newHistory) - 1;
           prompt := prompt st; loading := false; error := [] |}
    | _ =>
        {| history := history st; currentIndex := currentIndex st;
           prompt := prompt st; loading := false;
           error := default [] (failure o) |}
    end.

(** The image on display, [history[currentIndex]] (line 810). *)
Definition shown (st : State) : option jsstring :=
  if currentIndex st <? 0 then None
  else history st !! Z.to_nat (currentIndex st).

(** Vocabulary for the statements below: the index is -1 on an empty
    history and an index of the history otherwise. *)
Definition wellFormed (st : State) : Prop :=
  (history st = [] /\ currentIndex st = -1)
  \/ (0 <= currentIndex st < Z.of_nat (length (history st))).

(** The events of the component: a file read (of the uploader or of the
    Reset button, lines 779-783), the three controls over the history,
    a change of the prompt, the start of a run of [handleGenerate] and
    the end of one, whatever render its closure is of. *)
Inductive step : State -> State -> Prop :=
  | step_file result st : step st (fileLoaded result st)
  | step_undo st : step st (clickUndo st)
  | step_redo st : step st (clickRedo st)
  | step_thumbnail index st :
      (index < length (history st))%nat -> step st (clickThumbnail index st)
  | step_prompt text st :
      step st {| history := history st; currentIndex := currentIndex st;
                 prompt := text; loading := loading st; error := error st |}
  | step_generate_begin st : step st (handleGenerate_begin st)
  | step_generate_end o held st : step st (handleGenerate_end o held st).

Inductive reachable : State -> Prop :=
  | reachable_initial : reachable initial
  | reachable_step st st' : reachable st -> step st st' -> reachable st'.

End ImageStudio.

(** ** The email marketing tool ([EmailMarketing], App.tsx 2661-2893) *)

Module Contact.
Import JS.

(** [Contact] of the type declarations; [name] is optional. *)
Record t := {
  id : jsstring;
  email : jsstring;
  name : option jsstring;
  createdAt : jsstring
}.

End Contact.

Module ContactList.
Import JS.

Record t := {
  id : jsstring;
  name : jsstring;
  contacts : list Contact.t;
  createdAt : jsstring
}.

End ContactList.

Module Campaign.
Import JS.

Inductive Status := Draft | Sending | Sent.

(** [Campaign] of the type declarations.  Its [stats] are three numbers
    that the handlers below carry along and never read; their type is the
    parameter [Stats]. *)
Record t (Stats : Type) := {
  id : jsstring;
  name : jsstring;
  subject : jsstring;
  fromName : jsstring;
  fromEmail : jsstring;
  content : jsstring;
  audienceListIds : list jsstring;
  status : Status;
  stats : Stats;
  createdAt : jsstring;
  sentAt : option jsstring
}.

Arguments id {Stats} _.
Arguments name {Stats} _.
Arguments subject {Stats} _.
Arguments fromName {Stats} _.
Arguments fromEmail {Stats} _.
Arguments content {Stats} _.
Arguments audienceListIds {Stats} _.
Arguments status {Stats} _.
Arguments stats {Stats} _.
Arguments createdAt {Stats} _.
Arguments sentAt {Stats} _.

End Campaign.

Module EmailMarketing.
Import JS JSMore RegExp.

Inductive View := dashboard | listDetail | campaignEditor.
Inductive Tab := campaignsTab | audienceTab.
Inductive Modal := createList | addContacts.

Section Marketing.

Variable Stats : Type.

(** The state of the component (lines 2772-2782). *)
Record State := {
  view : View;
  activeTab : Tab;
  lists : list ContactList.t;
  campaigns : list (Campaign.t Stats);
  selectedListId : option jsstring;
  editingCampaignId : option jsstring;
  modal : option Modal;
  newListName : jsstring;
  contactsToAdd : jsstring
}.

(** [{ ...c, status }], [{ ...c, status: 'Sent', sentAt }] and
    [{ ...c, audienceListIds }]. *)
Definition withStatus (s : Campaign.Status) (c : Campaign.t Stats)
    : Campaign.t Stats :=
  {| Campaign.id := Campaign.id c; Campaign.name := Campaign.name c;
     Campaign.subject := Campaign.subject c;
     Campaign.fromName := Campaign.fromName c;
     Campaign.fromEmail := Campaign.fromEmail c;
     Campaign.content := Campaign.content c;
     Campaign.audienceListIds := Campaign.audienceListIds c;
     Campaign.status := s; Campaign.stats := Campaign.stats c;
     Campaign.createdAt := Campaign.createdAt c;
     Campaign.sentAt := Campaign.sentAt c |}.

Definition withSent (at_ : jsstring) (c : Campaign.t Stats)
    : Campaign.t Stats :=
  {| Campaign.id := Campaign.id c; Campaign.name := Campaign.name c;
     Campaign.subject := Campaign.subject c;
     Campaign.fromName := Campaign.fromName c;
     Campaign.fromEmail := Campaign.fromEmail c;
     Campaign.content := Campaign.content c;
     Campaign.audienceListIds := Campaign.audienceListIds c;
     Campaign.status := Campaign.Sent; Campaign.stats := Campaign.stats c;
     Campaign.createdAt := Campaign.createdAt c;
     Campaign.sentAt := Some at_ |}.

Definition withAudience (ids : list jsstring) (c : Campaign.t Stats)
    : Campaign.t Stats :=
  {| Campaign.id := Campaign.id c; Campaign.name := Campaign.name c;
     Campaign.subject := Campaign.subject c;
     Campaign.fromName := Campaign.fromName c;
     Campaign.fromEmail := Campaign.fromEmail c;
     Campaign.content := Campaign.content c;
     Campaign.audienceListIds := ids;
     Campaign.status := Campaign.status c; Campaign.stats := Campaign.stats c;
     Campaign.createdAt := Campaign.createdAt c;
     Campaign.sentAt := Campaign.sentAt c |}.

(** [{ ...list, contacts }]. *)
Definition withContacts (cs : list Contact.t) (l : ContactList.t)
    : ContactList.t :=
  {| ContactList.id := ContactList.id l; ContactList.name := ContactList.name l;
     ContactList.contacts := cs;
     ContactList.createdAt := ContactList.createdAt l |}.

(** Lines 2795-2798. *)
Definition handleCreateCampaign (st : State) : State :=
  {| view := campaignEditor; activeTab := activeTab st; lists := lists st;
     campaigns := campaigns st; selectedListId := selectedListId st;
     editingCampaignId := None; modal := modal st;
     newListName := newListName st; contactsToAdd := contactsToAdd st |}.

(** Lines 2800-2803. *)
Definition handleEditCampaign (id : jsstring) (st : State) : State :=
  {| view := campaignEditor; activeTab := activeTab st; lists := lists st;
     campaigns := campaigns st; selectedListId := selectedListId st;
     editingCampaignId := Some id; modal := modal st;
     newListName := newListName st; contactsToAdd := contactsToAdd st |}.

(** Lines 2805-2809; [confirmed] is the answer to [window.confirm]. *)
Definition handleDeleteCampaign (confirmed : bool) (id : jsstring)
    (st : State) : State :=
  if confirmed then
    {| view := view st; activeTab := activeTab st; lists := lists st;
       campaigns := filter (fun c => Campaign.id c <> id) (campaigns st);
       selectedListId := selectedListId st;
       editingCampaignId := editingCampaignId st; modal := modal st;
       newListName := newListName st; contactsToAdd := contactsToAdd st |}
  else st.

(** The updater of lines 2812-2820. *)
Definition saveInto (savedCampaign : Campaign.t Stats)
    (prev : list (Campaign.t Stats)) : list (Campaign.t Stats) :=
  let index :=
    findIndex (fun c => bool_decide (Campaign.id c = Campaign.id savedCampaign))
              prev in
  if (index >? -1)%Z then <[Z.to_nat index := savedCampaign]> prev
  else prev ++ [savedCampaign].

(** Lines 2811-2823. *)
Definition handleSaveCampaign (savedCampaign : Campaign.t Stats)
    (st : State) : State :=
  {| view := dashboard; activeTab := activeTab st; lists := lists st;
     campaigns := saveInto savedCampaign (campaigns st);
     selectedListId := selectedListId st;
     editingCampaignId := None; modal := modal st;
     newListName := newListName st; contactsToAdd := contactsToAdd st |}.

(** Lines 2825-2836; [now] is the reading of [Date.now()] and [iso] the
    string of [new Date().toISOString()]. *)
Definition handleCreateList (now : N) (iso : jsstring) (st : State) : State :=
  if blank (newListName st) then st
  else
    let newList :=
      {| ContactList.id := js "l_" ++ decimal now;
         ContactList.name := newListName st;
         ContactList.contacts := [];
         ContactList.createdAt := iso |} in
    {| view := view st; activeTab := activeTab st;
       lists := lists st ++ [newList];
       campaigns := campaigns st; selectedListId := selectedListId st;
       editingCampaignId := editingCampaignId st; modal := None;
       newListName := []; contactsToAdd := contactsToAdd st |}.

(** Lines 2838-2846. *)
Definition handleDeleteList (confirmed : bool) (listId : jsstring)
    (st : State) : State :=
  if confirmed then
    {| view := view st; activeTab := activeTab st;
       lists := filter (fun l => ContactList.id l <> listId) (lists st);
       campaigns :=
         map (fun c =>
                withAudience
                  (filter (fun id => id <> listId) (Campaign.audienceListIds c))
                  c)
             (campaigns st);
       selectedListId := selectedListId st;
       editingCampaignId := editingCampaignId st; modal := modal st;
       newListName := newListName st; contactsToAdd := contactsToAdd st |}
  else st.

(** Lines 2850-2855.  The first line is line 2407 word for word, hence
    [EmailValidation.emails].  [clock i] holds the two readings of the
    clock made for the contact of index [i]: [Date.now()] and
    [new Date().toISOString()]. *)
Definition newContacts (clock : nat -> N * jsstring) (text : jsstring)
    : list Contact.t :=
  imap (fun i email =>
          {| Contact.id := js "c_" ++ decimal (fst (clock i)) ++ js "_" ++ email;
             Contact.email := trim email;
             Contact.name := None;
             Contact.createdAt := snd (clock i) |})
       (EmailValidation.emails text).

(** The callback of lines 2857-2864 on one list. *)
Definition addTo (selected : jsstring) (new : list Contact.t)
    (list : ContactList.t) : ContactList.t :=
  if bool_decide (ContactList.id list = selected) then
    let existingEmails := map Contact.email (ContactList.contacts list) in
    let uniqueNewContacts :=
      filter (fun c => Contact.email c ∉ existingEmails) new in
    withContacts (ContactList.contacts list ++ uniqueNewContacts) list
  else list.

(** Lines 2848-2867. *)
Definition handleAddContacts (clock : nat -> N * jsstring) (st : State)
    : State :=
  match selectedListId st with
  | Some selected =>
      if isEmpty selected || blank (contactsToAdd st) then st
      else
        {| view := view st; activeTab := activeTab st;
           lists :=
             map (addTo selected (newContacts clock (contactsToAdd st)))
                 (lists st);
           campaigns := campaigns st; selectedListId := selectedListId st;
           editingCampaignId := editingCampaignId st; modal := None;
           newListName := newListName st; contactsToAdd := [] |}
  | None => st
  end.

(** Lines 2877-2884. *)
Definition handleDeleteContact (listId contactId : jsstring) (st : State)
    : State :=
  {| view := view st; activeTab := activeTab st;
     lists :=
       map (fun list =>
              if bool_decide (ContactList.id list = listId) then
                withContacts
                  (filter (fun c => Contact.id c <> contactId)
                          (ContactList.contacts list))
                  list
              else list)
           (lists st);
     campaigns := campaigns st; selectedListId := selectedListId st;
     editingCampaignId := editingCampaignId st; modal := modal st;
     newListName := newListName st; contactsToAdd := contactsToAdd st |}.

(** The text area of the add-contacts dialog (line 3009). *)
Definition typeContacts (text : jsstring) (st : State) : State :=
  {| view := view st; activeTab := activeTab st; lists := lists st;
     campaigns := campaigns st; selectedListId := selectedListId st;
     editingCampaignId := editingCampaignId st; modal := modal st;
     newListName := newListName st; contactsToAdd := text |}.

(** The campaign a fresh editor starts with (lines 2669-2681); [now] is
    the reading of [Date.now()], [iso] the string of
    [new Date().toISOString()] and [zero] the record of three zeros. *)
Definition newCampaign (now : N) (iso : jsstring) (zero : Stats)
    : Campaign.t Stats :=
  {| Campaign.id := js "c_" ++ decimal now; Campaign.name := [];
     Campaign.subject := []; Campaign.fromName := js "Edukester";
     Campaign.fromEmail := js "noreply@edukester.com";
     Campaign.content := []; Campaign.audienceListIds := [];
     Campaign.status := Campaign.Draft; Campaign.stats := zero;
     Campaign.createdAt := iso; Campaign.sentAt := None |}.

(** [handleSave] of the campaign editor (lines 2691-2695), whose [onSave]
    is [handleSaveCampaign]; [campaign] is the editor's state. *)
Definition handleSave (campaign : option (Campaign.t Stats)) (st : State)
    : State :=
  match campaign with
  | Some c => handleSaveCampaign (withStatus Campaign.Draft c) st
  | None => st
  end.

(** [handleSend] of the campaign editor (lines 2697-2707) up to the start
    of its timer. *)
Definition handleSend (campaign : option (Campaign.t Stats)) (st : State)
    : State :=
  match campaign with
  | Some c => handleSaveCampaign (withStatus Campaign.Sending c) st
  | None => st
  end.

(** The timer callback of [handleSend] (line 2704), run two seconds later
    on whatever the state then is; [iso] is the string of
    [new Date().toISOString()]. *)
Definition handleSend_timeout (campaign : option (Campaign.t Stats))
    (iso : jsstring) (st : State) : State :=
  match campaign with
  | Some c =>
      handleSaveCampaign (withSent iso (withStatus Campaign.Sending c)) st
  | None => st
  end.

(** [campaigns.find(c => c.id === id)] (line 2896) and
    [lists.find(l => l.id === id)] (line 2901). *)
Definition findCampaign (id : jsstring) (cs : list (Campaign.t Stats))
    : option (Campaign.t Stats) :=
  find (fun c => bool_decide (Campaign.id c = id)) cs.

Definition findList (id : jsstring) (ls : list ContactList.t)
    : option ContactList.t :=
  find (fun l => bool_decide (ContactList.id l = id)) ls.

(** The Manage button of a list (line 2984). *)
Definition manageList (id : jsstring) (st : State) : State :=
  {| view := listDetail; activeTab := activeTab st; lists := lists st;
     campaigns := campaigns st; selectedListId := Some id;
     editingCampaignId := editingCampaignId st; modal := modal st;
     newListName := newListName st; contactsToAdd := contactsToAdd st |}.

(** The two campaigns the effect of lines 2784-2793 puts in; [stats]
    stands for the record of numbers. *)
Definition q2Newsletter (stats : Stats) : Campaign.t Stats :=
  {| Campaign.id := js "camp1"; Campaign.name := js "Q2 Newsletter";
     Campaign.subject := js "Our Latest Updates!";
     Campaign.fromName := js "Edukester";
     Campaign.fromEmail := js "news@edukester.com";
     Campaign.content := js "Hello world...";
     Campaign.audienceListIds := [js "l1"];
     Campaign.status := Campaign.Sent; Campaign.stats := stats;
     Campaign.createdAt := js "2023-06-15T10:00:00Z";
     Campaign.sentAt := Some (js "2023-06-15T14:00:00Z") |}.

Definition julyPromo (stats : Stats) : Campaign.t Stats :=
  {| Campaign.id := js "camp2"; Campaign.name := js "July Promo";
     Campaign.subject := js "Summer Sale is Here!";
     Campaign.fromName := js "Edukester";
     Campaign.fromEmail := js "deals@edukester.com";
     Campaign.content := js "Get 20% off!";
     Campaign.audienceListIds := [js "l2"];
     Campaign.status := Campaign.Draft; Campaign.stats := stats;
     Campaign.createdAt := js "2023-07-01T11:00:00Z";
     Campaign.sentAt := None |}.

(** The state after that effect has run; [iso] is the string of
    [new Date().toISOString()]. *)
Definition seeded (stats1 stats2 : Stats) (iso : jsstring) : State :=
  {| view := dashboard; activeTab := campaignsTab;
     lists :=
       [ {| ContactList.id := js "l1";
            ContactList.name := js "Newsletter Subscribers";
            ContactList.contacts :=
              [ {| Contact.id := js "c1";
                   Contact.email := js "subscriber1@example.com";
                   Contact.name := Some (js "Alex");
                   Contact.createdAt := iso |} ];
            ContactList.createdAt := iso |};
         {| ContactList.id := js "l2";
            ContactList.name := js "Past Customers";
            ContactList.contacts := [];
            ContactList.createdAt := iso |} ];
     campaigns := [q2Newsletter stats1; julyPromo stats2];
     selectedListId := None; editingCampaignId := None; modal := None;
     newListName := []; contactsToAdd := [] |}.

End Marketing.

End EmailMarketing.

(** ** Facts about the string and array built-ins *)

Module JSFacts.
Import JS.

Local Open Scope nat_scope.

(** *** [Set] *)

Lemma fold_setAdd_elem (l acc : list jsstring) (x : jsstring) :
  x ∈ fold_left setAdd l acc <-> x ∈ acc \/ x ∈ l.
Proof.
  revert acc. induction l as [|y l IH]; intros acc; simpl.
  - rewrite elem_of_nil. tauto.
  - rewrite IH, elem_of_cons. unfold setAdd. case_bool_decide as Hy.
    + split; [tauto|]. intros [?|[->|?]]; tauto.
    + rewrite elem_of_app, list_elem_of_singleton. tauto.
Qed.

Lemma fold_setAdd_NoDup (l acc : list jsstring) :
  NoDup acc -> NoDup (fold_left setAdd l acc).
Proof.
  revert acc. induction l as [|y l IH]; intros acc Hacc; simpl; [assumption|].
  apply IH. unfold setAdd. case_bool_decide as Hy; [assumption|].
  apply NoDup_app. split; [assumption|]. split.
  - intros z Hz Hz'. apply list_elem_of_singleton in Hz'. now subst.
  - apply NoDup_singleton.
Qed.

Lemma fold_setAdd_length (l acc : list jsstring) :
  length (fold_left setAdd l acc) <= length acc + length l.
Proof.
  revert acc. induction l as [|y l IH]; intros acc; simpl; [lia|].
  etransitivity; [apply IH|]. unfold setAdd. case_bool_decide.
  - lia.
  - rewrite length_app. simpl. lia.
Qed.

Lemma fold_setAdd_fresh (l acc : list jsstring) :
  NoDup (acc ++ l) -> fold_left setAdd l acc = acc ++ l.
Proof.
  revert acc. induction l as [|y l IH]; intros acc Hnd; simpl.
  - now rewrite app_nil_r.
  - assert (Hy : y ∉ acc).
    { apply NoDup_app in Hnd. destruct Hnd as (_ & Hd & _).
      intros Hin. apply (Hd y Hin). left. }
    unfold setAdd. rewrite bool_decide_eq_false_2 by assumption.
    rewrite IH; rewrite <- app_assoc; [reflexivity | assumption].
Qed.

Lemma uniq_NoDup (l : list jsstring) : NoDup (uniq l).
Proof. apply fold_setAdd_NoDup, NoDup_nil_2. Qed.

Lemma uniq_elem (l : list jsstring) (x : jsstring) : x ∈ uniq l <-> x ∈ l.
Proof. unfold uniq. rewrite fold_setAdd_elem, elem_of_nil. tauto. Qed.

Lemma uniq_length (l : list jsstring) : length (uniq l) <= length l.
Proof. apply (fold_setAdd_length l []). Qed.

Lemma uniq_id (l : list jsstring) : NoDup l -> uniq l = l.
Proof. intros H. apply (fold_setAdd_fresh l []). exact H. Qed.

(** *** The order of [sort] *)

Lemma ltb_irrefl (x : jsstring) : ltb x x = false.
Proof.
  induction x as [|a x IH]; simpl; [reflexivity|].
  rewrite N.ltb_irrefl, N.eqb_refl, IH. reflexivity.
Qed.

Lemma ltb_cons (a b : N) (x y : jsstring) :
  ltb (a :: x) (b :: y) = true <-> (a < b)%N \/ (a = b /\ ltb x y = true).
Proof.
  simpl. rewrite orb_true_iff, andb_true_iff, N.ltb_lt, N.eqb_eq. tauto.
Qed.

Lemma ltb_trans (x y z : jsstring) :
  ltb x y = true -> ltb y z = true -> ltb x z = true.
Proof.
  revert y z. induction x as [|a x IH]; intros [|b y] [|c z]; try discriminate;
    try reflexivity.
  rewrite !ltb_cons. intros [Hab|[-> Hxy]] [Hbc|[-> Hyz]].
  - left. lia.
  - left. lia.
  - left. lia.
  - right. split; [reflexivity|]. now apply IH with y.
Qed.

Lemma ltb_trichotomy (x y : jsstring) :
  ltb x y = true \/ x = y \/ ltb y x = true.
Proof.
  revert y. induction x as [|a x IH]; intros [|b y]; simpl; auto.
  destruct (N.lt_trichotomy a b) as [H|[->|H]].
  - left. apply N.ltb_lt in H. now rewrite H.
  - rewrite N.ltb_irrefl, N.eqb_refl. simpl.
    destruct (IH y) as [H|[->|H]]; auto.
  - right. right. apply N.ltb_lt in H. now rewrite H.
Qed.

Lemma ltb_asym (x y : jsstring) : ltb x y = true -> ltb y x = false.
Proof.
  intros H. destruct (ltb y x) eqn:E; [|reflexivity].
  pose proof (ltb_trans _ _ _ H E) as Hxx. now rewrite ltb_irrefl in Hxx.
Qed.

Lemma leb_total (x y : jsstring) : leb x y = false -> leb y x = true.
Proof.
  unfold leb. rewrite negb_false_iff, negb_true_iff. apply ltb_asym.
Qed.

Lemma leb_trans (x y z : jsstring) :
  leb x y = true -> leb y z = true -> leb x z = true.
Proof.
  unfold leb. rewrite !negb_true_iff. intros Hyx Hzy.
  destruct (ltb z x) eqn:Hzx; [|reflexivity].
  destruct (ltb_trichotomy x y) as [H|[->|H]].
  - now rewrite (ltb_trans _ _ _ Hzx H) in Hzy.
  - congruence.
  - congruence.
Qed.

Lemma leb_neq_ltb (x y : jsstring) : leb x y = true -> x <> y -> ltb x y = true.
Proof.
  unfold leb. rewrite negb_true_iff. intros Hyx Hne.
  destruct (ltb_trichotomy x y) as [H|[->|H]]; congruence.
Qed.

(** *** [sort] *)

Lemma insert_perm (x : jsstring) (l : list jsstring) :
  Permutation (x :: l) (insert x l).
Proof.
  induction l as [|y l IH]; simpl; [reflexivity|].
  destruct (leb x y); [reflexivity|].
  rewrite perm_swap. now constructor.
Qed.

Lemma sort_perm (l : list jsstring) : Permutation l (sort l).
Proof.
  induction l as [|x l IH]; simpl; [constructor|].
  rewrite <- insert_perm. now constructor.
Qed.

Lemma insert_sorted (x : jsstring) (l : list jsstring) :
  Sorted (fun a b => leb a b = true) l ->
  Sorted (fun a b => leb a b = true) (insert x l).
Proof.
  induction l as [|y l IH]; intros Hs; simpl.
  - repeat constructor.
  - destruct (leb x y) eqn:E.
    + constructor; [assumption|]. now constructor.
    + apply Sorted_inv in Hs. destruct Hs as [Hs Hd].
      constructor; [now apply IH|].
      destruct l as [|z l]; simpl.
      * constructor. now apply leb_total.
      * destruct (leb x z); constructor.
        -- now apply leb_total.
        -- now inversion Hd.
Qed.

Lemma sort_sorted (l : list jsstring) :
  Sorted (fun a b => leb a b = true) (sort l).
Proof.
  induction l as [|x l IH]; simpl; [constructor|]. now apply insert_sorted.
Qed.

(** A list already in order is left as it is. *)
Lemma sort_id (l : list jsstring) :
  Sorted (fun a b => leb a b = true) l -> sort l = l.
Proof.
  induction l as [|x l IH]; intros Hs; simpl; [reflexivity|].
  apply Sorted_inv in Hs. destruct Hs as [Hs Hd]. rewrite (IH Hs).
  destruct Hd as [|y l' Hxy]; simpl; [reflexivity|]. now rewrite Hxy.
Qed.

(** Without repeated entries the order is strict between any two
    positions. *)
Lemma sort_strict (l : list jsstring) :
  NoDup l -> StronglySorted lexLt (sort l).
Proof.
  intros Hnd.
  assert (Hnd' : NoDup (sort l)).
  { now rewrite <- (sort_perm l). }
  pose proof (Sorted_StronglySorted
    (fun x y z (H1 : leb x y = true) (H2 : leb y z = true) => leb_trans x y z H1 H2)
    (sort_sorted l)) as Hss.
  induction Hss as [|x m Hm IH Hall]; [constructor|].
  apply NoDup_cons in Hnd'. destruct Hnd' as [Hx Hm'].
  constructor; [now apply IH|].
  rewrite List.Forall_forall in *. intros y Hy.
  apply leb_neq_ltb; [now apply Hall|].
  intros ->. apply Hx. now apply list_elem_of_In.
Qed.

Lemma StronglySorted_lexLt_leb (l : list jsstring) :
  StronglySorted lexLt l -> Sorted (fun a b => leb a b = true) l.
Proof.
  intros H. apply StronglySorted_Sorted in H.
  induction H as [|x m Hm IH Hd]; constructor; [assumption|].
  destruct Hd as [|y m' Hxy]; constructor.
  unfold leb. now rewrite (ltb_asym _ _ Hxy).
Qed.

Lemma StronglySorted_lexLt_NoDup (l : list jsstring) :
  StronglySorted lexLt l -> NoDup l.
Proof.
  induction 1 as [|x m Hm IH Hall]; [apply NoDup_nil_2|].
  apply NoDup_cons. split; [|assumption].
  intros Hin. apply list_elem_of_In in Hin.
  rewrite List.Forall_forall in Hall. specialize (Hall _ Hin).
  unfold lexLt in Hall. now rewrite ltb_irrefl in Hall.
Qed.

(** *** [trim] *)

Lemma dropWhile_head (p : N -> bool) (s : jsstring) :
  match s with [] => True | c :: _ => p c = false end -> dropWhile p s = s.
Proof. destruct s as [|c s]; simpl; [reflexivity|]. now intros ->. Qed.

(** A string without white space is left as it is. *)
Lemma trim_clean (s : jsstring) :
  forallb (fun c => negb (isWhiteSpace c)) s = true -> trim s = s.
Proof.
  intros Hs. unfold trim.
  assert (Hall : forall c, In c s -> isWhiteSpace c = false).
  { intros c Hc. rewrite forallb_forall in Hs. apply negb_true_iff. now apply Hs. }
  rewrite (dropWhile_head _ s).
  - rewrite dropWhile_head; [apply rev_involutive|].
    destruct (rev s) as [|c r] eqn:E; [exact I|].
    apply Hall. apply in_rev. rewrite E. now left.
  - destruct s as [|c s']; [exact I|]. apply Hall. now left.
Qed.

Lemma dropWhile_nil (p : N -> bool) (s : jsstring) :
  dropWhile p s = [] <-> forallb p s = true.
Proof.
  induction s as [|c s IH]; simpl; [tauto|].
  destruct (p c); simpl; [exact IH|]. split; discriminate.
Qed.

Lemma dropWhile_first (p : N -> bool) (s : jsstring) (c : N) (d : jsstring) :
  dropWhile p s = c :: d -> p c = false.
Proof.
  induction s as [|x s IH]; simpl; [discriminate|].
  destruct (p x) eqn:E; [exact IH|]. intros [= -> _]. exact E.
Qed.

(** Blank text is text of white space only. *)
Lemma blank_spec (s : jsstring) : blank s = forallb isWhiteSpace s.
Proof.
  unfold blank, trim.
  destruct (dropWhile isWhiteSpace s) as [|c d] eqn:E.
  - apply dropWhile_nil in E. now rewrite E.
  - pose proof (dropWhile_first _ _ _ _ E) as Hc.
    assert (Hs : forallb isWhiteSpace s = false).
    { destruct (forallb isWhiteSpace s) eqn:F; [|reflexivity].
      apply dropWhile_nil in F. congruence. }
    rewrite Hs.
    destruct (dropWhile isWhiteSpace (rev (c :: d))) as [|x y] eqn:E2.
    + apply dropWhile_nil in E2. simpl in E2.
      rewrite forallb_app in E2. simpl in E2. rewrite Hc in E2.
      now rewrite andb_false_r in E2.
    + simpl. now destruct (rev y ++ [x]) eqn:E3; [destruct (rev y)|].
Qed.

(** *** [toLowerCase] *)

Lemma toLowerCase_ascii (u : jsstring -> jsstring) (s : jsstring) :
  forallb isAscii s = true -> toLowerCase u s = map asciiLower s.
Proof. intros H. unfold toLowerCase. now rewrite H. Qed.

(** *** [split] on one code unit *)

Lemma occurrences_cons (c d : N) (s : jsstring) :
  occurrences c (d :: s) = (if decide (d = c) then 1 else 0) + occurrences c s.
Proof.
  unfold occurrences. rewrite filter_cons. now destruct (decide (d = c)).
Qed.

Lemma occurrences_app (c : N) (s t : jsstring) :
  occurrences c (s ++ t) = occurrences c s + occurrences c t.
Proof. unfold occurrences. now rewrite filter_app, length_app. Qed.

Lemma occurrences_none (c : N) (s : jsstring) :
  Forall (fun d => d <> c) s -> occurrences c s = 0.
Proof.
  induction 1 as [|d s Hd _ IH]; [reflexivity|].
  rewrite occurrences_cons, IH. now destruct (decide (d = c)).
Qed.

(** One more piece than separators. *)
Lemma splitChar_length (sep : N) (s : jsstring) :
  length (splitChar sep s) = S (occurrences sep s).
Proof.
  induction s as [|c s IH]; [reflexivity|].
  rewrite occurrences_cons. simpl. destruct (N.eqb_spec c sep) as [->|Hne].
  - rewrite decide_True by reflexivity. simpl. now rewrite IH.
  - rewrite decide_False by assumption.
    destruct (splitChar sep s) as [|h t]; [discriminate|]. exact IH.
Qed.

Lemma splitChar_none (sep : N) (s : jsstring) :
  occurrences sep s = 0 -> splitChar sep s = [s].
Proof.
  induction s as [|c s IH]; [reflexivity|].
  rewrite occurrences_cons. simpl. destruct (N.eqb_spec c sep) as [->|Hne].
  - rewrite decide_True by reflexivity. discriminate.
  - rewrite decide_False by assumption. intros H. now rewrite IH.
Qed.

(** With one separator the two pieces are what stands before and after
    it. *)
Lemma splitChar_one (sep : N) (s : jsstring) :
  occurrences sep s = 1 ->
  exists l d, s = l ++ sep :: d /\ splitChar sep s = [l; d].
Proof.
  induction s as [|c s IH]; [discriminate|].
  rewrite occurrences_cons. simpl. destruct (N.eqb_spec c sep) as [->|Hne].
  - rewrite decide_True by reflexivity. intros H.
    exists [], s. rewrite splitChar_none by lia. auto.
  - rewrite decide_False by assumption. intros H.
    destruct (IH H) as (l & d & -> & ->). now exists (c :: l), d.
Qed.

(** *** [sort] is the only way to put a list in order *)

Lemma leb_antisym (x y : jsstring) :
  leb x y = true -> leb y x = true -> x = y.
Proof.
  unfold leb. rewrite !negb_true_iff. intros Hyx Hxy.
  destruct (ltb_trichotomy x y) as [H|[H|H]]; congruence.
Qed.

Lemma sorted_perm_eq (l l' : list jsstring) :
  Sorted (fun a b => leb a b = true) l ->
  Sorted (fun a b => leb a b = true) l' ->
  Permutation l l' -> l = l'.
Proof.
  intros Hl Hl'.
  apply (Sorted_StronglySorted
    (fun x y z (H1 : leb x y = true) (H2 : leb y z = true) => leb_trans x y z H1 H2))
    in Hl, Hl'.
  revert l' Hl'. induction Hl as [|x m Hm IH Hx]; intros l' Hl' Hp.
  - now apply Permutation_nil in Hp.
  - destruct Hl' as [|y m' Hm' Hy].
    + symmetry in Hp. now apply Permutation_nil in Hp.
    + assert (Hxy : x = y).
      { rewrite List.Forall_forall in Hx, Hy.
        assert (Hin : In x (y :: m')) by (eapply Permutation_in; [exact Hp | now left]).
        assert (Hin' : In y (x :: m))
          by (eapply Permutation_in; [symmetry; exact Hp | now left]).
        destruct Hin as [->|Hin]; [reflexivity|].
        destruct Hin' as [->|Hin']; [reflexivity|].
        apply leb_antisym; auto. }
      subst y. f_equal. apply IH; [assumption|].
      now apply Permutation_cons_inv in Hp.
Qed.

(** Whatever algorithm the engine runs, its output is the list [sort]
    computes. *)
Lemma sort_unique (l l' : list jsstring) :
  Permutation l l' -> Sorted (fun a b => leb a b = true) l' -> l' = sort l.
Proof.
  intros Hp Hs. apply sorted_perm_eq; [assumption | apply sort_sorted|].
  now rewrite <- Hp, <- sort_perm.
Qed.

End JSFacts.

(** ** Facts about the character classes *)

Module CharFacts.
Import JS.

Local Open Scope N_scope.

Ltac char_unfold :=
  unfold EmailValidation.atomChar, EmailValidation.hostChar,
    EmailValidation.alpha, EmailValidation.digit, EmailValidation.anyChar,
    EmailValidation.sepChar, EmailValidation.quote, EmailValidation.backslash,
    EmailExtractor.addrChar, isWhiteSpace, isLineTerminator, isAscii,
    isUpperAscii, asciiLower, range, isChar, ch in *;
  simpl (N_of_ascii _) in *.

Ltac char_step :=
  cbn [andb orb negb] in *; try discriminate; try lia.

(** Case analysis on every comparison of a code unit with a constant. *)
Ltac char_cases :=
  repeat match goal with
  | H : context [N.leb ?a ?b] |- _ => destruct (N.leb_spec a b); char_step
  | H : context [N.eqb ?a ?b] |- _ => destruct (N.eqb_spec a b); char_step
  | H : context [N.ltb ?a ?b] |- _ => destruct (N.ltb_spec a b); char_step
  | |- context [N.leb ?a ?b] => destruct (N.leb_spec a b); char_step
  | |- context [N.eqb ?a ?b] => destruct (N.eqb_spec a b); char_step
  | |- context [N.ltb ?a ?b] => destruct (N.ltb_spec a b); char_step
  end; try reflexivity; try discriminate; try lia.

Ltac char_solve := intros; char_unfold; char_cases.

Lemma addrChar_ascii c : EmailExtractor.addrChar c = true -> isAscii c = true.
Proof. char_solve. Qed.

Lemma addrChar_not_space c :
  EmailExtractor.addrChar c = true -> isWhiteSpace c = false.
Proof. char_solve. Qed.

Lemma addrChar_not_at c : EmailExtractor.addrChar c = true -> c <> ch "@".
Proof. char_solve. Qed.

Lemma addrChar_lower c :
  EmailExtractor.addrChar c = true -> EmailExtractor.addrChar (asciiLower c) = true.
Proof. char_solve. Qed.

Lemma dot_addrChar c : isChar "." c = true -> EmailExtractor.addrChar c = true.
Proof. char_solve. Qed.

Lemma space_not_addrChar c :
  isWhiteSpace c = true -> EmailExtractor.addrChar c = false.
Proof. char_solve. Qed.

Lemma asciiLower_ascii c : isAscii c = true -> isAscii (asciiLower c) = true.
Proof. char_solve. Qed.

Lemma asciiLower_not_upper c : isUpperAscii (asciiLower c) = false.
Proof. char_solve. Qed.

Lemma asciiLower_idem c : asciiLower (asciiLower c) = asciiLower c.
Proof. char_solve. Qed.

Lemma asciiLower_at c : asciiLower c = ch "@" <-> c = ch "@".
Proof. split; char_solve. Qed.

Lemma asciiLower_dot c : asciiLower c = ch "." <-> c = ch ".".
Proof. split; char_solve. Qed.

Lemma atomChar_plain c :
  EmailValidation.atomChar c = true -> c <> ch "@" /\ c <> EmailValidation.quote.
Proof. split; char_solve. Qed.

Lemma hostChar_not_at c : EmailValidation.hostChar c = true -> c <> ch "@".
Proof. char_solve. Qed.

Lemma alpha_not_at c : EmailValidation.alpha c = true -> c <> ch "@".
Proof. char_solve. Qed.

Lemma digit_not_at c : EmailValidation.digit c = true -> c <> ch "@".
Proof. char_solve. Qed.

End CharFacts.

(** ** Facts about the matcher *)

Module RegExpFacts.
Import JS RegExp.

Local Open Scope nat_scope.

Lemma star_runs_sound (a : re) :
  (forall s s', In s' (runs a s) -> exists w, s = w ++ s' /\ lang a w) ->
  forall fuel s s', In s' (star_runs (runs a) fuel s) ->
    exists w, s = w ++ s' /\ lang (Star a) w.
Proof.
  intros IHa fuel. induction fuel as [|f IHf]; intros s s' Hin; simpl in Hin.
  - destruct Hin as [<-|[]]. exists []. split; [reflexivity | constructor].
  - apply in_app_or in Hin. destruct Hin as [Hin|[<-|[]]].
    + apply in_flat_map in Hin. destruct Hin as (m & Hm & Hin).
      destruct (length m <? length s); [|destruct Hin].
      destruct (IHa _ _ Hm) as (u & -> & Hu).
      destruct (IHf _ _ Hin) as (v & -> & Hv).
      exists (u ++ v). split; [now rewrite <- app_assoc | now constructor].
    + exists []. split; [reflexivity | constructor].
Qed.

(** Every rest the matcher lists is what a string of the pattern leaves. *)
Lemma runs_sound (r : re) :
  forall s s', In s' (runs r s) -> exists w, s = w ++ s' /\ lang r w.
Proof.
  induction r as [|p|a IHa b IHb|a IHa b IHb|a IHa]; intros s s' Hin; simpl in Hin.
  - destruct Hin as [<-|[]]. exists []. split; [reflexivity | constructor].
  - destruct s as [|c s0]; [destruct Hin|].
    destruct (p c) eqn:Hp; [|destruct Hin].
    destruct Hin as [<-|[]]. exists [c]. split; [reflexivity | now constructor].
  - apply in_flat_map in Hin. destruct Hin as (m & Hm & Hin).
    destruct (IHa _ _ Hm) as (u & -> & Hu).
    destruct (IHb _ _ Hin) as (v & -> & Hv).
    exists (u ++ v). split; [now rewrite <- app_assoc | now constructor].
  - apply in_app_or in Hin. destruct Hin as [Hin|Hin].
    + destruct (IHa _ _ Hin) as (u & -> & Hu). exists u. split; [reflexivity | now constructor].
    + destruct (IHb _ _ Hin) as (u & -> & Hu). exists u. split; [reflexivity | now apply lang_alt_r].
  - now apply (star_runs_sound a IHa (length s)).
Qed.

(** A successful anchored test means the whole string is in the language. *)
Lemma test_anchored_lang (r : re) (s : jsstring) :
  test_anchored r s = true -> lang r s.
Proof.
  unfold test_anchored. rewrite existsb_exists. intros (s' & Hin & He).
  destruct s' as [|? ?]; [|discriminate].
  destruct (runs_sound r _ _ Hin) as (w & -> & Hw). now rewrite app_nil_r.
Qed.

(** *** The matcher misses nothing *)

Lemma star_runs_complete (a : re) :
  (forall u t, lang a u -> In t (runs a (u ++ t))) ->
  forall w, lang (Star a) w ->
  forall t fuel, length (w ++ t) <= fuel ->
    In t (star_runs (runs a) fuel (w ++ t)).
Proof.
  intros Ha w Hw. remember (Star a) as r eqn:Hr.
  induction Hw as [| | | | |a'|a' u v Hu _ Hv IHv]; try discriminate;
    injection Hr as ->; intros t fuel Hfuel.
  - destruct fuel; simpl; [now left|]. apply in_or_app. right. now left.
  - destruct u as [|c u]; [now apply IHv|].
    destruct fuel as [|f]; [simpl in Hfuel; lia|].
    cbn [star_runs]. apply in_or_app. left. apply in_flat_map.
    exists (v ++ t). split.
    + rewrite <- app_assoc. now apply Ha.
    + rewrite <- app_assoc.
      replace (length (v ++ t) <? length ((c :: u) ++ v ++ t)) with true
        by (symmetry; apply Nat.ltb_lt; rewrite (length_app (c :: u)); simpl; lia).
      apply IHv; [reflexivity|].
      rewrite <- app_assoc, (length_app (c :: u)) in Hfuel. simpl in Hfuel. lia.
Qed.

(** Every string of the pattern at the start of the input is found. *)
Lemma runs_complete (r : re) :
  forall w t, lang r w -> In t (runs r (w ++ t)).
Proof.
  induction r as [|p|a IHa b IHb|a IHa b IHb|a IHa]; intros w t Hw.
  - inversion Hw; subst. now left.
  - inversion Hw; subst. simpl.
    match goal with H : p _ = true |- _ => rewrite H end. now left.
  - inversion Hw as [| |? ? u v Hu Hv| | | |]; subst. cbn [runs].
    apply in_flat_map. exists (v ++ t). split.
    + rewrite <- app_assoc. now apply IHa.
    + now apply IHb.
  - cbn [runs]. apply in_or_app. inversion Hw; subst; [left | right]; auto.
  - cbn [runs]. now apply star_runs_complete.
Qed.

(** The anchored test decides membership in the language. *)
Lemma test_anchored_iff (r : re) (s : jsstring) :
  test_anchored r s = true <-> lang r s.
Proof.
  split; [apply test_anchored_lang|]. intros H.
  unfold test_anchored. apply existsb_exists. exists []. split; [|reflexivity].
  rewrite <- (app_nil_r s) at 1. now apply runs_complete.
Qed.

(** *** The strings of a pattern *)

Lemma lang_seq_inv (a b : re) (w : jsstring) :
  lang (Seq a b) w -> exists u v, w = u ++ v /\ lang a u /\ lang b v.
Proof. inversion 1; subst. eauto. Qed.

Lemma lang_alt_inv (a b : re) (w : jsstring) :
  lang (Alt a b) w -> lang a w \/ lang b w.
Proof. inversion 1; subst; auto. Qed.

Lemma lang_cls_inv (p : N -> bool) (w : jsstring) :
  lang (Cls p) w -> exists c, w = [c] /\ p c = true.
Proof. inversion 1; subst. eauto. Qed.

(** A property of every character of every class of [r] holds of every
    character of every string of [r]. *)
Lemma lang_classes (Q : N -> Prop) (r : re) (w : jsstring) :
  classes (fun p => forall c, p c = true -> Q c) r -> lang r w -> Forall Q w.
Proof.
  intros Hr Hw. induction Hw; simpl in Hr.
  - constructor.
  - constructor; [now apply Hr | constructor].
  - apply Forall_app. split; [apply IHHw1 | apply IHHw2]; tauto.
  - apply IHHw. tauto.
  - apply IHHw. tauto.
  - constructor.
  - apply Forall_app. split; [apply IHHw1 | apply IHHw2]; assumption.
Qed.

Lemma lang_star_cls (p : N -> bool) (w : jsstring) :
  lang (Star (Cls p)) w -> forallb p w = true.
Proof.
  intros H. apply forallb_forall. intros c Hc.
  apply (lang_classes (fun c => p c = true)) in H; [|simpl; auto].
  rewrite Forall_forall in H. apply H. now apply list_elem_of_In.
Qed.

Lemma lang_plus_cls (p : N -> bool) (w : jsstring) :
  lang (Plus (Cls p)) w -> exists c w', w = c :: w' /\ forallb p w = true.
Proof.
  intros H. unfold Plus in H.
  apply lang_seq_inv in H. destruct H as (u & v & -> & Hu & Hv).
  apply lang_cls_inv in Hu. destruct Hu as (c & -> & Hc).
  apply lang_star_cls in Hv. exists c, v. simpl. now rewrite Hc, Hv.
Qed.

(** *** Greedy runs of one class *)

Lemma span (p : N -> bool) (s : jsstring) :
  exists w, s = w ++ dropWhile p s /\ forallb p w = true
            /\ stops p (dropWhile p s) = true.
Proof.
  induction s as [|c s (w & Hs & Hw & Ht)]; simpl.
  - exists []. auto.
  - destruct (p c) eqn:Hp.
    + exists (c :: w). simpl. rewrite Hp, Hw. split; [now f_equal | auto].
    + exists []. simpl. rewrite Hp. auto.
Qed.

Lemma dropWhile_length (p : N -> bool) (s : jsstring) :
  length (dropWhile p s) <= length s.
Proof.
  induction s as [|c s IH]; simpl; [lia|]. destruct (p c); simpl; lia.
Qed.

Lemma star_runs_cls_stop (p : N -> bool) (t : jsstring) (fuel : nat) :
  stops p t = true -> star_runs (runs (Cls p)) fuel t = [t].
Proof.
  intros Ht. destruct fuel as [|f]; simpl; [reflexivity|].
  destruct t as [|c t]; simpl; [reflexivity|].
  simpl in Ht. apply negb_true_iff in Ht. now rewrite Ht.
Qed.

Lemma star_runs_cls_run (p : N -> bool) (w t : jsstring) :
  forallb p w = true -> stops p t = true ->
  forall fuel, length w <= fuel ->
    star_runs (runs (Cls p)) fuel (w ++ t) = giveBack w t.
Proof.
  intros Hw Ht. induction w as [|c w IH]; intros fuel Hfuel.
  - now apply star_runs_cls_stop.
  - simpl in Hw. apply andb_true_iff in Hw. destruct Hw as [Hc Hw].
    destruct fuel as [|f]; simpl in Hfuel; [lia|].
    cbn [star_runs app runs flat_map giveBack]. rewrite Hc.
    cbn [flat_map length]. rewrite app_nil_r.
    replace (length (w ++ t) <? S (length (w ++ t))) with true
      by (symmetry; apply Nat.ltb_lt; lia).
    rewrite IH by (assumption || lia). reflexivity.
Qed.

Lemma runs_star_cls (p : N -> bool) (w t : jsstring) :
  forallb p w = true -> stops p t = true ->
  runs (Star (Cls p)) (w ++ t) = giveBack w t.
Proof.
  intros Hw Ht. simpl. apply star_runs_cls_run; try assumption.
  rewrite length_app. lia.
Qed.

Lemma runs_plus_cls (p : N -> bool) (c : N) (w t : jsstring) :
  p c = true -> forallb p w = true -> stops p t = true ->
  runs (Plus (Cls p)) (c :: w ++ t) = giveBack w t.
Proof.
  intros Hc Hw Ht. unfold Plus. cbn [runs flat_map]. rewrite Hc.
  cbn [flat_map]. rewrite app_nil_r. now apply runs_star_cls.
Qed.

Lemma runs_plus_cls_stop (p : N -> bool) (s : jsstring) :
  stops p s = true -> runs (Plus (Cls p)) s = [].
Proof.
  intros Hs. unfold Plus. cbn [runs]. destruct s as [|c s]; [reflexivity|].
  simpl in Hs. apply negb_true_iff in Hs. now rewrite Hs.
Qed.

(** The longest run is tried first. *)
Lemma giveBack_head (w t : jsstring) : exists l, giveBack w t = t :: l.
Proof.
  induction w as [|c w (l & Hl)]; simpl.
  - now exists [].
  - rewrite Hl. now exists (l ++ [c :: w ++ t]).
Qed.

Lemma giveBack_In (w t x : jsstring) :
  In x (giveBack w t) <-> exists u v, w = u ++ v /\ x = v ++ t.
Proof.
  induction w as [|c w IH]; simpl.
  - split.
    + intros [<-|[]]. now exists [], [].
    + intros (u & v & Heq & ->). symmetry in Heq.
      apply app_eq_nil in Heq. destruct Heq as [-> ->]. now left.
  - rewrite in_app_iff, IH. simpl. split.
    + intros [(u & v & -> & ->)|[<-|[]]].
      * now exists (c :: u), v.
      * now exists [], (c :: w).
    + intros (u & v & Heq & ->). destruct u as [|d u]; simpl in Heq.
      * subst v. right. now left.
      * injection Heq as -> ->. left. now exists u, v.
Qed.

(** *** [split] on runs of one class *)

Lemma splitFrom_skip (r : re) (k : nat) (cur s : jsstring) :
  splitFrom r k cur s = splitFrom r 0 cur (drop k s).
Proof.
  revert k. induction s as [|c s IH]; intros [|k]; try reflexivity.
  simpl. apply IH.
Qed.

Lemma split_plus_cls_cons (p : N -> bool) (cur : jsstring) (c : N) (s : jsstring) :
  splitFrom (Plus (Cls p)) 0 cur (c :: s) =
    if p c then rev cur :: splitFrom (Plus (Cls p)) 0 [] (dropWhile p s)
    else splitFrom (Plus (Cls p)) 0 (c :: cur) s.
Proof.
  destruct (p c) eqn:Hc.
  - destruct (span p s) as (w & Hs & Hw & Ht).
    generalize dependent (dropWhile p s). intros t Hs Ht. subst s.
    cbn [splitFrom]. rewrite runs_plus_cls by assumption.
    destruct (giveBack_head w t) as (l & ->).
    replace (length (c :: w ++ t) - length t)
      with (S (length w)) by (simpl; rewrite length_app; lia).
    rewrite splitFrom_skip. now rewrite drop_app_length.
  - cbn [splitFrom]. rewrite runs_plus_cls_stop; [reflexivity|].
    simpl. now rewrite Hc.
Qed.

(** No piece holds a character of the separator class. *)
Lemma split_plus_cls_clean (p : N -> bool) (s cur : jsstring) :
  forallb (fun c => negb (p c)) cur = true ->
  Forall (fun tok => forallb (fun c => negb (p c)) tok = true)
         (splitFrom (Plus (Cls p)) 0 cur s).
Proof.
  remember (length s) as n eqn:Hn. assert (Hle : length s <= n) by lia. clear Hn.
  revert s cur Hle. induction n as [|n IH]; intros s cur Hle Hcur.
  - destruct s; [|simpl in Hle; lia]. simpl. constructor; [|constructor].
    rewrite forallb_forall in *. intros x Hx. apply Hcur. now apply in_rev.
  - destruct s as [|c s].
    + simpl. constructor; [|constructor].
      rewrite forallb_forall in *. intros x Hx. apply Hcur. now apply in_rev.
    + simpl in Hle. rewrite split_plus_cls_cons. destruct (p c) eqn:Hc.
      * constructor.
        -- rewrite forallb_forall in *. intros x Hx. apply Hcur. now apply in_rev.
        -- apply IH; [|reflexivity].
           pose proof (dropWhile_length p s). lia.
      * apply IH; [lia|]. simpl. now rewrite Hc.
Qed.

(** A pattern of one or more characters does not match the empty
    string, so [split] is its loop. *)
Lemma split_plus_cls (p : N -> bool) (s : jsstring) :
  split (Plus (Cls p)) s = splitFrom (Plus (Cls p)) 0 [] s.
Proof. now destruct s. Qed.

End RegExpFacts.

(** ** Facts about the extractor *)

Module ExtractorFacts.
Import JS RegExp JSFacts RegExpFacts CharFacts EmailExtractor.

Local Open Scope nat_scope.

(** *** The global search *)

Lemma matchAll_sound (r : re) (s : jsstring) :
  forall k m, In m (matchAll r k s) -> lang r m.
Proof.
  induction s as [|c s IH]; intros k m Hin.
  - simpl in Hin. destruct k; [|destruct Hin].
    destruct (runs r []) as [|rest l] eqn:E; [destruct Hin|].
    destruct Hin as [<-|[]].
    destruct (runs_sound r [] rest) as (w & Hw & Hl); [rewrite E; now left|].
    symmetry in Hw. apply app_eq_nil in Hw. destruct Hw as [-> _]. exact Hl.
  - cbn [matchAll] in Hin. destruct k as [|k]; [|now apply (IH k)].
    destruct (runs r (c :: s)) as [|rest l] eqn:E; [now apply (IH 0)|].
    destruct Hin as [<-|Hin]; [|now apply (IH _ _ Hin)].
    destruct (runs_sound r (c :: s) rest) as (w & Hw & Hl); [rewrite E; now left|].
    rewrite Hw, length_app.
    replace (length w + length rest - length rest) with (length w) by lia.
    now rewrite take_app_length.
Qed.

Lemma matchAll_skip (r : re) (s : jsstring) :
  forall k, k <= length s -> matchAll r k s = matchAll r 0 (drop k s).
Proof.
  induction s as [|c s IH]; intros [|k] Hk; try reflexivity.
  - simpl in Hk. lia.
  - simpl in Hk. cbn [matchAll drop]. apply IH. lia.
Qed.

(** *** The strings of the loose pattern *)

Lemma looseRegex_shape (m : jsstring) : lang emailRegex m -> addressShape m.
Proof.
  unfold emailRegex. intros H.
  apply lang_seq_inv in H. destruct H as (a & v & -> & Ha & H).
  apply lang_seq_inv in H. destruct H as (x & v' & -> & Hx & H).
  apply lang_seq_inv in H. destruct H as (b & v'' & -> & Hb & H).
  apply lang_seq_inv in H. destruct H as (y & c & -> & Hy & Hc).
  apply lang_cls_inv in Hx. destruct Hx as (x0 & -> & Hx). apply N.eqb_eq in Hx.
  apply lang_cls_inv in Hy. destruct Hy as (y0 & -> & Hy). apply N.eqb_eq in Hy.
  subst x0 y0.
  apply lang_plus_cls in Ha. destruct Ha as (a0 & a' & -> & Ha).
  apply lang_plus_cls in Hb. destruct Hb as (b0 & b' & -> & Hb).
  apply lang_plus_cls in Hc. destruct Hc as (c0 & c' & -> & Hc).
  exists (a0 :: a'), (b0 :: b'), (c0 :: c'). repeat split; auto; discriminate.
Qed.

Lemma forallb_app_true {A} (p : A -> bool) (l k : list A) :
  forallb p (l ++ k) = true <-> forallb p l = true /\ forallb p k = true.
Proof. rewrite forallb_app, andb_true_iff. tauto. Qed.

Lemma forallb_impl {A} (p q : A -> bool) (l : list A) :
  (forall x, p x = true -> q x = true) ->
  forallb p l = true -> forallb q l = true.
Proof.
  intros Hpq. rewrite !forallb_forall. auto.
Qed.

Lemma forallb_map_lower (p : N -> bool) (l : jsstring) :
  (forall x, p x = true -> p (asciiLower x) = true) ->
  forallb p l = true -> forallb p (map asciiLower l) = true.
Proof.
  intros Hp. rewrite !forallb_forall. intros Hl y Hy.
  apply in_map_iff in Hy. destruct Hy as (x & <- & Hx). auto.
Qed.

Lemma addressShape_ascii (e : jsstring) :
  addressShape e -> forallb isAscii e = true.
Proof.
  intros (a & b & c & -> & _ & _ & _ & Ha & Hb & Hc).
  rewrite forallb_app_true. cbn [forallb]. rewrite andb_true_iff.
  rewrite forallb_app_true. cbn [forallb]. rewrite andb_true_iff.
  repeat split; try reflexivity;
    (eapply forallb_impl; [apply addrChar_ascii | assumption]).
Qed.

Lemma addressShape_lower (e : jsstring) :
  addressShape e -> addressShape (map asciiLower e).
Proof.
  intros (a & b & c & -> & Ha0 & Hb0 & Hc0 & Ha & Hb & Hc).
  exists (map asciiLower a), (map asciiLower b), (map asciiLower c).
  split; [now rewrite map_app, map_cons, map_app, map_cons|].
  repeat split.
  - destruct a; [congruence | discriminate].
  - destruct b; [congruence | discriminate].
  - destruct c; [congruence | discriminate].
  - now apply forallb_map_lower; [apply addrChar_lower|].
  - now apply forallb_map_lower; [apply addrChar_lower|].
  - now apply forallb_map_lower; [apply addrChar_lower|].
Qed.

(** *** The first match is the longest *)

Lemma runs_seq (a b : re) (s : jsstring) :
  runs (Seq a b) s = flat_map (runs b) (runs a s).
Proof. reflexivity. Qed.

Lemma runs_cls_cons (p : N -> bool) (c : N) (s : jsstring) :
  runs (Cls p) (c :: s) = if p c then [s] else [].
Proof. reflexivity. Qed.

Lemma flat_map_head {A B} (f : A -> list B) (t : B) (L : list A) :
  (forall x, In x L -> f x = [] \/ exists l, f x = t :: l) ->
  (exists x, In x L /\ f x <> []) ->
  exists l, flat_map f L = t :: l.
Proof.
  induction L as [|a L IH]; intros Hall (x & Hx & Hne); [destruct Hx|].
  simpl. destruct (Hall a (or_introl eq_refl)) as [E|(l & E)]; rewrite E; simpl.
  - apply IH.
    + intros y Hy. apply Hall. now right.
    + exists x. destruct Hx as [->|Hx]; [congruence | auto].
  - eauto.
Qed.

(** The dot and the last run, tried on what the second run has left. *)
Lemma after_dot (v t : jsstring) :
  forallb addrChar v = true -> stops addrChar t = true ->
  runs (Seq (Cls (isChar ".")) (Plus (Cls addrChar))) (v ++ t) = []
  \/ exists l,
      runs (Seq (Cls (isChar ".")) (Plus (Cls addrChar))) (v ++ t) = t :: l.
Proof.
  intros Hv Ht. rewrite runs_seq. destruct v as [|d v].
  - left. destruct t as [|c t]; [reflexivity|].
    simpl in Ht. apply negb_true_iff in Ht. cbn [app runs].
    destruct (isChar "." c) eqn:E; [|reflexivity].
    apply dot_addrChar in E. congruence.
  - cbn [app runs]. destruct (isChar "." d); [|now left].
    cbn [flat_map]. rewrite app_nil_r.
    simpl in Hv. apply andb_true_iff in Hv. destruct Hv as [_ Hv].
    destruct v as [|x v].
    + left. now apply runs_plus_cls_stop.
    + right. simpl in Hv. apply andb_true_iff in Hv. destruct Hv as [Hx Hv].
      cbn [app]. rewrite runs_plus_cls by assumption. apply giveBack_head.
Qed.

Lemma after_dot_some (c t : jsstring) :
  c <> [] -> forallb addrChar c = true -> stops addrChar t = true ->
  runs (Seq (Cls (isChar ".")) (Plus (Cls addrChar))) ((ch "." :: c) ++ t) <> [].
Proof.
  intros Hc0 Hc Ht. rewrite runs_seq. cbn [app runs].
  change (isChar "." (ch ".")) with true. cbn [flat_map]. rewrite app_nil_r.
  destruct c as [|x c]; [congruence|].
  simpl in Hc. apply andb_true_iff in Hc. destruct Hc as [Hx Hc].
  cbn [app]. rewrite runs_plus_cls by assumption.
  destruct (giveBack_head c t) as (l & ->). discriminate.
Qed.

(** The second and third runs take all of [b.c], whatever dot of it the
    matcher settles on. *)
Lemma runs_host (b c t : jsstring) :
  b <> [] -> c <> [] ->
  forallb addrChar b = true -> forallb addrChar c = true ->
  stops addrChar t = true ->
  exists l,
    runs (Seq (Plus (Cls addrChar))
              (Seq (Cls (isChar ".")) (Plus (Cls addrChar))))
         ((b ++ ch "." :: c) ++ t) = t :: l.
Proof.
  intros Hb0 Hc0 Hb Hc Ht. destruct b as [|b0 b]; [congruence|].
  simpl in Hb. apply andb_true_iff in Hb. destruct Hb as [Hb1 Hb].
  assert (Hw : forallb addrChar (b ++ ch "." :: c) = true).
  { apply forallb_app_true. split; [assumption|]. simpl. now rewrite Hc. }
  rewrite runs_seq. cbn [app]. rewrite runs_plus_cls by assumption.
  apply flat_map_head.
  - intros x Hx. apply giveBack_In in Hx. destruct Hx as (u & v & Huv & ->).
    apply after_dot; [|assumption].
    rewrite Huv in Hw. now apply forallb_app_true in Hw.
  - exists ((ch "." :: c) ++ t). split.
    + apply giveBack_In. now exists b, (ch "." :: c).
    + now apply after_dot_some.
Qed.

(** At the start of an address followed by something that cannot go on
    with it, the first match the engine finds is the whole address. *)
Lemma runs_emailRegex (e t : jsstring) :
  addressShape e -> stops addrChar t = true ->
  exists l, runs emailRegex (e ++ t) = t :: l.
Proof.
  intros (a & b & c & -> & Ha0 & Hb0 & Hc0 & Ha & Hb & Hc) Ht.
  destruct a as [|a0 a]; [congruence|].
  simpl in Ha. apply andb_true_iff in Ha. destruct Ha as [Ha1 Ha].
  destruct (runs_host b c t Hb0 Hc0 Hb Hc Ht) as (l & Hl).
  unfold emailRegex. rewrite runs_seq.
  replace (((a0 :: a) ++ ch "@" :: b ++ ch "." :: c) ++ t)
    with (a0 :: a ++ (ch "@" :: (b ++ ch "." :: c) ++ t))
    by (repeat (progress (cbn [app]; rewrite <- ?app_assoc)); reflexivity).
  rewrite runs_plus_cls by (assumption || reflexivity).
  destruct (giveBack_head a (ch "@" :: (b ++ ch "." :: c) ++ t)) as (l1 & ->).
  cbn [flat_map]. rewrite (runs_seq (Cls (isChar "@"))), runs_cls_cons.
  change (isChar "@" (ch "@")) with true. cbn [flat_map].
  rewrite Hl. cbn [app]. eauto.
Qed.

Lemma matchAll_address (e t : jsstring) :
  addressShape e -> stops addrChar t = true ->
  matchAll emailRegex 0 (e ++ t) = e :: matchAll emailRegex 0 t.
Proof.
  intros He Ht. destruct (runs_emailRegex e t He Ht) as (l & Hl).
  destruct e as [|e0 e].
  { destruct He as (a & b & c & He & _). now destruct a. }
  cbn [app matchAll] in *. rewrite Hl. cbn [length].
  rewrite length_app.
  replace (S (length e + length t) - length t) with (S (length e)) by lia.
  cbn [take]. rewrite take_app_length. f_equal.
  rewrite matchAll_skip by (rewrite length_app; lia).
  replace (S (length e) - 1) with (length e) by lia.
  now rewrite drop_app_length.
Qed.

Lemma matchAll_stop (c : N) (t : jsstring) :
  addrChar c = false ->
  matchAll emailRegex 0 (c :: t) = matchAll emailRegex 0 t.
Proof.
  intros Hc. cbn [matchAll]. unfold emailRegex at 1. rewrite runs_seq.
  rewrite runs_plus_cls_stop; [reflexivity|]. simpl. now rewrite Hc.
Qed.

(** Searching the lines of a list of addresses finds the list. *)
Lemma matchAll_join (L : list jsstring) :
  Forall addressShape L -> matchAll emailRegex 0 (join [10%N] L) = L.
Proof.
  induction 1 as [|e L He HL IH]; [reflexivity|].
  destruct L as [|e' L].
  - cbn [join]. rewrite <- (app_nil_r e) at 1.
    now rewrite matchAll_address.
  - change (join [10%N] (e :: e' :: L))
      with (e ++ 10%N :: join [10%N] (e' :: L)).
    rewrite matchAll_address by (assumption || reflexivity).
    rewrite matchAll_stop by reflexivity. now rewrite IH.
Qed.

(** Nothing is found in blank text. *)
Lemma matchAll_spaces (s : jsstring) :
  forallb isWhiteSpace s = true -> matchAll emailRegex 0 s = [].
Proof.
  induction s as [|c s IH]; [reflexivity|].
  simpl forallb. rewrite andb_true_iff. intros [Hc Hs].
  rewrite matchAll_stop; [now apply IH | now apply space_not_addrChar].
Qed.

(** *** What the handler returns *)

Section Elements.

Variable unicodeLower : jsstring -> jsstring.

Lemma lower_address (m : jsstring) :
  addressShape m ->
  addressShape (toLowerCase unicodeLower m)
  /\ isLowerCase unicodeLower (toLowerCase unicodeLower m).
Proof.
  intros Hm. pose proof (addressShape_ascii m Hm) as Ha.
  rewrite (toLowerCase_ascii _ m Ha).
  pose proof (addressShape_lower m Hm) as Hl.
  split; [assumption|]. split.
  - apply forallb_forall. intros c Hc. apply in_map_iff in Hc.
    destruct Hc as (x & <- & _). now rewrite asciiLower_not_upper.
  - rewrite toLowerCase_ascii by now apply addressShape_ascii.
    rewrite map_map. apply map_ext. intros x. apply asciiLower_idem.
Qed.

Lemma uniqueEmails_element (text e : jsstring) :
  e ∈ uniqueEmails unicodeLower text ->
  addressShape e /\ isLowerCase unicodeLower e.
Proof.
  unfold uniqueEmails, foundEmails.
  rewrite uniq_elem, list_elem_of_In, in_map_iff. intros (m & <- & Hm).
  apply lower_address, looseRegex_shape. eapply matchAll_sound, Hm.
Qed.

(** The guard of line 2528 changes nothing: the search finds no address
    in blank text. *)
Lemma extractEmails_unguarded (text : jsstring) :
  extractEmails unicodeLower text = sort (uniqueEmails unicodeLower text).
Proof.
  unfold extractEmails. destruct (blank text) eqn:Hb; [|reflexivity].
  rewrite blank_spec in Hb. unfold uniqueEmails, foundEmails.
  now rewrite matchAll_spaces.
Qed.

Lemma extractEmails_element (text e : jsstring) :
  e ∈ extractEmails unicodeLower text ->
  addressShape e /\ isLowerCase unicodeLower e.
Proof.
  rewrite extractEmails_unguarded, <- sort_perm. apply uniqueEmails_element.
Qed.

Lemma extractEmails_sorted (text : jsstring) :
  StronglySorted lexLt (extractEmails unicodeLower text).
Proof.
  rewrite extractEmails_unguarded. apply sort_strict, uniq_NoDup.
Qed.

(** A sorted list of lower-case addresses is what the handler finds in
    its lines. *)
Lemma extractEmails_join (L : list jsstring) :
  Forall (fun e => addressShape e /\ isLowerCase unicodeLower e) L ->
  StronglySorted lexLt L ->
  extractEmails unicodeLower (join [10%N] L) = L.
Proof.
  intros HL Hs. rewrite extractEmails_unguarded.
  unfold uniqueEmails, foundEmails. rewrite matchAll_join.
  - replace (map (toLowerCase unicodeLower) L) with L.
    + rewrite uniq_id by now apply StronglySorted_lexLt_NoDup.
      now apply sort_id, StronglySorted_lexLt_leb.
    + clear Hs. induction HL as [|e L [_ [_ He]] _ IH]; [reflexivity|].
      simpl. now rewrite He, <- IH.
  - eapply Forall_impl; [exact HL|]. now intros e [He _].
Qed.

End Elements.

End ExtractorFacts.

(** ** Facts about the validator *)

Module ValidationFacts.
Import JS RegExp JSFacts RegExpFacts EmailValidation.

Local Open Scope nat_scope.

Section Loop.

Variable disposableDomains roleBasedEmails : gset jsstring.

Local Abbreviation classify := (classify disposableDomains roleBasedEmails).
Local Abbreviation flagged := (flagged disposableDomains roleBasedEmails).

(** One round of the loop puts the address at the end of exactly one list,
    chosen by the two tests. *)
Lemma classify_cases (v : Validation) (e : jsstring) :
  classify v e =
    if negb (passes e) then
      {| valid := valid v; invalid := invalid v ++ [e]; risky := risky v |}
    else if flagged e then
      {| valid := valid v; invalid := invalid v; risky := risky v ++ [e] |}
    else
      {| valid := valid v ++ [e]; invalid := invalid v; risky := risky v |}.
Proof. reflexivity. Qed.

Lemma fold_classify_lists (us : list jsstring) (v : Validation) :
  let v' := fold_left classify us v in
  valid v' = valid v ++ filter (fun e => passes e = true /\ flagged e = false) us
  /\ invalid v' = invalid v ++ filter (fun e => passes e = false) us
  /\ risky v' = risky v ++ filter (fun e => passes e = true /\ flagged e = true) us.
Proof.
  revert v. induction us as [|e us IH]; intros v; simpl.
  - rewrite !app_nil_r. auto.
  - destruct (IH (classify v e)) as (Hv & Hi & Hr). rewrite Hv, Hi, Hr.
    rewrite classify_cases, !filter_cons.
    destruct (passes e) eqn:Hp; [destruct (flagged e) eqn:Hf|]; simpl;
      repeat case_decide; try (intuition congruence);
      repeat split; rewrite <- ?app_assoc; reflexivity.
Qed.

Lemma classify_perm (v : Validation) (e : jsstring) :
  Permutation (all (classify v e)) (all v ++ [e]).
Proof.
  rewrite classify_cases. unfold all.
  destruct (passes e); [destruct (flagged e)|]; simpl; rewrite <- !app_assoc.
  - reflexivity.
  - apply Permutation_app_head.
    rewrite (Permutation_app_comm [e] (invalid v ++ risky v)).
    now rewrite <- app_assoc.
  - do 2 apply Permutation_app_head. apply (Permutation_app_comm [e]).
Qed.

Lemma fold_classify_perm (us : list jsstring) (v : Validation) :
  Permutation (all (fold_left classify us v)) (all v ++ us).
Proof.
  revert v. induction us as [|e us IH]; intros v; simpl.
  - now rewrite app_nil_r.
  - rewrite IH, classify_perm, <- app_assoc. reflexivity.
Qed.

End Loop.

(** *** The strict pattern *)

Lemma domain_no_at (d : jsstring) :
  lang (Alt ipLiteral hostName) d -> Forall (fun c => c <> ch "@") d.
Proof.
  apply (lang_classes (fun c => c <> ch "@")).
  unfold ipLiteral, hostName, Plus, Rep1to3, Rep2up, Opt. cbn [classes].
  repeat match goal with |- _ /\ _ => split end; try exact I; intros c Hc;
    first [ now apply CharFacts.digit_not_at
          | now apply CharFacts.hostChar_not_at
          | now apply CharFacts.alpha_not_at
          | revert Hc; CharFacts.char_solve ].
Qed.

(** A local part is either free of at signs and double quotes, or opens
    with a double quote. *)
Lemma localPart_cases (l : jsstring) :
  lang localPart l ->
  (l <> [] /\ Forall (fun c => c <> ch "@" /\ c <> quote) l)
  \/ exists l', l = quote :: l'.
Proof.
  unfold localPart. intros H. apply lang_alt_inv in H. destruct H as [H|H].
  - left. split.
    + apply lang_seq_inv in H. destruct H as (u & v & -> & Hu & _).
      apply lang_plus_cls in Hu. destruct Hu as (c & w & -> & _). discriminate.
    + revert H. apply (lang_classes (fun c => c <> ch "@" /\ c <> quote)).
      unfold Plus. cbn [classes].
      repeat match goal with |- _ /\ _ => split end; intros c Hc;
        first [ now apply CharFacts.atomChar_plain
              | revert Hc; CharFacts.char_solve ].
  - right. apply lang_seq_inv in H. destruct H as (u & v & -> & Hu & _).
    apply lang_cls_inv in Hu. destruct Hu as (c & -> & Hc).
    apply N.eqb_eq in Hc. subst c. now exists v.
Qed.

Lemma strictRegex_shape (tok : jsstring) :
  lang emailRegex tok ->
  exists l d, tok = l ++ ch "@" :: d /\ lang localPart l
              /\ Forall (fun c => c <> ch "@") d.
Proof.
  unfold emailRegex. intros H.
  apply lang_seq_inv in H. destruct H as (l & v & -> & Hl & Hv).
  apply lang_seq_inv in Hv. destruct Hv as (a & d & -> & Ha & Hd).
  apply lang_cls_inv in Ha. destruct Ha as (c & -> & Hc).
  apply N.eqb_eq in Hc. subst c.
  exists l, d. split; [reflexivity|]. split; [assumption|].
  now apply domain_no_at.
Qed.

(** An address that passes the test holds an at sign. *)
Lemma passes_has_at (tok : jsstring) :
  passes tok = true -> 1 <= occurrences (ch "@") tok.
Proof.
  intros H. apply test_anchored_lang, strictRegex_shape in H.
  destruct H as (l & d & -> & _ & _).
  rewrite occurrences_app, occurrences_cons, decide_True by reflexivity. lia.
Qed.

(** An address that passes the test and does not open with a double quote
    holds exactly one at sign. *)
Lemma passes_unquoted_one_at (tok : jsstring) :
  passes tok = true -> head tok <> Some quote ->
  occurrences (ch "@") tok = 1.
Proof.
  intros H Hq. apply test_anchored_lang, strictRegex_shape in H.
  destruct H as (l & d & -> & Hl & Hd).
  apply localPart_cases in Hl. destruct Hl as [[_ Hl]|(l' & ->)].
  - rewrite occurrences_app, occurrences_cons, decide_True by reflexivity.
    rewrite (occurrences_none _ d Hd), (occurrences_none _ l); [reflexivity|].
    eapply Forall_impl; [exact Hl|]. now intros c [Hc _].
  - now destruct Hq.
Qed.

(** *** Addresses with a quoted local part *)

Lemma lang_star_cls_intro (p : N -> bool) (w : jsstring) :
  forallb p w = true -> lang (Star (Cls p)) w.
Proof.
  induction w as [|c w IH]; cbn [forallb]; intros H; [constructor|].
  apply andb_true_iff in H. destruct H as [Hc Hw].
  change (c :: w) with ([c] ++ w). constructor; [now constructor | auto].
Qed.

Lemma lang_plus_cls_intro (p : N -> bool) (w : jsstring) :
  w <> [] -> forallb p w = true -> lang (Plus (Cls p)) w.
Proof.
  destruct w as [|c w]; [congruence|]. intros _ H. cbn [forallb] in H.
  apply andb_true_iff in H. destruct H as [Hc Hw].
  unfold Plus. change (c :: w) with ([c] ++ w).
  constructor; [now constructor | now apply lang_star_cls_intro].
Qed.

(** An address with a quoted local part passes the test. *)
Lemma quotedAddress_passes (tok : jsstring) :
  quotedAddress tok -> passes tok = true.
Proof.
  intros (w & d & -> & Hne & Hw & Hd). apply test_anchored_iff.
  replace (quote :: w ++ quote :: ch "@" :: d)
    with (([quote] ++ w ++ [quote]) ++ [ch "@"] ++ d)
    by (cbn [app]; now rewrite <- app_assoc).
  unfold emailRegex. constructor.
  - unfold localPart. apply lang_alt_r.
    constructor; [constructor; apply N.eqb_refl|].
    constructor; [now apply lang_plus_cls_intro|].
    constructor. apply N.eqb_refl.
  - constructor; [now constructor | assumption].
Qed.

(** An address that passes the test with more than one at sign has a
    quoted local part: the other form of local part holds no at sign, and
    neither does the domain. *)
Lemma passes_multi_at_quoted (tok : jsstring) :
  passes tok = true -> 1 < occurrences (ch "@") tok -> quotedAddress tok.
Proof.
  intros H Hat. apply test_anchored_lang in H. unfold emailRegex in H.
  apply lang_seq_inv in H. destruct H as (l & v & -> & Hl & Hv).
  apply lang_seq_inv in Hv. destruct Hv as (a & d & -> & Ha & Hd).
  apply lang_cls_inv in Ha. destruct Ha as (c & -> & Hc).
  apply N.eqb_eq in Hc. subst c.
  unfold localPart in Hl. apply lang_alt_inv in Hl. destruct Hl as [Hl|Hl].
  - exfalso.
    assert (Hplain : Forall (fun c => c <> ch "@") l).
    { revert Hl. apply (lang_classes (fun c => c <> ch "@")).
      unfold Plus. cbn [classes].
      repeat match goal with |- _ /\ _ => split end; intros c Hc;
        first [ now apply CharFacts.atomChar_plain
              | revert Hc; CharFacts.char_solve ]. }
    cbn [app] in Hat.
    rewrite occurrences_app, occurrences_cons, decide_True in Hat
      by reflexivity.
    rewrite (occurrences_none _ d (domain_no_at d Hd)),
      (occurrences_none _ l Hplain) in Hat. lia.
  - apply lang_seq_inv in Hl. destruct Hl as (q & v & -> & Hq & Hv).
    apply lang_cls_inv in Hq. destruct Hq as (c & -> & Hc).
    apply N.eqb_eq in Hc. subst c.
    apply lang_seq_inv in Hv. destruct Hv as (w & z & -> & Hw & Hz).
    apply lang_cls_inv in Hz. destruct Hz as (c & -> & Hc).
    apply N.eqb_eq in Hc. subst c.
    apply lang_plus_cls in Hw. destruct Hw as (c & w' & -> & Hall).
    exists (c :: w'), d. split; [|split; [discriminate | split; assumption]].
    cbn [app]. now rewrite <- app_assoc.
Qed.

(** *** The tokens *)

Lemma sepChar_isWhiteSpace (c : N) : sepChar c = false -> isWhiteSpace c = false.
Proof.
  unfold sepChar. rewrite !orb_false_iff. tauto.
Qed.

(** The pieces of line 2407 hold no separator, hence no white space. *)
Lemma split_clean (text : jsstring) :
  Forall (fun tok => forallb (fun c => negb (isWhiteSpace c)) tok = true)
         (split separator text).
Proof.
  unfold separator. rewrite split_plus_cls.
  eapply Forall_impl; [apply (split_plus_cls_clean sepChar text []); reflexivity|].
  intros tok Htok. cbv beta in *. rewrite forallb_forall in *. intros c Hc.
  specialize (Htok c Hc). apply negb_true_iff in Htok.
  apply negb_true_iff. now apply sepChar_isWhiteSpace.
Qed.

(** [trim] changes no piece, so the filter of line 2407 drops the empty
    pieces and no other. *)
Lemma emails_nonempty_pieces (text : jsstring) :
  emails text = filter (fun e => e <> []) (split separator text).
Proof.
  unfold emails. pose proof (split_clean text) as Hc.
  induction Hc as [|tok l Htok _ IH]; [reflexivity|].
  rewrite !filter_cons, IH, (trim_clean tok Htok).
  destruct tok; simpl; repeat case_decide; try reflexivity; try contradiction;
    try congruence; exfalso; auto.
Qed.

Lemma emails_trim (text : jsstring) (e : jsstring) :
  e ∈ emails text -> trim e = e /\ e <> [].
Proof.
  rewrite emails_nonempty_pieces, list_elem_of_filter. intros [Hne Hin].
  split; [|assumption]. apply trim_clean.
  pose proof (split_clean text) as Hc. rewrite Forall_forall in Hc. now apply Hc.
Qed.

Section Results.

Variable unicodeLower : jsstring -> jsstring.
Variable disposableDomains roleBasedEmails : gset jsstring.

Local Abbreviation validation :=
  (validation unicodeLower disposableDomains roleBasedEmails).
Local Abbreviation validateEmails :=
  (validateEmails unicodeLower disposableDomains roleBasedEmails).
Local Abbreviation uniqueEmails := (uniqueEmails unicodeLower).

(** On input that is not blank the handler ends with the result of
    [validation] in [results], no error and [loading] off. *)
Lemma validateEmails_result (st : State) :
  blank (inputText st) = false ->
  validateEmails st =
    {| inputText := inputText st; results := Some (validation (inputText st));
       loading := false; error := "" |}.
Proof.
  intros Hb. unfold validateEmails, EmailValidation.validateEmails,
    validateEmails_timeout, validateEmails_begin. now rewrite Hb.
Qed.

Lemma validation_all (text : jsstring) :
  Permutation (all (validation text)) (uniqueEmails text).
Proof.
  unfold validation, EmailValidation.validation. cbn [lists].
  now rewrite fold_classify_perm.
Qed.

Lemma uniqueEmails_NoDup (text : jsstring) : NoDup (uniqueEmails text).
Proof. apply uniq_NoDup. Qed.

Lemma validation_lists (text : jsstring) :
  let r := validation text in
  valid r = filter (fun e => passes e = true
                     /\ flagged disposableDomains roleBasedEmails e = false)
                   (uniqueEmails text)
  /\ invalid r = filter (fun e => passes e = false) (uniqueEmails text)
  /\ risky r = filter (fun e => passes e = true
                        /\ flagged disposableDomains roleBasedEmails e = true)
                      (uniqueEmails text).
Proof.
  apply (fold_classify_lists disposableDomains roleBasedEmails
           (uniqueEmails text) {| valid := []; invalid := []; risky := [] |}).
Qed.

End Results.

End ValidationFacts.

(** ** The properties of the validator *)

Module ValidatorProperties.
Import JS RegExp JSFacts RegExpFacts EmailValidation ValidationFacts.

Local Open Scope nat_scope.

Section Validator.

Variable unicodeLower : jsstring -> jsstring.
Variable disposableDomains roleBasedEmails : gset jsstring.

Local Abbreviation validation :=
  (validation unicodeLower disposableDomains roleBasedEmails).
Local Abbreviation validateEmails :=
  (validateEmails unicodeLower disposableDomains roleBasedEmails).
Local Abbreviation uniqueEmails := (uniqueEmails unicodeLower).
Local Abbreviation flagged := (flagged disposableDomains roleBasedEmails).

(** C1. For every input text that is not blank, [validateEmails] produces
    a result, and in it the lengths of [valid], [invalid] and [risky]
    plus [duplicates] add up to [total]. *)
Theorem partition_totals (st : State) :
  blank (inputText st) = false ->
  exists r, results (validateEmails st) = Some r
    /\ (Z.of_nat (length (valid r)) + Z.of_nat (length (invalid r))
        + Z.of_nat (length (risky r)) + duplicates r = total r)%Z.
Proof.
  intros Hb. rewrite validateEmails_result by assumption. cbn [results].
  eexists. split; [reflexivity|].
  pose proof (Permutation_length
    (validation_all unicodeLower disposableDomains roleBasedEmails (inputText st)))
    as Hlen.
  unfold all in Hlen. rewrite !length_app in Hlen.
  unfold validation, EmailValidation.validation in *.
  cbn [lists duplicates total] in *. lia.
Qed.

(** C8. For every input text that is not blank, no address of the result
    is in two of the lists [valid], [invalid] and [risky], and none of
    the lists holds an address twice. *)
Theorem mutual_exclusivity (st : State) :
  blank (inputText st) = false ->
  exists r, results (validateEmails st) = Some r
    /\ NoDup (valid r) /\ NoDup (invalid r) /\ NoDup (risky r)
    /\ forall x, ~ (x ∈ valid r /\ x ∈ invalid r)
               /\ ~ (x ∈ valid r /\ x ∈ risky r)
               /\ ~ (x ∈ invalid r /\ x ∈ risky r).
Proof.
  intros Hb. rewrite validateEmails_result by assumption. cbn [results].
  eexists. split; [reflexivity|].
  assert (Hnd : NoDup (all (validation (inputText st)))).
  { rewrite validation_all. apply uniqueEmails_NoDup. }
  unfold all in Hnd.
  apply NoDup_app in Hnd. destruct Hnd as (Hv & Hvx & Hir).
  apply NoDup_app in Hir. destruct Hir as (Hi & Hix & Hr).
  repeat split; try assumption.
  - intros [H1 H2]. apply (Hvx x H1). apply elem_of_app. now left.
  - intros [H1 H2]. apply (Hvx x H1). apply elem_of_app. now right.
  - intros [H1 H2]. now apply (Hix x H1).
Qed.

(** C4, amended. For every input text that is not blank, [total] is the
    number of non-empty pieces the split produces (the empty pieces it
    yields at a leading or trailing separator are dropped before the
    count), and [duplicates] is [total] minus the number of distinct
    pieces left after trimming and lowercasing. *)
Theorem total_counts_nonempty_pieces (st : State) :
  blank (inputText st) = false ->
  exists r, results (validateEmails st) = Some r
    /\ total r =
        Z.of_nat (length (filter (fun e => e <> [])
                            (split separator (inputText st))))
    /\ (duplicates r =
         total r - Z.of_nat (length (uniqueEmails (inputText st))))%Z
    /\ NoDup (uniqueEmails (inputText st))
    /\ forall x, x ∈ uniqueEmails (inputText st) <->
          exists e, e ∈ split separator (inputText st) /\ e <> []
                    /\ x = toLowerCase unicodeLower (trim e).
Proof.
  intros Hb. rewrite validateEmails_result by assumption. cbn [results].
  eexists. split; [reflexivity|].
  unfold validation, EmailValidation.validation. cbn [duplicates total].
  rewrite <- emails_nonempty_pieces.
  split; [reflexivity|]. split; [reflexivity|].
  split; [apply uniqueEmails_NoDup|].
  intros x. unfold uniqueEmails, EmailValidation.uniqueEmails.
  rewrite uniq_elem, list_elem_of_In, in_map_iff. split.
  - intros (e & <- & He). apply list_elem_of_In in He. exists e.
    rewrite emails_nonempty_pieces, list_elem_of_filter in He. tauto.
  - intros (e & He & Hne & ->). exists e. split; [reflexivity|].
    apply list_elem_of_In. rewrite emails_nonempty_pieces, list_elem_of_filter.
    tauto.
Qed.

(** C10, amended. An address that has passed the strict pattern holds an
    at sign, so its split on the at sign has a string at index 0 and a
    string at index 1, the ones the code names [user] and [domain], and
    the two set lookups are made on these two strings: neither ever sees
    [undefined]. *)
Theorem passed_address_splits (email : jsstring) :
  passes email = true ->
  1 <= occurrences (ch "@") email
  /\ exists user domain,
       splitChar (ch "@") email !! 0 = Some user
       /\ splitChar (ch "@") email !! 1 = Some domain
       /\ flagged email =
            bool_decide (domain ∈ disposableDomains)
            || bool_decide (user ∈ roleBasedEmails).
Proof.
  intros Hp. pose proof (passes_has_at email Hp) as Hat.
  split; [assumption|].
  pose proof (splitChar_length (ch "@") email) as Hlen.
  unfold flagged, EmailValidation.flagged.
  destruct (splitChar (ch "@") email) as [|user [|domain rest]];
    cbn [length] in Hlen; try lia.
  exists user, domain. auto.
Qed.

(** C3, amended. An address with more than one at sign fails the strict
    pattern and is put in [invalid], never in [valid] or [risky], unless
    it has a quoted local part as the pattern admits it (a double quote,
    one or more code units other than line terminators, a double quote,
    an at sign and a domain); those addresses, and only those, pass. *)
Theorem multi_at_invalid_unless_quoted (text email : jsstring) :
  email ∈ uniqueEmails text ->
  1 < occurrences (ch "@") email ->
  (passes email = true <-> quotedAddress email)
  /\ (~ quotedAddress email ->
        passes email = false
        /\ (email ∈ invalid (validation text))
        /\ (email ∉ valid (validation text))
        /\ (email ∉ risky (validation text)))
  /\ (quotedAddress email -> email ∉ invalid (validation text)).
Proof.
  intros Hin Hat.
  assert (Hiff : passes email = true <-> quotedAddress email).
  { split; [|apply quotedAddress_passes].
    intros Hp. now apply passes_multi_at_quoted. }
  destruct (validation_lists unicodeLower disposableDomains roleBasedEmails text)
    as (Hv & Hi & Hr).
  rewrite Hv, Hi, Hr, !list_elem_of_filter.
  split; [exact Hiff|]. split.
  - intros Hq.
    assert (Hp : passes email = false).
    { destruct (passes email) eqn:Hp; [|reflexivity].
      exfalso. apply Hq, Hiff. reflexivity. }
    split; [assumption|]. split; [auto|].
    split; intros [[H _] _]; congruence.
  - intros Hq [Hp _]. apply Hiff in Hq. congruence.
Qed.

(** X21. An address that passes the strict pattern and does not open with a
    double quote has one at sign; for it the two lookups of the loop are
    made on the local part and the domain, and the loop puts it in [risky]
    exactly when one of the two is in its set. *)
Lemma unquoted_address_classified (text email : jsstring) :
  email ∈ uniqueEmails text ->
  passes email = true ->
  head email <> Some quote ->
  exists user domain,
    email = user ++ ch "@" :: domain
    /\ splitAtLast email = Some (user, domain)
    /\ (email ∈ risky (validation text)
         <-> domain ∈ disposableDomains \/ user ∈ roleBasedEmails)
    /\ (email ∈ valid (validation text)
         <-> ~ (domain ∈ disposableDomains \/ user ∈ roleBasedEmails)).
Proof.
  intros Hin Hp Hq.
  pose proof (passes_unquoted_one_at email Hp Hq) as Hone.
  destruct (splitChar_one _ _ Hone) as (user & domain & Heq & Hsplit).
  exists user, domain. split; [assumption|].
  split; [unfold splitAtLast; now rewrite Hsplit|].
  destruct (validation_lists unicodeLower disposableDomains roleBasedEmails text)
    as (Hv & _ & Hr).
  rewrite Hv, Hr, !list_elem_of_filter.
  unfold flagged, EmailValidation.flagged. rewrite Hsplit. cbn [lookup list_lookup has].
  rewrite orb_false_iff, orb_true_iff, !bool_decide_eq_true, !bool_decide_eq_false.
  tauto.
Qed.

End Validator.

(** C1 at the input of the spec's fourth test. *)
Lemma partition_totals_witness :
  blank (js "A@B.com, a@b.com") = false
  /\ exists r,
      results (validateEmails asciiOnly specDisposableDomains
                 specRoleBasedEmails (typed (js "A@B.com, a@b.com"))) = Some r
      /\ (Z.of_nat (length (valid r)) + Z.of_nat (length (invalid r))
          + Z.of_nat (length (risky r)) + duplicates r = total r)%Z.
Proof.
  split; [reflexivity|].
  apply (partition_totals asciiOnly specDisposableDomains specRoleBasedEmails
           (typed (js "A@B.com, a@b.com"))).
  reflexivity.
Defined.

(** C8 at a list with a repeated address and one address of each kind. *)
Lemma mutual_exclusivity_witness :
  blank (js "x@mailinator.com, good@example.com bad good@example.com") = false
  /\ exists r,
      results (validateEmails asciiOnly specDisposableDomains
                 specRoleBasedEmails
                 (typed (js "x@mailinator.com, good@example.com bad good@example.com")))
        = Some r
      /\ NoDup (valid r) /\ NoDup (invalid r) /\ NoDup (risky r)
      /\ forall x, ~ (x ∈ valid r /\ x ∈ invalid r)
                 /\ ~ (x ∈ valid r /\ x ∈ risky r)
                 /\ ~ (x ∈ invalid r /\ x ∈ risky r).
Proof.
  split; [reflexivity|].
  apply (mutual_exclusivity asciiOnly specDisposableDomains specRoleBasedEmails
           (typed (js "x@mailinator.com, good@example.com bad good@example.com"))).
  reflexivity.
Defined.

(** C4 as stated fails on a text that opens with a separator: the split
    of [" a"] has two pieces, the empty one and ["a"], and [total] is 1. *)
Lemma total_excludes_empty_pieces :
  blank (js " a") = false
  /\ split separator (js " a") = [[]; js "a"]
  /\ exists r,
      results (validateEmails asciiOnly specDisposableDomains
                 specRoleBasedEmails (typed (js " a"))) = Some r
      /\ total r = 1%Z
      /\ total r <> Z.of_nat (length (split separator (js " a"))).
Proof.
  split; [reflexivity|]. split; [reflexivity|].
  eexists. split; [reflexivity|]. split; [reflexivity|].
  vm_compute. discriminate.
Qed.

(** C4, amended, at the same text. *)
Lemma total_counts_nonempty_pieces_witness :
  blank (js " a") = false
  /\ exists r,
      results (validateEmails asciiOnly specDisposableDomains
                 specRoleBasedEmails (typed (js " a"))) = Some r
      /\ total r =
          Z.of_nat (length (filter (fun e => e <> [])
                              (split separator (js " a"))))
      /\ (duplicates r =
           total r - Z.of_nat (length (uniqueEmails asciiOnly (js " a"))))%Z
      /\ NoDup (uniqueEmails asciiOnly (js " a"))
      /\ forall x, x ∈ uniqueEmails asciiOnly (js " a") <->
            exists e, e ∈ split separator (js " a") /\ e <> []
                      /\ x = toLowerCase asciiOnly (trim e).
Proof.
  split; [reflexivity|].
  apply (total_counts_nonempty_pieces asciiOnly specDisposableDomains
           specRoleBasedEmails (typed (js " a"))).
  reflexivity.
Defined.

(** C10 as stated fails on an address with a quoted local part that
    holds an at sign: the address passes the strict pattern, and the
    pieces at index 0 and 1 of its split are not its local part and its
    domain, which lie before and after its last at sign. *)
Lemma quoted_split_not_domain :
  passes (quoted "a@b" "x.com") = true
  /\ splitChar (ch "@") (quoted "a@b" "x.com") !! 0 = Some (quote :: js "a")
  /\ splitChar (ch "@") (quoted "a@b" "x.com") !! 1 = Some (js "b" ++ [quote])
  /\ splitAtLast (quoted "a@b" "x.com")
       = Some (quote :: js "a@b" ++ [quote], js "x.com")
  /\ quote :: js "a" <> quote :: js "a@b" ++ [quote]
  /\ js "b" ++ [quote] <> js "x.com".
Proof.
  split; [reflexivity|]. split; [reflexivity|]. split; [reflexivity|].
  split; [reflexivity|]. split; vm_compute; discriminate.
Qed.

(** C10, amended, at an ordinary address. *)
Lemma passed_address_splits_witness :
  passes (js "good@example.com") = true
  /\ 1 <= occurrences (ch "@") (js "good@example.com")
  /\ exists user domain,
       splitChar (ch "@") (js "good@example.com") !! 0 = Some user
       /\ splitChar (ch "@") (js "good@example.com") !! 1 = Some domain
       /\ flagged specDisposableDomains specRoleBasedEmails
            (js "good@example.com") =
            bool_decide (domain ∈ specDisposableDomains)
            || bool_decide (user ∈ specRoleBasedEmails).
Proof.
  split; [reflexivity|].
  apply (passed_address_splits specDisposableDomains specRoleBasedEmails
           (js "good@example.com")).
  reflexivity.
Defined.

(** C3 as stated fails on an address with a quoted local part: it holds
    two at signs, passes the strict pattern and is put in [valid]. *)
Lemma quoted_multi_at_passes :
  1 < occurrences (ch "@") (quoted "a@b" "example.com")
  /\ quoted "a@b" "example.com"
       ∈ uniqueEmails asciiOnly (quoted "a@b" "example.com")
  /\ passes (quoted "a@b" "example.com") = true
  /\ valid (validation asciiOnly specDisposableDomains specRoleBasedEmails
              (quoted "a@b" "example.com")) = [quoted "a@b" "example.com"]
  /\ invalid (validation asciiOnly specDisposableDomains specRoleBasedEmails
                (quoted "a@b" "example.com")) = [].
Proof.
  split; [vm_compute; lia|]. split; [|split; [|split]]; try reflexivity.
  vm_compute. apply list_elem_of_here.
Qed.

(** C3, amended, at an address that opens with a double quote which is
    never closed: it has two at signs, no quoted local part, and is put
    in [invalid]. *)
Lemma multi_at_invalid_unless_quoted_witness :
  quote :: js "a@b@c.com"
    ∈ uniqueEmails asciiOnly (js "x@y.org, " ++ quote :: js "a@b@c.com")
  /\ 1 < occurrences (ch "@") (quote :: js "a@b@c.com")
  /\ ~ quotedAddress (quote :: js "a@b@c.com")
  /\ (passes (quote :: js "a@b@c.com") = true
      <-> quotedAddress (quote :: js "a@b@c.com"))
  /\ (~ quotedAddress (quote :: js "a@b@c.com") ->
      passes (quote :: js "a@b@c.com") = false
      /\ (quote :: js "a@b@c.com"
            ∈ invalid (validation asciiOnly specDisposableDomains
                         specRoleBasedEmails
                         (js "x@y.org, " ++ quote :: js "a@b@c.com")))
      /\ (quote :: js "a@b@c.com"
            ∉ valid (validation asciiOnly specDisposableDomains
                       specRoleBasedEmails
                       (js "x@y.org, " ++ quote :: js "a@b@c.com")))
      /\ (quote :: js "a@b@c.com"
            ∉ risky (validation asciiOnly specDisposableDomains
                       specRoleBasedEmails
                       (js "x@y.org, " ++ quote :: js "a@b@c.com"))))
  /\ (quotedAddress (quote :: js "a@b@c.com") ->
      quote :: js "a@b@c.com"
        ∉ invalid (validation asciiOnly specDisposableDomains
                     specRoleBasedEmails
                     (js "x@y.org, " ++ quote :: js "a@b@c.com"))).
Proof.
  split; [vm_compute; apply list_elem_of_further, list_elem_of_here|].
  split; [vm_compute; lia|].
  split.
  { intros (w & d & Heq & _). injection Heq as Heq.
    assert (Hq : quote ∈ js "a@b@c.com").
    { rewrite Heq. apply elem_of_app. right. apply list_elem_of_here. }
    revert Hq. refine (bool_decide_unpack _ _). vm_compute. exact I. }
  apply (multi_at_invalid_unless_quoted asciiOnly specDisposableDomains
           specRoleBasedEmails (js "x@y.org, " ++ quote :: js "a@b@c.com")
           (quote :: js "a@b@c.com")).
  - vm_compute. apply list_elem_of_further, list_elem_of_here.
  - vm_compute. lia.
Defined.

(** C2 fails on an address with a quoted local part that holds an at
    sign: the address passes the strict pattern, its domain after the
    last at sign is a disposable domain, and the loop puts it in [valid]
    because it looks up the piece between the first two at signs. *)
Lemma quoted_disposable_not_risky :
  passes (quoted "a@b" "mailinator.com") = true
  /\ quoted "a@b" "mailinator.com"
       ∈ uniqueEmails asciiOnly (quoted "a@b" "mailinator.com")
  /\ splitAtLast (quoted "a@b" "mailinator.com")
       = Some (quote :: js "a@b" ++ [quote], js "mailinator.com")
  /\ js "mailinator.com" ∈ specDisposableDomains
  /\ splitChar (ch "@") (quoted "a@b" "mailinator.com") !! 1
       = Some (js "b" ++ [quote])
  /\ risky (validation asciiOnly specDisposableDomains specRoleBasedEmails
              (quoted "a@b" "mailinator.com")) = []
  /\ valid (validation asciiOnly specDisposableDomains specRoleBasedEmails
              (quoted "a@b" "mailinator.com"))
       = [quoted "a@b" "mailinator.com"].
Proof.
  split; [reflexivity|]. split; [vm_compute; apply list_elem_of_here|].
  split; [reflexivity|]. split; [apply elem_of_singleton; reflexivity|].
  split; [reflexivity|]. split; reflexivity.
Qed.

(** X21 at a role address typed with capitals. *)
Lemma unquoted_address_classified_witness :
  js "support@example.com"
    ∈ uniqueEmails asciiOnly (js "Support@Example.com, x@y.org")
  /\ passes (js "support@example.com") = true
  /\ head (js "support@example.com") <> Some quote
  /\ exists user domain,
       js "support@example.com" = user ++ ch "@" :: domain
       /\ splitAtLast (js "support@example.com") = Some (user, domain)
       /\ (js "support@example.com"
             ∈ risky (validation asciiOnly specDisposableDomains
                        specRoleBasedEmails
                        (js "Support@Example.com, x@y.org"))
           <-> domain ∈ specDisposableDomains \/ user ∈ specRoleBasedEmails)
       /\ (js "support@example.com"
             ∈ valid (validation asciiOnly specDisposableDomains
                        specRoleBasedEmails
                        (js "Support@Example.com, x@y.org"))
           <-> ~ (domain ∈ specDisposableDomains
                  \/ user ∈ specRoleBasedEmails)).
Proof.
  split; [refine (bool_decide_unpack _ _); vm_compute; exact I|].
  split; [reflexivity|].
  split; [refine (bool_decide_unpack _ _); vm_compute; exact I|].
  apply (unquoted_address_classified asciiOnly specDisposableDomains
           specRoleBasedEmails (js "Support@Example.com, x@y.org")
           (js "support@example.com")).
  - refine (bool_decide_unpack _ _); vm_compute; exact I.
  - reflexivity.
  - refine (bool_decide_unpack _ _); vm_compute; exact I.
Defined.

End ValidatorProperties.

(** ** The properties of the extractor and of the two tools together *)

Module ExtractorProperties.
Import JS RegExp JSFacts RegExpFacts ExtractorFacts EmailValidation.

Local Open Scope nat_scope.

Section Tools.

Variable unicodeLower : jsstring -> jsstring.
Variable disposableDomains roleBasedEmails : gset jsstring.

Local Abbreviation extractEmails := (EmailExtractor.extractEmails unicodeLower).
Local Abbreviation validateEmails :=
  (validateEmails unicodeLower disposableDomains roleBasedEmails).
Local Abbreviation validation :=
  (validation unicodeLower disposableDomains roleBasedEmails).

(** C7. For every input text, the list [extractEmails] returns holds no
    entry twice, holds lower-case strings only, and is in strictly
    ascending lexicographic order. *)
Theorem extraction_unique_lower_sorted (text : jsstring) :
  NoDup (extractEmails text)
  /\ Forall (isLowerCase unicodeLower) (extractEmails text)
  /\ StronglySorted lexLt (extractEmails text).
Proof.
  split; [|split].
  - apply StronglySorted_lexLt_NoDup, extractEmails_sorted.
  - apply Forall_forall. intros e He.
    now apply (extractEmails_element unicodeLower text e).
  - apply extractEmails_sorted.
Qed.

(** C6. Extraction is idempotent: for every input text, extracting from
    the lines of an extraction's output returns that output. *)
Theorem extraction_idempotent (text : jsstring) :
  extractEmails (join [10%N] (extractEmails text)) = extractEmails text.
Proof.
  apply extractEmails_join.
  - apply Forall_forall. intros e He.
    now apply (extractEmails_element unicodeLower text e).
  - apply extractEmails_sorted.
Qed.

(** C5. On empty or blank text [validateEmails] sets the input-required
    message and leaves [results] and [loading] as they were, so no result
    is produced; [extractEmails] on the empty text returns the empty
    list. *)
Theorem empty_input_guard (st : State) :
  blank (inputText st) = true ->
  validateEmails st =
    {| inputText := inputText st;
       results := results st;
       loading := loading st;
       error := inputRequired |}
  /\ extractEmails (js "") = []
  /\ forall old label,
       EmailExtractor.extractedEmails
         (EmailExtractor.handleExtract unicodeLower
            {| EmailExtractor.inputText := js "";
               EmailExtractor.extractedEmails := old;
               EmailExtractor.copyButtonText := label |}) = [].
Proof.
  intros Hb. split; [|split; [reflexivity | reflexivity]].
  unfold validateEmails, validateEmails,
    validateEmails_begin. now rewrite Hb.
Qed.

(** C9. The two patterns differ: the extractor finds an address whose
    domain holds an underscore, and one whose domain holds two dots in a
    row, and the validator, given the same address as its whole input,
    puts it in [invalid]. *)
Theorem patterns_diverge :
  (In (js "a@b_c.com") (extractEmails (js "a@b_c.com"))
   /\ results
        (validateEmails (typed (js "a@b_c.com")))
      = Some (validation (js "a@b_c.com"))
   /\ invalid (validation (js "a@b_c.com")) = [js "a@b_c.com"]
   /\ valid (validation (js "a@b_c.com")) = []
   /\ risky (validation (js "a@b_c.com")) = [])
  /\
  (In (js "a@b..com") (extractEmails (js "a@b..com"))
   /\ results
        (validateEmails (typed (js "a@b..com")))
      = Some (validation (js "a@b..com"))
   /\ invalid (validation (js "a@b..com")) = [js "a@b..com"]
   /\ valid (validation (js "a@b..com")) = []
   /\ risky (validation (js "a@b..com")) = []).
Proof.
  split; (split; [vm_compute; now left|]); repeat split; reflexivity.
Qed.

End Tools.

(** C5 at the blank text of the spec: three spaces, a line feed, a
    space. *)
Lemma empty_input_guard_witness :
  blank (js "   " ++ [10%N] ++ js " ") = true
  /\ validateEmails asciiOnly specDisposableDomains specRoleBasedEmails
       (typed (js "   " ++ [10%N] ++ js " "))
     = {| inputText := js "   " ++ [10%N] ++ js " ";
          results := None;
          loading := false;
          error := inputRequired |}
  /\ EmailExtractor.extractEmails asciiOnly (js "") = []
  /\ forall old label,
       EmailExtractor.extractedEmails
         (EmailExtractor.handleExtract asciiOnly
            {| EmailExtractor.inputText := js "";
               EmailExtractor.extractedEmails := old;
               EmailExtractor.copyButtonText := label |}) = [].
Proof.
  split; [reflexivity|].
  apply (empty_input_guard asciiOnly specDisposableDomains specRoleBasedEmails
           (typed (js "   " ++ [10%N] ++ js " "))).
  reflexivity.
Defined.

End ExtractorProperties.

(** ** The worked examples of the spec, run on the embedding *)

Module Examples.
Import JS RegExp EmailValidation.

Local Abbreviation validate :=
  (validation asciiOnly specDisposableDomains specRoleBasedEmails).
Local Abbreviation extract := (EmailExtractor.extractEmails asciiOnly).

Example case_insensitive_dedup :
  total (validate (js "A@B.com, a@b.com")) = 2%Z
  /\ duplicates (validate (js "A@B.com, a@b.com")) = 1%Z
  /\ all (validate (js "A@B.com, a@b.com")) = [js "a@b.com"].
Proof. repeat split. Qed.

Example disposable_is_risky :
  risky (validate (js "x@mailinator.com")) = [js "x@mailinator.com"]
  /\ valid (validate (js "x@mailinator.com")) = [].
Proof. split; reflexivity. Qed.

Example role_is_risky :
  risky (validate (js "admin@company.com")) = [js "admin@company.com"].
Proof. reflexivity. Qed.

Example syntax_rejection :
  invalid (validate (js "not-an-email")) = [js "not-an-email"]
  /\ valid (validate (js "good@example.com")) = [js "good@example.com"].
Proof. split; reflexivity. Qed.

Example subdomain_not_disposable :
  valid (validate (js "x@sub.mailinator.com")) = [js "x@sub.mailinator.com"].
Proof. reflexivity. Qed.

Example extraction_recall :
  extract (js "contact us at Jane@Example.COM or jane@example.com!")
  = [js "jane@example.com"].
Proof. reflexivity. Qed.

Example extraction_sorts :
  extract (js "zed@x.org, Bob@y.org; amy@z.org")
  = [js "amy@z.org"; js "bob@y.org"; js "zed@x.org"].
Proof. reflexivity. Qed.

Example split_keeps_empty_ends :
  split separator (js " a, b ") = [[]; js "a"; js "b"; []].
Proof. reflexivity. Qed.

End Examples.

(** ** Facts about the further built-ins *)

Module JSMoreFacts.
Import JS JSMore JSFacts.

Local Open Scope nat_scope.

Lemma indexOf_app (c : N) (a b : jsstring) :
  Forall (fun d => d <> c) a ->
  indexOf c (a ++ c :: b) = Z.of_nat (length a).
Proof.
  induction 1 as [|d a Hd _ IH]; simpl.
  - now rewrite N.eqb_refl.
  - apply N.eqb_neq in Hd. rewrite Hd, IH.
    destruct (Z.ltb_spec (Z.of_nat (length a)) 0); lia.
Qed.

Lemma indexOf_none (c : N) (s : jsstring) :
  Forall (fun d => d <> c) s -> indexOf c s = (-1)%Z.
Proof.
  induction 1 as [|d a Hd _ IH]; simpl; [reflexivity|].
  apply N.eqb_neq in Hd. now rewrite Hd, IH.
Qed.

Lemma indexOf_range (c : N) (s : jsstring) :
  (-1 <= indexOf c s < Z.of_nat (length s))%Z.
Proof.
  induction s as [|d s IH]; simpl; [lia|].
  destruct (d =? c)%N; [lia|].
  destruct (Z.ltb_spec (indexOf c s) 0); lia.
Qed.

(** The middle of three pieces, cut out by its two ends. *)
Lemma substring_middle (a m b : jsstring) :
  substring (a ++ m ++ b) (Z.of_nat (length a))
            (Z.of_nat (length a + length m)) = m.
Proof.
  unfold substring, clamp. rewrite !length_app.
  replace (Z.to_nat (Z.min (Z.max (Z.of_nat (length a)) 0)
             (Z.of_nat (length a + (length m + length b)))))
    with (length a) by lia.
  replace (Z.to_nat (Z.min (Z.max (Z.of_nat (length a + length m)) 0)
             (Z.of_nat (length a + (length m + length b)))))
    with (length a + length m) by lia.
  replace (Nat.min (length a) (length a + length m)) with (length a) by lia.
  replace (Nat.max (length a) (length a + length m) - length a)
    with (length m) by lia.
  now rewrite drop_app_length, take_app_length.
Qed.

(** With a negative second argument the arguments are swapped: the result
    is the start of the string. *)
Lemma substring_negative (s : jsstring) (i j : Z) :
  (j < 0)%Z -> substring s i j = take (Z.to_nat i) s.
Proof.
  intros Hj. unfold substring, clamp.
  replace (Z.to_nat (Z.min (Z.max j 0) (Z.of_nat (length s)))) with 0 by lia.
  rewrite Nat.min_0_r, Nat.max_0_r, Nat.sub_0_r. cbn [drop].
  destruct (Z.le_gt_cases i (Z.of_nat (length s))).
  - f_equal. lia.
  - rewrite (take_ge s (Z.to_nat i)) by lia.
    apply take_ge. lia.
Qed.

Lemma splitChar_app (sep : N) (a b : jsstring) :
  Forall (fun d => d <> sep) a ->
  splitChar sep (a ++ sep :: b) = a :: splitChar sep b.
Proof.
  induction 1 as [|d a Hd _ IH]; simpl.
  - now rewrite N.eqb_refl.
  - apply N.eqb_neq in Hd. now rewrite Hd, IH.
Qed.

Lemma splitChar_clean (sep : N) (s : jsstring) :
  Forall (fun d => d <> sep) s -> splitChar sep s = [s].
Proof.
  intros H. apply splitChar_none, occurrences_none, H.
Qed.

(** A closed decidable statement, settled by evaluation. *)
Ltac closed_decide := refine (bool_decide_unpack _ _); vm_compute; exact I.

End JSMoreFacts.

(** ** The properties of the image studio *)

Module ImageStudioProperties.
Import JS JSMore JSFacts JSMoreFacts ImageStudio.

Local Open Scope Z_scope.


(** X1. What the studio writes, [dataUrlToParts] reads back: for a MIME type
    without comma or semicolon and data without comma, the parts of
    [data:<mime>;base64,<data>] are the data and the MIME type. *)
Theorem dataUrl_round_trip (mime payload : jsstring) :
  Forall (fun c => c <> ch "," /\ c <> ch ";") mime ->
  Forall (fun c => c <> ch ",") payload ->
  dataUrlToParts (imageUrl mime payload)
  = {| data := Some payload; mimeType := mime |}.
Proof.
  intros Hm Hp.
  assert (Hcomma : Forall (fun c => c <> ch ",") mime).
  { eapply Forall_impl; [exact Hm|]. now intros c [Hc _]. }
  assert (Hsemi : Forall (fun c => c <> ch ";") mime).
  { eapply Forall_impl; [exact Hm|]. now intros c [_ Hc]. }
  set (meta := js "data:" ++ mime ++ js ";base64").
  assert (Hurl : imageUrl mime payload = meta ++ ch "," :: payload).
  { unfold imageUrl, meta.
    change (js ";base64,") with (js ";base64" ++ [ch ","]).
    now rewrite <- !app_assoc. }
  assert (Hmeta : Forall (fun c => c <> ch ",") meta).
  { unfold meta. rewrite !Forall_app. repeat split; try assumption;
      closed_decide. }
  assert (Hcolon : indexOf (ch ":") meta = 4).
  { unfold meta. change (js "data:") with (js "data" ++ [ch ":"]).
    rewrite <- app_assoc. cbn [app].
    rewrite indexOf_app; [reflexivity|].
    closed_decide. }
  assert (Hsc : indexOf (ch ";") meta
                = Z.of_nat (length (js "data:") + length mime)).
  { unfold meta. change (js ";base64") with (ch ";" :: js "base64").
    rewrite app_assoc, indexOf_app; [now rewrite length_app|].
    rewrite Forall_app. split; [|assumption].
    closed_decide. }
  unfold dataUrlToParts. rewrite Hurl, splitChar_app by assumption.
  rewrite splitChar_clean by assumption. cbn [head].
  rewrite Hcolon, Hsc. f_equal.
  apply (substring_middle (js "data:") mime (js ";base64")).
Qed.

(** X2. A data URL whose part before the first comma holds no semicolon does
    not give its MIME type: [mimeType] is that part up to and with its
    first colon, and empty when it holds no colon either. *)
Theorem dataUrl_without_semicolon (meta payload : jsstring) :
  Forall (fun c => c <> ch "," /\ c <> ch ";") meta ->
  mimeType (dataUrlToParts (meta ++ ch "," :: payload))
  = take (Z.to_nat (indexOf (ch ":") meta + 1)) meta.
Proof.
  intros Hm.
  assert (Hcomma : Forall (fun c => c <> ch ",") meta).
  { eapply Forall_impl; [exact Hm|]. now intros c [Hc _]. }
  assert (Hsemi : Forall (fun c => c <> ch ";") meta).
  { eapply Forall_impl; [exact Hm|]. now intros c [_ Hc]. }
  unfold dataUrlToParts. rewrite splitChar_app by assumption. cbn [mimeType].
  rewrite (indexOf_none _ _ Hsemi). now apply substring_negative.
Qed.

(** *** The history *)

Lemma step_wellFormed (st st' : State) :
  wellFormed st -> step st st' -> wellFormed st'.
Proof.
  intros Hwf Hstep. unfold wellFormed in *.
  destruct Hstep as [result st|st|st|index st Hi|text st|st|o held st]; cbn.
  - right. cbn. lia.
  - unfold clickUndo.
    destruct (Z.leb_spec (currentIndex st) 0), (loading st); cbn; try assumption.
    right. lia.
  - unfold clickRedo.
    destruct (Z.geb_spec (currentIndex st) (Z.of_nat (length (history st)) - 1)),
      (loading st); cbn; try assumption.
    right. lia.
  - unfold clickThumbnail. destruct (loading st); cbn; [assumption|].
    right. lia.
  - assumption.
  - unfold handleGenerate_begin.
    destruct (isEmpty (prompt st) || (currentIndex st <? 0)); assumption.
  - unfold handleGenerate_end.
    destruct o as [[[mime payload]|] text|message]; cbn; try assumption.
    right. rewrite length_app. cbn. lia.
Qed.

(** A run with nothing in between is its start followed by its end. *)
Lemma handleGenerate_run (o : Outcome) (st : State) :
  handleGenerate o st
  = if isEmpty (prompt st) || (currentIndex st <? 0)
    then handleGenerate_begin st
    else handleGenerate_end o st (handleGenerate_begin st).
Proof.
  unfold handleGenerate, handleGenerate_begin, handleGenerate_end.
  destruct (isEmpty (prompt st) || (currentIndex st <? 0)); [reflexivity|].
  now destruct o as [[[mime payload]|] text|message].
Qed.

(** X3. Whatever the user does, the index is -1 on an empty history and an
    index of the history otherwise, so that an image is on display as
    soon as the history holds one. *)
Theorem history_index_in_range (st : State) :
  reachable st ->
  wellFormed st /\ (history st <> [] -> is_Some (shown st)).
Proof.
  intros Hr.
  assert (Hwf : wellFormed st).
  { induction Hr as [|st st' _ IH Hstep].
    - left. auto.
    - now apply (step_wellFormed st). }
  split; [assumption|]. intros Hne. unfold shown.
  destruct Hwf as [[Hnil _]|Hrange]; [contradiction|].
  destruct (Z.ltb_spec (currentIndex st) 0); [lia|].
  apply lookup_lt_is_Some. lia.
Qed.

(** X4. Undo and Redo undo each other wherever both can fire. *)
Theorem undo_redo_inverse (st : State) :
  wellFormed st -> loading st = false ->
  (0 < currentIndex st -> clickRedo (clickUndo st) = st)
  /\ (0 <= currentIndex st < Z.of_nat (length (history st)) - 1 ->
      clickUndo (clickRedo st) = st).
Proof.
  intros Hwf Hl. destruct st as [h i p l e].
  unfold wellFormed in Hwf. cbn in *. subst l.
  destruct Hwf as [[-> ->]|Hrange]; cbn in *.
  - split; intros; lia.
  - split; intros Hi.
    + unfold clickUndo. cbn.
      destruct (Z.leb_spec i 0); [lia|]. cbn. unfold clickRedo. cbn.
      destruct (Z.geb_spec (Z.max 0 (i - 1)) (Z.of_nat (length h) - 1)); [lia|].
      cbn. f_equal. lia.
    + unfold clickRedo. cbn.
      destruct (Z.geb_spec i (Z.of_nat (length h) - 1)); [lia|]. cbn.
      unfold clickUndo. cbn.
      destruct (Z.leb_spec (Z.min (Z.of_nat (length h) - 1) (i + 1)) 0); [lia|].
      cbn. f_equal. lia.
Qed.

(** X5. A generated image is put right after the image on display and is
    shown; the images up to the one that was on display stay, the ones
    after it (what Redo could reach) are dropped, and Redo has nothing
    left to do. *)
Theorem generate_branches_history (st : State) (mime payload : jsstring)
    (text : option jsstring) :
  wellFormed st -> prompt st <> [] -> 0 <= currentIndex st ->
  let st' := handleGenerate (Responded (Some (mime, payload)) text) st in
  history st'
    = take (Z.to_nat (currentIndex st) + 1) (history st)
      ++ [imageUrl mime payload]
  /\ currentIndex st' = currentIndex st + 1
  /\ shown st' = Some (imageUrl mime payload)
  /\ clickRedo st' = st'
  /\ loading st' = false /\ error st' = [].
Proof.
  intros Hwf Hp Hi. destruct st as [h i p l e].
  unfold wellFormed in Hwf. cbn [history currentIndex prompt] in *.
  destruct Hwf as [[-> ->]|Hrange]; [lia|].
  unfold handleGenerate. cbn [history currentIndex prompt loading error].
  set (u := imageUrl mime payload). clearbody u.
  destruct p as [|c p]; [congruence|]. cbn [isEmpty orb].
  destruct (Z.ltb_spec i 0); [lia|].
  assert (Hslice : slice0 h (i + 1) = take (Z.to_nat i + 1) h).
  { unfold slice0. destruct (Z.ltb_spec (i + 1) 0); [lia|]. f_equal. lia. }
  rewrite Hslice.
  assert (Hlen : length (take (Z.to_nat i + 1) h) = (Z.to_nat i + 1)%nat).
  { rewrite length_take. lia. }
  cbv zeta. cbn [history currentIndex prompt loading error].
  split; [reflexivity|]. split.
  { rewrite length_app, Hlen. cbn [length]. lia. }
  split.
  { unfold shown. cbn [history currentIndex].
    rewrite length_app, Hlen. cbn [length].
    destruct (Z.ltb_spec (Z.of_nat (Z.to_nat i + 1 + 1) - 1) 0); [lia|].
    replace (Z.to_nat (Z.of_nat (Z.to_nat i + 1 + 1) - 1))
      with (length (take (Z.to_nat i + 1) h)) by lia.
    now rewrite list_lookup_middle. }
  split; [|split; reflexivity].
  unfold clickRedo. cbn [history currentIndex loading].
  destruct (Z.geb_spec (Z.of_nat (length (take (Z.to_nat i + 1) h ++ [u])) - 1)
              (Z.of_nat (length (take (Z.to_nat i + 1) h ++ [u])) - 1));
    [reflexivity | lia].
Qed.

(** X1 at a PNG type and a short base64 payload. *)
Lemma dataUrl_round_trip_witness :
  Forall (fun c => c <> ch "," /\ c <> ch ";") (js "image/png")
  /\ Forall (fun c => c <> ch ",") (js "aGVsbG8=")
  /\ dataUrlToParts (imageUrl (js "image/png") (js "aGVsbG8="))
     = {| data := Some (js "aGVsbG8="); mimeType := js "image/png" |}.
Proof.
  split; [closed_decide|]. split; [closed_decide|].
  apply (dataUrl_round_trip (js "image/png") (js "aGVsbG8=")); closed_decide.
Defined.

(** X2 at a data URL without the base64 marker. *)
Lemma dataUrl_without_semicolon_witness :
  Forall (fun c => c <> ch "," /\ c <> ch ";") (js "data:text/plain")
  /\ mimeType (dataUrlToParts (js "data:text/plain" ++ ch "," :: js "hello"))
     = js "data:".
Proof.
  split; [closed_decide|].
  apply (dataUrl_without_semicolon (js "data:text/plain") (js "hello")).
  closed_decide.
Defined.

(** X3 at the state after a file read, a prompt and one generated image. *)
Lemma history_index_in_range_witness :
  reachable
    (handleGenerate (Responded (Some (js "image/png", js "QUJD")) None)
       {| history := [js "data:image/png;base64,AAAA"]; currentIndex := 0;
          prompt := js "bluer"; loading := false; error := [] |})
  /\ wellFormed
       (handleGenerate (Responded (Some (js "image/png", js "QUJD")) None)
          {| history := [js "data:image/png;base64,AAAA"]; currentIndex := 0;
             prompt := js "bluer"; loading := false; error := [] |})
  /\ (history
        (handleGenerate (Responded (Some (js "image/png", js "QUJD")) None)
           {| history := [js "data:image/png;base64,AAAA"]; currentIndex := 0;
              prompt := js "bluer"; loading := false; error := [] |}) <> []
      -> is_Some
           (shown
              (handleGenerate (Responded (Some (js "image/png", js "QUJD")) None)
                 {| history := [js "data:image/png;base64,AAAA"];
                    currentIndex := 0; prompt := js "bluer"; loading := false;
                    error := [] |}))).
Proof.
  assert (Hr : reachable
    (handleGenerate (Responded (Some (js "image/png", js "QUJD")) None)
       {| history := [js "data:image/png;base64,AAAA"]; currentIndex := 0;
          prompt := js "bluer"; loading := false; error := [] |})).
  { exact (reachable_step _ _
             (reachable_step _ _
                (reachable_step _ _
                   (reachable_step _ _ reachable_initial
                      (step_file (js "data:image/png;base64,AAAA") initial))
                   (step_prompt (js "bluer")
                      (fileLoaded (js "data:image/png;base64,AAAA") initial)))
                (step_generate_begin
                   {| history := [js "data:image/png;base64,AAAA"];
                      currentIndex := 0; prompt := js "bluer";
                      loading := false; error := [] |}))
             (step_generate_end
                (Responded (Some (js "image/png", js "QUJD")) None)
                {| history := [js "data:image/png;base64,AAAA"];
                   currentIndex := 0; prompt := js "bluer";
                   loading := false; error := [] |}
                (handleGenerate_begin
                   {| history := [js "data:image/png;base64,AAAA"];
                      currentIndex := 0; prompt := js "bluer";
                      loading := false; error := [] |}))). }
  split; [exact Hr|]. exact (history_index_in_range _ Hr).
Defined.

(** X4 at a history of three images with the second on display. *)
Lemma undo_redo_inverse_witness :
  wellFormed {| history := [js "a"; js "b"; js "c"]; currentIndex := 1;
                prompt := []; loading := false; error := [] |}
  /\ (0 < 1 ->
      clickRedo
        (clickUndo {| history := [js "a"; js "b"; js "c"]; currentIndex := 1;
                      prompt := []; loading := false; error := [] |})
      = {| history := [js "a"; js "b"; js "c"]; currentIndex := 1;
           prompt := []; loading := false; error := [] |})
  /\ (0 <= 1 < 3 - 1 ->
      clickUndo
        (clickRedo {| history := [js "a"; js "b"; js "c"]; currentIndex := 1;
                      prompt := []; loading := false; error := [] |})
      = {| history := [js "a"; js "b"; js "c"]; currentIndex := 1;
           prompt := []; loading := false; error := [] |}).
Proof.
  split; [right; cbn [history currentIndex length]; lia|].
  apply (undo_redo_inverse
           {| history := [js "a"; js "b"; js "c"]; currentIndex := 1;
              prompt := []; loading := false; error := [] |}).
  - right; cbn [history currentIndex length]; lia.
  - reflexivity.
Defined.

(** X5 at a history of three images with the second on display. *)
Lemma generate_branches_history_witness :
  wellFormed {| history := [js "a"; js "b"; js "c"]; currentIndex := 1;
                prompt := js "bluer"; loading := false; error := [] |}
  /\ (let st' :=
        handleGenerate (Responded (Some (js "image/png", js "QUJD")) None)
          {| history := [js "a"; js "b"; js "c"]; currentIndex := 1;
             prompt := js "bluer"; loading := false; error := [] |} in
      history st' = [js "a"; js "b"] ++ [imageUrl (js "image/png") (js "QUJD")]
      /\ currentIndex st' = 1 + 1
      /\ shown st' = Some (imageUrl (js "image/png") (js "QUJD"))
      /\ clickRedo st' = st'
      /\ loading st' = false /\ error st' = []).
Proof.
  split; [right; cbn [history currentIndex length]; lia|].
  apply (generate_branches_history
           {| history := [js "a"; js "b"; js "c"]; currentIndex := 1;
              prompt := js "bluer"; loading := false; error := [] |}
           (js "image/png") (js "QUJD") None).
  - right; cbn [history currentIndex length]; lia.
  - discriminate.
  - cbn [currentIndex]; lia.
Defined.

End ImageStudioProperties.

(** ** Facts about the campaigns and the contact lists *)

Module MarketingFacts.
Import JS JSMore JSFacts JSMoreFacts EmailMarketing.

Local Open Scope nat_scope.

Section Campaigns.

Variable Stats : Type.

Local Abbreviation campaign := (Campaign.t Stats).

(** The updater replaces the first campaign of the same id, or appends. *)
Lemma saveInto_nil (c : campaign) : saveInto Stats c [] = [c].
Proof. reflexivity. Qed.

Lemma saveInto_cons (c x : campaign) (l : list campaign) :
  saveInto Stats c (x :: l) =
    if bool_decide (Campaign.id x = Campaign.id c) then c :: l
    else x :: saveInto Stats c l.
Proof.
  unfold saveInto. cbn [findIndex].
  destruct (bool_decide (Campaign.id x = Campaign.id c)); [reflexivity|].
  set (i := findIndex _ l).
  destruct (Z.ltb_spec i 0) as [Hneg|Hpos].
  - replace (i >? -1)%Z with false by lia. reflexivity.
  - replace (i + 1 >? -1)%Z with true by lia.
    replace (i >? -1)%Z with true by lia.
    replace (Z.to_nat (i + 1)) with (S (Z.to_nat i)) by lia. reflexivity.
Qed.

Lemma findCampaign_cons (id : jsstring) (x : campaign) (l : list campaign) :
  findCampaign Stats id (x :: l) =
    if bool_decide (Campaign.id x = id) then Some x
    else findCampaign Stats id l.
Proof. reflexivity. Qed.

Lemma findCampaign_saveInto (c : campaign) (l : list campaign) :
  findCampaign Stats (Campaign.id c) (saveInto Stats c l) = Some c.
Proof.
  induction l as [|x l IH].
  - rewrite saveInto_nil, findCampaign_cons.
    now rewrite bool_decide_eq_true_2.
  - rewrite saveInto_cons. case_bool_decide as Hx.
    + rewrite findCampaign_cons. now rewrite bool_decide_eq_true_2.
    + rewrite findCampaign_cons. now rewrite bool_decide_eq_false_2.
Qed.

Lemma findCampaign_saveInto_other (id : jsstring) (c : campaign)
    (l : list campaign) :
  id <> Campaign.id c ->
  findCampaign Stats id (saveInto Stats c l) = findCampaign Stats id l.
Proof.
  intros Hne. induction l as [|x l IH].
  - rewrite saveInto_nil, findCampaign_cons.
    rewrite bool_decide_eq_false_2 by congruence. reflexivity.
  - rewrite saveInto_cons. case_bool_decide as Hx.
    + rewrite !findCampaign_cons.
      rewrite !bool_decide_eq_false_2 by congruence. reflexivity.
    + rewrite !findCampaign_cons, IH. reflexivity.
Qed.

Lemma saveInto_twice (c1 c2 : campaign) (l : list campaign) :
  Campaign.id c1 = Campaign.id c2 ->
  saveInto Stats c2 (saveInto Stats c1 l) = saveInto Stats c2 l.
Proof.
  intros Hid. induction l as [|x l IH].
  - rewrite !saveInto_nil, saveInto_cons.
    now rewrite bool_decide_eq_true_2.
  - rewrite !saveInto_cons, Hid. case_bool_decide as Hx.
    + rewrite saveInto_cons. now rewrite bool_decide_eq_true_2.
    + rewrite saveInto_cons. rewrite bool_decide_eq_false_2 by assumption.
      now rewrite IH.
Qed.

Lemma saveInto_ids (c : campaign) (l : list campaign) :
  map Campaign.id (saveInto Stats c l) =
    if bool_decide (Campaign.id c ∈ map Campaign.id l) then map Campaign.id l
    else map Campaign.id l ++ [Campaign.id c].
Proof.
  induction l as [|x l IH].
  - rewrite saveInto_nil. cbn [map].
    rewrite bool_decide_eq_false_2; [reflexivity | apply not_elem_of_nil].
  - rewrite saveInto_cons. cbn [map].
    destruct (decide (Campaign.id x = Campaign.id c)) as [Hx|Hx].
    + rewrite (bool_decide_eq_true_2 _ Hx).
      rewrite bool_decide_eq_true_2 by (rewrite Hx; left).
      cbn [map]. now rewrite Hx.
    + rewrite (bool_decide_eq_false_2 _ Hx). cbn [map]. rewrite IH.
      destruct (decide (Campaign.id c ∈ map Campaign.id l)) as [Hin|Hin].
      * rewrite (bool_decide_eq_true_2 _ Hin).
        rewrite bool_decide_eq_true_2 by now right. reflexivity.
      * rewrite (bool_decide_eq_false_2 _ Hin).
        rewrite bool_decide_eq_false_2; [reflexivity|].
        rewrite elem_of_cons. intros [Heq|Hin']; congruence.
Qed.

Lemma findCampaign_filter (id id' : jsstring) (l : list campaign) :
  findCampaign Stats id' (filter (fun c => Campaign.id c <> id) l) =
    if bool_decide (id' = id) then None else findCampaign Stats id' l.
Proof.
  induction l as [|x l IH].
  - now destruct (bool_decide (id' = id)).
  - rewrite filter_cons. destruct (decide (Campaign.id x <> id)) as [Hx|Hx].
    + rewrite !findCampaign_cons, IH.
      case_bool_decide as H1; case_bool_decide as H2; congruence.
    + rewrite IH, findCampaign_cons.
      case_bool_decide as H1; [reflexivity|].
      rewrite bool_decide_eq_false_2; [reflexivity|].
      intros Heq. apply Hx. congruence.
Qed.

Lemma filter_fresh (id : jsstring) (l : list campaign) :
  id ∉ map Campaign.id l -> filter (fun c => Campaign.id c <> id) l = l.
Proof.
  induction l as [|x l IH]; [reflexivity|]. cbn [map].
  rewrite not_elem_of_cons. intros [Hx Hl].
  rewrite filter_cons_True by congruence. now rewrite IH.
Qed.

End Campaigns.

End MarketingFacts.

(** ** The properties of the campaigns *)

Module CampaignProperties.
Import JS JSMore JSFacts JSMoreFacts EmailMarketing MarketingFacts.

Local Open Scope nat_scope.

Section Campaigns.

Variable Stats : Type.

Local Abbreviation State := (State Stats).
Local Abbreviation findCampaign := (findCampaign Stats).

(** X6. After a save the campaign is what a lookup of its id finds, the
    lookup of any other id finds what it found before, the lists are
    untouched and the tool is back on the dashboard with no campaign
    being edited. *)
Theorem save_then_find (c : Campaign.t Stats) (st : State) :
  findCampaign (Campaign.id c) (campaigns Stats (handleSaveCampaign Stats c st))
  = Some c
  /\ (forall id, id <> Campaign.id c ->
        findCampaign id (campaigns Stats (handleSaveCampaign Stats c st))
        = findCampaign id (campaigns Stats st))
  /\ lists Stats (handleSaveCampaign Stats c st) = lists Stats st
  /\ view Stats (handleSaveCampaign Stats c st) = dashboard
  /\ editingCampaignId Stats (handleSaveCampaign Stats c st) = None.
Proof.
  cbn [handleSaveCampaign campaigns lists view editingCampaignId].
  split; [apply findCampaign_saveInto|].
  split; [|auto]. intros id Hid. now apply findCampaign_saveInto_other.
Qed.

(** X7. Of two saves under one id the later wins: the state is the one the
    later save alone would have given. *)
Theorem last_save_wins (c1 c2 : Campaign.t Stats) (st : State) :
  Campaign.id c1 = Campaign.id c2 ->
  handleSaveCampaign Stats c2 (handleSaveCampaign Stats c1 st)
  = handleSaveCampaign Stats c2 st.
Proof.
  intros Hid. unfold handleSaveCampaign.
  cbn [campaigns lists view editingCampaignId activeTab selectedListId modal
       newListName contactsToAdd].
  now rewrite saveInto_twice.
Qed.

(** X8. Sending a campaign saves it twice, as Sending and two seconds later
    as Sent; with nothing in between the outcome is one campaign under
    its id, with status Sent and the time of sending.  And whatever
    happened in between (the campaign deleted, say), after the timer the
    campaign is in the list as Sent and the dashboard is shown. *)
Theorem send_leaves_one_sent (c : Campaign.t Stats) (iso : jsstring)
    (st between : State) :
  handleSend_timeout Stats (Some c) iso (handleSend Stats (Some c) st)
  = handleSaveCampaign Stats (withSent Stats iso (withStatus Stats Campaign.Sending c)) st
  /\ map Campaign.id
       (campaigns Stats
          (handleSend_timeout Stats (Some c) iso (handleSend Stats (Some c) st)))
     = map Campaign.id (campaigns Stats (handleSend Stats (Some c) st))
  /\ (let after := handleSend_timeout Stats (Some c) iso between in
      exists sent,
        findCampaign (Campaign.id c) (campaigns Stats after) = Some sent
        /\ Campaign.status sent = Campaign.Sent
        /\ Campaign.sentAt sent = Some iso
        /\ Campaign.content sent = Campaign.content c
        /\ view Stats after = dashboard).
Proof.
  split; [|split].
  - unfold handleSend_timeout, handleSend, handleSaveCampaign.
    cbn [campaigns lists view editingCampaignId activeTab selectedListId
         modal newListName contactsToAdd].
    now rewrite saveInto_twice.
  - unfold handleSend_timeout, handleSend, handleSaveCampaign. cbn [campaigns].
    rewrite saveInto_twice by reflexivity.
    rewrite !saveInto_ids. reflexivity.
  - cbv zeta. eexists. split.
    + unfold handleSend_timeout, handleSaveCampaign. cbn [campaigns].
      apply (findCampaign_saveInto Stats
               (withSent Stats iso (withStatus Stats Campaign.Sending c))).
    + auto.
Qed.

(** X9. A save keeps the ids of the campaigns distinct when the ids were
    distinct, and changes the number of campaigns only when the id is
    new: then by one. *)
Theorem save_keeps_ids_distinct (c : Campaign.t Stats) (st : State) :
  NoDup (map Campaign.id (campaigns Stats st)) ->
  NoDup (map Campaign.id (campaigns Stats (handleSaveCampaign Stats c st)))
  /\ length (campaigns Stats (handleSaveCampaign Stats c st))
     = if bool_decide (Campaign.id c ∈ map Campaign.id (campaigns Stats st))
       then length (campaigns Stats st)
       else S (length (campaigns Stats st)).
Proof.
  intros Hnd. cbn [handleSaveCampaign campaigns].
  pose proof (saveInto_ids Stats c (campaigns Stats st)) as Hids.
  assert (Hlen : length (saveInto Stats c (campaigns Stats st))
                 = length (map Campaign.id (saveInto Stats c (campaigns Stats st))))
    by now rewrite length_map.
  rewrite Hlen, Hids. clear Hlen. case_bool_decide as Hin.
  - split; [assumption | now rewrite length_map].
  - split.
    + apply NoDup_app. split; [assumption|]. split; [|apply NoDup_singleton].
      intros x Hx Hx'. apply list_elem_of_singleton in Hx'. now subst.
    + rewrite length_app, length_map. cbn. lia.
Qed.

(** X10. A confirmed delete removes the campaign: a lookup of its id finds
    nothing, the lookup of any other id finds what it found before.  A
    delete that is not confirmed changes nothing. *)
Theorem delete_campaign (id : jsstring) (st : State) :
  findCampaign id (campaigns Stats (handleDeleteCampaign Stats true id st)) = None
  /\ (forall id', id' <> id ->
        findCampaign id' (campaigns Stats (handleDeleteCampaign Stats true id st))
        = findCampaign id' (campaigns Stats st))
  /\ handleDeleteCampaign Stats false id st = st.
Proof.
  cbn [handleDeleteCampaign handleSaveCampaign campaigns].
  split; [|split].
  - rewrite findCampaign_filter. now rewrite bool_decide_eq_true_2.
  - intros id' Hne. rewrite findCampaign_filter.
    now rewrite bool_decide_eq_false_2.
  - reflexivity.
Qed.

(** X11. Deleting a campaign that was saved under a new id gives back the
    campaigns as they were. *)
Theorem delete_after_save (c : Campaign.t Stats) (st : State) :
  Campaign.id c ∉ map Campaign.id (campaigns Stats st) ->
  campaigns Stats
    (handleDeleteCampaign Stats true (Campaign.id c)
       (handleSaveCampaign Stats c st))
  = campaigns Stats st.
Proof.
  intros Hfresh. cbn [handleDeleteCampaign handleSaveCampaign campaigns].
  unfold saveInto.
  assert (Hidx : findIndex
            (fun x => bool_decide (Campaign.id x = Campaign.id c))
            (campaigns Stats st) = (-1)%Z).
  { induction (campaigns Stats st) as [|x l IH]; [reflexivity|].
    cbn [map] in Hfresh. apply not_elem_of_cons in Hfresh.
    destruct Hfresh as [Hx Hl]. cbn [findIndex].
    rewrite bool_decide_eq_false_2 by congruence. now rewrite (IH Hl). }
  rewrite Hidx. cbn. rewrite filter_app, filter_fresh by assumption.
  rewrite filter_cons_False by (intros H; now apply H).
  now rewrite filter_nil, app_nil_r.
Qed.

End Campaigns.

(** X7 at the draft of the seed data saved as Sending and then as Sent. *)
Lemma last_save_wins_witness :
  Campaign.id (withStatus unit Campaign.Sending (julyPromo unit tt))
  = Campaign.id (withSent unit (js "2024-05-01T09:00:00.000Z")
                   (julyPromo unit tt))
  /\ handleSaveCampaign unit
       (withSent unit (js "2024-05-01T09:00:00.000Z") (julyPromo unit tt))
       (handleSaveCampaign unit
          (withStatus unit Campaign.Sending (julyPromo unit tt))
          (seeded unit tt tt (js "2024-05-01T08:00:00.000Z")))
     = handleSaveCampaign unit
         (withSent unit (js "2024-05-01T09:00:00.000Z") (julyPromo unit tt))
         (seeded unit tt tt (js "2024-05-01T08:00:00.000Z")).
Proof.
  split; [reflexivity|].
  apply (last_save_wins unit
           (withStatus unit Campaign.Sending (julyPromo unit tt))
           (withSent unit (js "2024-05-01T09:00:00.000Z") (julyPromo unit tt))
           (seeded unit tt tt (js "2024-05-01T08:00:00.000Z"))).
  reflexivity.
Defined.

(** X9 at the seed data and its draft saved again. *)
Lemma save_keeps_ids_distinct_witness :
  NoDup (map Campaign.id
           (campaigns unit (seeded unit tt tt (js "2024-05-01T08:00:00.000Z"))))
  /\ NoDup (map Campaign.id
              (campaigns unit
                 (handleSaveCampaign unit
                    (withStatus unit Campaign.Sending (julyPromo unit tt))
                    (seeded unit tt tt (js "2024-05-01T08:00:00.000Z")))))
  /\ length (campaigns unit
               (handleSaveCampaign unit
                  (withStatus unit Campaign.Sending (julyPromo unit tt))
                  (seeded unit tt tt (js "2024-05-01T08:00:00.000Z"))))
     = 2.
Proof.
  split; [closed_decide|].
  apply (save_keeps_ids_distinct unit
           (withStatus unit Campaign.Sending (julyPromo unit tt))
           (seeded unit tt tt (js "2024-05-01T08:00:00.000Z"))).
  closed_decide.
Defined.

(** X11 at a fresh campaign of the editor saved into the seed data. *)
Lemma delete_after_save_witness :
  (Campaign.id
     (newCampaign unit 1714564800000%N (js "2024-05-01T12:00:00.000Z") tt)
     ∉ map Campaign.id
         (campaigns unit (seeded unit tt tt (js "2024-05-01T08:00:00.000Z"))))
  /\ campaigns unit
       (handleDeleteCampaign unit true (Campaign.id (newCampaign unit 1714564800000%N (js "2024-05-01T12:00:00.000Z") tt))
          (handleSaveCampaign unit (newCampaign unit 1714564800000%N (js "2024-05-01T12:00:00.000Z") tt)
             (seeded unit tt tt (js "2024-05-01T08:00:00.000Z"))))
     = campaigns unit (seeded unit tt tt (js "2024-05-01T08:00:00.000Z")).
Proof.
  split; [closed_decide|].
  apply (delete_after_save unit (newCampaign unit 1714564800000%N (js "2024-05-01T12:00:00.000Z") tt)
           (seeded unit tt tt (js "2024-05-01T08:00:00.000Z"))).
  closed_decide.
Defined.

End CampaignProperties.

(** ** Facts about the contact lists *)

Module ContactFacts.
Import JS JSMore RegExp JSFacts RegExpFacts JSMoreFacts EmailMarketing.

Local Open Scope nat_scope.

Lemma lookup_map {A B} (f : A -> B) (l : list A) (k : nat) :
  map f l !! k = f <$> (l !! k).
Proof.
  revert k. induction l as [|x l IH]; intros [|k]; try reflexivity.
  cbn. apply IH.
Qed.

Lemma map_imap_const {A B C} (f : B -> C) (g : nat -> A -> B) (h : A -> C)
    (l : list A) :
  (forall i x, f (g i x) = h x) -> map f (imap g l) = map h l.
Proof.
  revert g. induction l as [|x l IH]; intros g Hg; [reflexivity|].
  cbn. rewrite Hg. f_equal. apply IH. intros i y. apply Hg.
Qed.

Lemma imap_Forall {A B} (P : B -> Prop) (g : nat -> A -> B) (l : list A) :
  (forall i x, P (g i x)) -> Forall P (imap g l).
Proof.
  revert g. induction l as [|x l IH]; intros g Hg; cbn; constructor; auto.
  apply IH. intros i y. apply Hg.
Qed.

Lemma filter_by_email (existing : list jsstring) (l : list Contact.t) :
  map Contact.email (filter (fun c => Contact.email c ∉ existing) l)
  = filter (fun e => e ∉ existing) (map Contact.email l).
Proof.
  induction l as [|x l IH]; [reflexivity|].
  cbn [map]. rewrite !filter_cons.
  destruct (decide (Contact.email x ∉ existing)); cbn [map]; now rewrite IH.
Qed.

Lemma filter_none {A} (P : A -> Prop) `{!forall y, Decision (P y)} (l : list A) :
  (forall x, x ∈ l -> ~ P x) -> filter P l = [].
Proof.
  induction l as [|x l IH]; intros Hall; [reflexivity|].
  rewrite filter_cons_False by (apply Hall; left).
  apply IH. intros y Hy. apply Hall. now right.
Qed.

(** The pieces of the text, as [trim] leaves them, are the pieces. *)
Lemma emails_trimmed (text : jsstring) :
  map trim (EmailValidation.emails text) = EmailValidation.emails text.
Proof.
  rewrite <- (map_id (EmailValidation.emails text)) at 2.
  apply map_ext_in. intros e He. apply list_elem_of_In in He.
  now apply (ValidationFacts.emails_trim text).
Qed.

(** The e-mail addresses of the contacts made from a text are its
    pieces, repeated pieces included. *)
Lemma newContacts_emails (clock : nat -> N * jsstring) (text : jsstring) :
  map Contact.email (newContacts clock text) = EmailValidation.emails text.
Proof.
  unfold newContacts.
  rewrite (map_imap_const _ _ trim) by reflexivity. apply emails_trimmed.
Qed.

(** A text of one piece: no separator in it and not empty. *)
Lemma splitFrom_clean (p : N -> bool) (e cur : jsstring) :
  forallb (fun c => negb (p c)) e = true ->
  splitFrom (Plus (Cls p)) 0 cur e = [rev cur ++ e].
Proof.
  revert cur. induction e as [|c e IH]; intros cur He.
  - cbn. now rewrite app_nil_r.
  - cbn [forallb] in He. apply andb_true_iff in He. destruct He as [Hc He].
    apply negb_true_iff in Hc.
    rewrite split_plus_cls_cons, Hc, IH by assumption.
    cbn [rev]. now rewrite <- app_assoc.
Qed.

Lemma emails_single (e : jsstring) :
  e <> [] -> forallb (fun c => negb (EmailValidation.sepChar c)) e = true ->
  EmailValidation.emails e = [e] /\ blank e = false.
Proof.
  intros Hne He.
  assert (Hws : forallb (fun c => negb (isWhiteSpace c)) e = true).
  { rewrite forallb_forall in *. intros c Hc. specialize (He c Hc).
    apply negb_true_iff in He. apply negb_true_iff.
    now apply ValidationFacts.sepChar_isWhiteSpace. }
  split.
  - rewrite ValidationFacts.emails_nonempty_pieces.
    unfold EmailValidation.separator.
    rewrite split_plus_cls, splitFrom_clean by assumption. cbn [rev app].
    now rewrite filter_cons_True, filter_nil.
  - unfold blank. rewrite trim_clean by assumption.
    now destruct e.
Qed.

Section Lists.

Variable Stats : Type.

Lemma findList_cons (id : jsstring) (x : ContactList.t)
    (l : list ContactList.t) :
  findList id (x :: l) =
    if bool_decide (ContactList.id x = id) then Some x else findList id l.
Proof. reflexivity. Qed.

Lemma findList_filter (id id' : jsstring) (l : list ContactList.t) :
  findList id' (filter (fun x => ContactList.id x <> id) l) =
    if bool_decide (id' = id) then None else findList id' l.
Proof.
  induction l as [|x l IH].
  - now destruct (bool_decide (id' = id)).
  - rewrite filter_cons. destruct (decide (ContactList.id x <> id)) as [Hx|Hx].
    + rewrite !findList_cons, IH.
      destruct (decide (id' = id)) as [H1|H1];
        [rewrite (bool_decide_eq_true_2 _ H1) | rewrite (bool_decide_eq_false_2 _ H1)];
        [|reflexivity].
      rewrite bool_decide_eq_false_2 by congruence. reflexivity.
    + rewrite IH, findList_cons.
      destruct (decide (id' = id)) as [H1|H1];
        [rewrite (bool_decide_eq_true_2 _ H1) | rewrite (bool_decide_eq_false_2 _ H1)];
        [reflexivity|].
      rewrite bool_decide_eq_false_2; [reflexivity|].
      intros Heq. apply Hx. congruence.
Qed.

(** A batch whose addresses are among those of an earlier batch adds
    nothing to a list the earlier batch went into. *)
Lemma addTo_again (selected : jsstring) (new1 new2 : list Contact.t)
    (l : ContactList.t) :
  (forall e, e ∈ map Contact.email new2 -> e ∈ map Contact.email new1) ->
  addTo selected new2 (addTo selected new1 l) = addTo selected new1 l.
Proof.
  intros Hsub.
  destruct (decide (ContactList.id l = selected)) as [Hid|Hid].
  - set (kept := filter
           (fun c => Contact.email c ∉ map Contact.email (ContactList.contacts l))
           new1).
    assert (E1 : addTo selected new1 l
                 = withContacts (ContactList.contacts l ++ kept) l).
    { unfold addTo. now rewrite (bool_decide_eq_true_2 _ Hid). }
    rewrite E1. unfold addTo.
    cbn [withContacts ContactList.id ContactList.contacts].
    rewrite (bool_decide_eq_true_2 _ Hid).
    rewrite (filter_none
               (fun c => Contact.email c
                         ∉ map Contact.email (ContactList.contacts l ++ kept))
               new2); [now rewrite app_nil_r|].
    intros c Hc Hnot. apply Hnot.
    rewrite map_app, elem_of_app.
    destruct (decide (Contact.email c ∈ map Contact.email (ContactList.contacts l)))
      as [Hex|Hex]; [now left | right].
    assert (Hin : Contact.email c ∈ map Contact.email new1).
    { apply Hsub. apply list_elem_of_In, in_map, list_elem_of_In, Hc. }
    apply list_elem_of_In, in_map_iff in Hin. destruct Hin as (c1 & Hc1 & Hin1).
    rewrite <- Hc1. apply list_elem_of_In, in_map, list_elem_of_In.
    apply list_elem_of_filter. split; [now rewrite Hc1 | now apply list_elem_of_In].
  - unfold addTo. rewrite (bool_decide_eq_false_2 _ Hid).
    now rewrite (bool_decide_eq_false_2 _ Hid).
Qed.

End Lists.

End ContactFacts.

(** ** The properties of the contact lists *)

Module ContactProperties.
Import JS JSMore RegExp JSFacts RegExpFacts JSMoreFacts EmailMarketing
  ContactFacts.

Local Open Scope nat_scope.

Section Lists.

Variable Stats : Type.

Local Abbreviation State := (State Stats).

(** X12. Deleting a list, once confirmed, removes it and takes it out of the
    audience of every campaign; each campaign keeps its place, its other
    fields and its other audience lists in their order, and every other
    list is found as before.  Not confirmed, the delete changes
    nothing. *)
Theorem delete_list_unsubscribes (listId : jsstring) (st : State) :
  findList listId (lists Stats (handleDeleteList Stats true listId st)) = None
  /\ (forall id, id <> listId ->
        findList id (lists Stats (handleDeleteList Stats true listId st))
        = findList id (lists Stats st))
  /\ Forall2
       (fun c c' =>
          c' = withAudience Stats (Campaign.audienceListIds c') c
          /\ Campaign.audienceListIds c'
             = filter (fun id => id <> listId) (Campaign.audienceListIds c)
          /\ (listId ∉ Campaign.audienceListIds c')
          /\ (Campaign.audienceListIds c'
                `sublist_of` Campaign.audienceListIds c))
       (campaigns Stats st)
       (campaigns Stats (handleDeleteList Stats true listId st))
  /\ handleDeleteList Stats false listId st = st.
Proof.
  cbn [handleDeleteList lists campaigns].
  split; [|split; [|split]].
  - rewrite findList_filter. now rewrite bool_decide_eq_true_2.
  - intros id Hne. rewrite findList_filter.
    now rewrite bool_decide_eq_false_2.
  - induction (campaigns Stats st) as [|c l IH]; cbn [map]; constructor;
      [|exact IH].
    cbn [withAudience Campaign.audienceListIds].
    split; [reflexivity|]. split; [reflexivity|]. split.
    + rewrite list_elem_of_filter. tauto.
    + apply sublist_filter.
  - reflexivity.
Qed.

(** X13. Adding contacts to the selected list appends: the contacts the list
    had stay in place, and the addresses appended are the pieces of the
    text that were not yet among the addresses of the list, in the order
    of the text and with their repetitions.  Lists of another id are
    left as they are; the dialog closes and its text is cleared. *)
Theorem add_contacts_appends (clock : nat -> N * jsstring) (st : State)
    (selected : jsstring) :
  selectedListId Stats st = Some selected ->
  selected <> [] ->
  blank (contactsToAdd Stats st) = false ->
  modal Stats (handleAddContacts Stats clock st) = None
  /\ contactsToAdd Stats (handleAddContacts Stats clock st) = []
  /\ campaigns Stats (handleAddContacts Stats clock st) = campaigns Stats st
  /\ forall k l, lists Stats st !! k = Some l ->
       (ContactList.id l <> selected ->
          lists Stats (handleAddContacts Stats clock st) !! k = Some l)
       /\ (ContactList.id l = selected ->
             exists added,
               lists Stats (handleAddContacts Stats clock st) !! k
               = Some (withContacts (ContactList.contacts l ++ added) l)
               /\ map Contact.email added
                  = filter (fun e => e ∉ map Contact.email (ContactList.contacts l))
                           (EmailValidation.emails (contactsToAdd Stats st))
               /\ Forall (fun c => Contact.name c = None) added).
Proof.
  intros Hsel Hne Hb. unfold handleAddContacts. rewrite Hsel, Hb.
  destruct selected as [|s0 sel]; [congruence|]. cbn [isEmpty orb].
  cbn [modal contactsToAdd campaigns lists].
  split; [reflexivity|]. split; [reflexivity|]. split; [reflexivity|].
  intros k l Hk. rewrite lookup_map, Hk. cbn [fmap option_fmap option_map].
  unfold addTo. split; intros Hid.
  - now rewrite (bool_decide_eq_false_2 _ Hid).
  - rewrite (bool_decide_eq_true_2 _ Hid).
    exists (filter
              (fun c => Contact.email c
                        ∉ map Contact.email (ContactList.contacts l))
              (newContacts clock (contactsToAdd Stats st))).
    split; [reflexivity|]. split.
    + now rewrite filter_by_email, newContacts_emails.
    + apply Forall_forall. intros c Hc.
      apply list_elem_of_filter in Hc. destruct Hc as [_ Hc].
      pose proof (imap_Forall (fun c => Contact.name c = None)
        (fun i email =>
           {| Contact.id := js "c_" ++ decimal (fst (clock i)) ++ js "_" ++ email;
              Contact.email := trim email; Contact.name := None;
              Contact.createdAt := snd (clock i) |})
        (EmailValidation.emails (contactsToAdd Stats st))
        (fun _ _ => eq_refl)) as Hall.
      rewrite Forall_forall in Hall. now apply Hall.
Qed.

(** X14. Submitting the same text a second time adds nothing: the lists after
    the second submission are the lists after the first, whatever the
    clock reads. *)
Theorem add_contacts_twice (clock1 clock2 : nat -> N * jsstring)
    (text : jsstring) (st : State) :
  lists Stats
    (handleAddContacts Stats clock2
       (typeContacts Stats text
          (handleAddContacts Stats clock1 (typeContacts Stats text st))))
  = lists Stats (handleAddContacts Stats clock1 (typeContacts Stats text st)).
Proof.
  destruct (selectedListId Stats st) as [selected|] eqn:Hsel.
  - destruct (isEmpty selected || blank text) eqn:Hg.
    + assert (E1 : handleAddContacts Stats clock1 (typeContacts Stats text st)
                   = typeContacts Stats text st).
      { unfold handleAddContacts.
        cbn [typeContacts selectedListId contactsToAdd]. now rewrite Hsel, Hg. }
      rewrite E1. unfold handleAddContacts.
      cbn [typeContacts selectedListId contactsToAdd]. now rewrite Hsel, Hg.
    + assert (E1 : handleAddContacts Stats clock1 (typeContacts Stats text st)
                   = {| view := view Stats st; activeTab := activeTab Stats st;
                        lists := map (addTo selected (newContacts clock1 text))
                                     (lists Stats st);
                        campaigns := campaigns Stats st;
                        selectedListId := Some selected;
                        editingCampaignId := editingCampaignId Stats st;
                        modal := None; newListName := newListName Stats st;
                        contactsToAdd := [] |}).
      { unfold handleAddContacts.
        cbn [typeContacts selectedListId contactsToAdd view activeTab lists
             campaigns editingCampaignId newListName].
        now rewrite Hsel, Hg. }
      rewrite E1. unfold handleAddContacts.
      cbn [typeContacts selectedListId contactsToAdd lists]. rewrite Hg.
      cbn [lists]. rewrite map_map. apply map_ext.
      intros l. apply addTo_again. intros e.
      now rewrite !newContacts_emails.
  - assert (E1 : handleAddContacts Stats clock1 (typeContacts Stats text st)
                 = typeContacts Stats text st).
    { unfold handleAddContacts. cbn [typeContacts selectedListId].
      now rewrite Hsel. }
    rewrite E1. unfold handleAddContacts. cbn [typeContacts selectedListId].
    now rewrite Hsel.
Qed.

(** X15. Adding one new address and deleting the contact made for it gives
    the lists back, when no contact of the selected list had that address
    or that id. *)
Theorem add_then_delete_contact (clock : nat -> N * jsstring) (st : State)
    (selected e : jsstring) :
  selectedListId Stats st = Some selected ->
  selected <> [] ->
  e <> [] ->
  forallb (fun c => negb (EmailValidation.sepChar c)) e = true ->
  Forall
    (fun l =>
       ContactList.id l = selected ->
       (e ∉ map Contact.email (ContactList.contacts l))
       /\ ((js "c_" ++ decimal (fst (clock 0)) ++ js "_" ++ e)
            ∉ map Contact.id (ContactList.contacts l)))
    (lists Stats st) ->
  lists Stats
    (handleDeleteContact Stats selected
       (js "c_" ++ decimal (fst (clock 0)) ++ js "_" ++ e)
       (handleAddContacts Stats clock (typeContacts Stats e st)))
  = lists Stats st.
Proof.
  intros Hsel Hne He0 He Hfresh. rewrite Forall_forall in Hfresh.
  destruct (emails_single e He0 He) as [Hemails Hblank].
  unfold handleAddContacts. cbn [typeContacts selectedListId contactsToAdd].
  rewrite Hsel, Hblank. destruct selected as [|s0 sel]; [congruence|].
  cbn [isEmpty orb handleDeleteContact lists].
  rewrite map_map. transitivity (map id (lists Stats st)); [|apply map_id].
  apply map_ext_in. intros l Hl. apply list_elem_of_In in Hl.
  unfold addTo, newContacts. rewrite Hemails. cbn [imap].
  destruct (decide (ContactList.id l = s0 :: sel)) as [Hid|Hid].
  - rewrite (bool_decide_eq_true_2 _ Hid).
    cbn [withContacts ContactList.id ContactList.contacts].
    rewrite (bool_decide_eq_true_2 _ Hid).
    destruct (Hfresh l Hl Hid) as [Hmail Hcid].
    assert (Htrim : trim e = e).
    { apply trim_clean. rewrite forallb_forall in *. intros c Hc.
      specialize (He c Hc). apply negb_true_iff in He. apply negb_true_iff.
      now apply ValidationFacts.sepChar_isWhiteSpace. }
    rewrite filter_cons_True by (cbn [Contact.email]; now rewrite Htrim).
    rewrite filter_nil, filter_app.
    rewrite filter_cons_False by (cbn [Contact.id]; intros H; now apply H).
    rewrite filter_nil, app_nil_r.
    assert (Hkeep : filter
              (fun c => Contact.id c <> js "c_" ++ decimal (fst (clock 0)) ++ js "_" ++ e)
              (ContactList.contacts l) = ContactList.contacts l).
    { clear -Hcid. induction (ContactList.contacts l) as [|c cs IH]; [reflexivity|].
      cbn [map] in Hcid. apply not_elem_of_cons in Hcid. destruct Hcid as [Hc Hcs].
      rewrite filter_cons_True by congruence. now rewrite IH. }
    rewrite Hkeep. now destruct l.
  - rewrite (bool_decide_eq_false_2 _ Hid).
    now rewrite (bool_decide_eq_false_2 _ Hid).
Qed.

End Lists.

Local Abbreviation subscribers :=
  (manageList unit (js "l1")
     (seeded unit tt tt (js "2024-05-01T08:00:00.000Z"))).
Local Abbreviation noon :=
  (fun _ : nat => (1714564800000%N, js "2024-05-01T12:00:00.000Z")).

(** X13 at the first seed list with a text holding a new address twice
    and a known one. *)
Lemma add_contacts_appends_witness :
  selectedListId unit
    (typeContacts unit (js "a@x.org, subscriber1@example.com a@x.org")
       subscribers) = Some (js "l1")
  /\ js "l1" <> []
  /\ blank (contactsToAdd unit
              (typeContacts unit
                 (js "a@x.org, subscriber1@example.com a@x.org") subscribers))
     = false
  /\ modal unit
       (handleAddContacts unit noon
          (typeContacts unit (js "a@x.org, subscriber1@example.com a@x.org")
             subscribers)) = None
  /\ contactsToAdd unit
       (handleAddContacts unit noon
          (typeContacts unit (js "a@x.org, subscriber1@example.com a@x.org")
             subscribers)) = []
  /\ campaigns unit
       (handleAddContacts unit noon
          (typeContacts unit (js "a@x.org, subscriber1@example.com a@x.org")
             subscribers))
     = campaigns unit
         (typeContacts unit (js "a@x.org, subscriber1@example.com a@x.org")
            subscribers)
  /\ forall k l,
       lists unit
         (typeContacts unit (js "a@x.org, subscriber1@example.com a@x.org")
            subscribers) !! k = Some l ->
       (ContactList.id l <> js "l1" ->
          lists unit
            (handleAddContacts unit noon
               (typeContacts unit
                  (js "a@x.org, subscriber1@example.com a@x.org") subscribers))
            !! k = Some l)
       /\ (ContactList.id l = js "l1" ->
             exists added,
               lists unit
                 (handleAddContacts unit noon
                    (typeContacts unit
                       (js "a@x.org, subscriber1@example.com a@x.org")
                       subscribers)) !! k
               = Some (withContacts (ContactList.contacts l ++ added) l)
               /\ map Contact.email added
                  = filter (fun e => e ∉ map Contact.email (ContactList.contacts l))
                      (EmailValidation.emails
                         (contactsToAdd unit
                            (typeContacts unit
                               (js "a@x.org, subscriber1@example.com a@x.org")
                               subscribers)))
               /\ Forall (fun c => Contact.name c = None) added).
Proof.
  split; [reflexivity|]. split; [discriminate|]. split; [reflexivity|].
  apply (add_contacts_appends unit noon
           (typeContacts unit (js "a@x.org, subscriber1@example.com a@x.org")
              subscribers) (js "l1")).
  - reflexivity.
  - discriminate.
  - reflexivity.
Defined.

(** X15 at the first seed list and a new address. *)
Lemma add_then_delete_contact_witness :
  selectedListId unit subscribers = Some (js "l1")
  /\ js "l1" <> []
  /\ js "new@x.org" <> []
  /\ forallb (fun c => negb (EmailValidation.sepChar c)) (js "new@x.org") = true
  /\ lists unit
       (handleDeleteContact unit (js "l1")
          (js "c_" ++ decimal 1714564800000%N ++ js "_" ++ js "new@x.org")
          (handleAddContacts unit noon
             (typeContacts unit (js "new@x.org") subscribers)))
     = lists unit subscribers.
Proof.
  split; [reflexivity|]. split; [discriminate|]. split; [discriminate|].
  split; [reflexivity|].
  apply (add_then_delete_contact unit noon subscribers (js "l1")
           (js "new@x.org")).
  - reflexivity.
  - discriminate.
  - discriminate.
  - reflexivity.
  - closed_decide.
Defined.

End ContactProperties.

(** ** More facts about the matcher *)

Module RegExpMoreFacts.
Import JS RegExp JSFacts RegExpFacts.

Local Open Scope nat_scope.

(** *** Renaming the characters

    A map [f] on code units that no class of the pattern can tell from
    the identity commutes with the matcher, with the global search and
    with [split]. *)

Section Renaming.

Variable f : N -> N.

Lemma star_runs_map (step : jsstring -> list jsstring) :
  (forall s, step (map f s) = map (map f) (step s)) ->
  forall fuel s,
    star_runs step fuel (map f s) = map (map f) (star_runs step fuel s).
Proof.
  intros Hstep fuel. induction fuel as [|n IH]; intros s; [reflexivity|].
  cbn [star_runs]. rewrite map_app, Hstep. cbn [map]. f_equal.
  induction (step s) as [|x L IHL]; [reflexivity|].
  cbn [map flat_map]. rewrite map_app, IHL, !length_map. f_equal.
  destruct (length x <? length s); [apply IH | reflexivity].
Qed.

Lemma runs_map (r : re) :
  classes (fun p => forall c, p (f c) = p c) r ->
  forall s, runs r (map f s) = map (map f) (runs r s).
Proof.
  induction r as [|p|a IHa b IHb|a IHa b IHb|a IHa]; cbn [classes]; intros Hr s.
  - reflexivity.
  - destruct s as [|c s]; [reflexivity|]. cbn [map runs]. rewrite Hr.
    now destruct (p c).
  - destruct Hr as [Ha Hb]. cbn [runs]. rewrite (IHa Ha).
    induction (runs a s) as [|x L IHL]; [reflexivity|].
    cbn [map flat_map]. now rewrite map_app, IHL, (IHb Hb).
  - destruct Hr as [Ha Hb]. cbn [runs].
    now rewrite map_app, (IHa Ha), (IHb Hb).
  - cbn [runs]. rewrite length_map. apply star_runs_map. now apply IHa.
Qed.

Lemma matchAll_cons (r : re) (c : N) (s : jsstring) :
  matchAll r 0 (c :: s) =
    match runs r (c :: s) with
    | rest :: _ =>
        take (length (c :: s) - length rest) (c :: s)
        :: matchAll r (length (c :: s) - length rest - 1) s
    | [] => matchAll r 0 s
    end.
Proof. reflexivity. Qed.

Lemma matchAll_map (r : re) :
  classes (fun p => forall c, p (f c) = p c) r ->
  forall s k, matchAll r k (map f s) = map (map f) (matchAll r k s).
Proof.
  intros Hr s. induction s as [|c s IH]; intros k.
  - cbn [map matchAll]. change (@nil N) with (map f []) at 1.
    rewrite (runs_map r Hr). destruct k, (runs r []); reflexivity.
  - destruct k as [|k]; [|apply IH].
    rewrite (map_cons f c s), !matchAll_cons, <- (map_cons f c s).
    rewrite (runs_map r Hr). destruct (runs r (c :: s)) as [|rest L].
    + apply IH.
    + rewrite (map_cons (map f) rest L). cbv iota.
      rewrite !length_map, firstn_map, IH.
      now rewrite (map_cons (map f)).
Qed.

Lemma splitFrom_cons (r : re) (c : N) (s cur : jsstring) :
  splitFrom r 0 cur (c :: s) =
    match runs r (c :: s) with
    | [] => splitFrom r 0 (c :: cur) s
    | rest :: _ =>
        match length (c :: s) - length rest, cur with
        | O, [] => splitFrom r 0 (c :: cur) s
        | O, _ => rev cur :: splitFrom r 0 [c] s
        | S k, _ => rev cur :: splitFrom r k [] s
        end
    end.
Proof. reflexivity. Qed.

Lemma splitFrom_map (r : re) :
  classes (fun p => forall c, p (f c) = p c) r ->
  forall s k cur,
    splitFrom r k (map f cur) (map f s)
    = map (map f) (splitFrom r k cur s).
Proof.
  intros Hr s. induction s as [|c s IH]; intros k cur.
  - cbn [map splitFrom]. now rewrite map_rev.
  - destruct k as [|k]; [|apply IH].
    rewrite (map_cons f c s), !splitFrom_cons, <- (map_cons f c s).
    rewrite (runs_map r Hr). destruct (runs r (c :: s)) as [|rest L].
    + apply (IH 0 (c :: cur)).
    + rewrite (map_cons (map f) rest L). cbv iota. rewrite !length_map.
      destruct (length (c :: s) - length rest) as [|n].
      * destruct cur as [|d cur].
        -- apply (IH 0 [c]).
        -- rewrite (map_cons (map f)), <- map_rev. f_equal.
           apply (IH 0 [c]).
      * rewrite (map_cons (map f)), <- map_rev. f_equal. apply (IH n []).
Qed.

End Renaming.

(** *** What [split] keeps

    Put end to end, the pieces of a split on runs of one class are the
    text without the characters of the class. *)

Lemma filter_dropWhile (p : N -> bool) (s : jsstring) :
  filter (fun c => p c = false) (dropWhile p s)
  = filter (fun c => p c = false) s.
Proof.
  induction s as [|c s IH]; [reflexivity|]. cbn [dropWhile].
  destruct (p c) eqn:Hc; [|reflexivity].
  rewrite (filter_cons_False _ c s) by congruence. exact IH.
Qed.

Lemma splitFrom_concat (p : N -> bool) (s cur : jsstring) :
  concat (splitFrom (Plus (Cls p)) 0 cur s)
  = rev cur ++ filter (fun c => p c = false) s.
Proof.
  remember (length s) as n eqn:Hn. assert (Hle : length s <= n) by lia.
  clear Hn. revert s cur Hle.
  induction n as [|n IH]; intros s cur Hle.
  - destruct s; [|simpl in Hle; lia]. cbn. now rewrite app_nil_r.
  - destruct s as [|c s]; [cbn; now rewrite app_nil_r|].
    simpl in Hle. rewrite split_plus_cls_cons. destruct (p c) eqn:Hc.
    + cbn [concat]. rewrite IH by (pose proof (dropWhile_length p s); lia).
      cbn [rev app]. rewrite filter_dropWhile.
      now rewrite (filter_cons_False _ c s) by congruence.
    + rewrite IH by lia. cbn [rev].
      rewrite (filter_cons_True _ c s) by assumption.
      now rewrite <- app_assoc.
Qed.

(** *** A character no class admits

    Before a character [c0] that no class of the pattern admits, the
    matcher does what it does at the end of the text. *)

Lemma flat_map_never {A B} (g : A -> list B) (l : list A) :
  (forall x, g x = []) -> flat_map g l = [].
Proof.
  intros Hg. induction l as [|x l IH]; [reflexivity|].
  cbn [flat_map]. now rewrite Hg, IH.
Qed.

Lemma star_runs_empty (step : jsstring -> list jsstring) (fuel : nat) :
  star_runs step fuel [] = [[]].
Proof.
  destruct fuel; [reflexivity|]. cbn [star_runs].
  now rewrite flat_map_never.
Qed.

Lemma star_runs_fuel (step : jsstring -> list jsstring) (f1 : nat) :
  forall f2 s, length s <= f1 -> length s <= f2 ->
    star_runs step f1 s = star_runs step f2 s.
Proof.
  induction f1 as [|f1 IH]; intros f2 s H1 H2.
  - destruct s; [|simpl in H1; lia]. now rewrite !star_runs_empty.
  - destruct f2 as [|f2].
    + destruct s; [|simpl in H2; lia]. now rewrite !star_runs_empty.
    + cbn [star_runs]. f_equal. apply flat_map_ext. intros x.
      destruct (Nat.ltb_spec (length x) (length s)); [|reflexivity].
      apply IH; lia.
Qed.

Section Stop.

Variable c0 : N.
Variable t : jsstring.

Lemma star_runs_stop (step : jsstring -> list jsstring) :
  (forall s, step (s ++ c0 :: t) = map (fun x => x ++ c0 :: t) (step s)) ->
  forall fuel s,
    star_runs step fuel (s ++ c0 :: t)
    = map (fun x => x ++ c0 :: t) (star_runs step fuel s).
Proof.
  intros Hstep fuel. induction fuel as [|n IH]; intros s; [reflexivity|].
  cbn [star_runs]. rewrite map_app, Hstep. cbn [map]. f_equal.
  induction (step s) as [|x L IHL]; [reflexivity|].
  cbn [map flat_map]. rewrite map_app, IHL. f_equal.
  rewrite !length_app.
  destruct (Nat.ltb_spec (length x) (length s)) as [Hlt|Hge].
  - replace (length x + length (c0 :: t) <? length s + length (c0 :: t))
      with true by (symmetry; apply Nat.ltb_lt; lia).
    apply IH.
  - replace (length x + length (c0 :: t) <? length s + length (c0 :: t))
      with false by (symmetry; apply Nat.ltb_ge; lia).
    reflexivity.
Qed.

Lemma runs_stop (r : re) :
  classes (fun p => p c0 = false) r ->
  forall s, runs r (s ++ c0 :: t) = map (fun x => x ++ c0 :: t) (runs r s).
Proof.
  induction r as [|p|a IHa b IHb|a IHa b IHb|a IHa]; cbn [classes]; intros Hr s.
  - reflexivity.
  - destruct s as [|c s]; cbn [app runs].
    + now rewrite Hr.
    + now destruct (p c).
  - destruct Hr as [Ha Hb]. cbn [runs]. rewrite (IHa Ha).
    induction (runs a s) as [|x L IHL]; [reflexivity|].
    cbn [map flat_map]. now rewrite map_app, IHL, (IHb Hb).
  - destruct Hr as [Ha Hb]. cbn [runs].
    now rewrite map_app, (IHa Ha), (IHb Hb).
  - cbn [runs]. rewrite (star_runs_stop _ (IHa Hr)). f_equal.
    apply star_runs_fuel; rewrite ?length_app; lia.
Qed.

(** The global search finds in [a ++ c0 :: t] what it finds in [a], and
    then what it finds from [c0] on. *)
Lemma matchAll_stop_append (r : re) :
  classes (fun p => p c0 = false) r -> runs r [] = [] ->
  forall a k, k <= length a ->
    matchAll r k (a ++ c0 :: t) = matchAll r k a ++ matchAll r 0 (c0 :: t).
Proof.
  intros Hr Hnil a. induction a as [|c a IH]; intros k Hk.
  - simpl in Hk. replace k with 0 by lia. cbn [app matchAll].
    now rewrite Hnil.
  - simpl in Hk. destruct k as [|k].
    + cbn [app]. rewrite !matchAll_cons.
      change (c :: a ++ c0 :: t) with ((c :: a) ++ c0 :: t).
      rewrite (runs_stop r Hr). destruct (runs r (c :: a)) as [|rest L] eqn:E.
      * cbn [map]. now apply IH; lia.
      * cbn [map].
        destruct (runs_sound r (c :: a) rest) as (w & Hw & _);
          [rewrite E; now left|].
        assert (Hlen : length (c :: a) = length w + length rest)
          by (rewrite Hw; apply length_app).
        rewrite !length_app, Hlen.
        replace (length w + length rest + length (c0 :: t)
                 - (length rest + length (c0 :: t))) with (length w) by lia.
        replace (length w + length rest - length rest) with (length w) by lia.
        rewrite IH by (cbn [length] in Hlen; lia).
        cbn [app]. f_equal.
        change (c :: a ++ c0 :: t) with ((c :: a) ++ c0 :: t).
        rewrite Hw, <- app_assoc. now rewrite !take_app_length.
    + cbn [app matchAll]. apply IH. lia.
Qed.

End Stop.

End RegExpMoreFacts.

(** ** Further properties of the validator *)

Module ValidatorExtras.
Import JS RegExp JSFacts JSMoreFacts RegExpFacts RegExpMoreFacts
  EmailValidation ValidationFacts.

Local Open Scope nat_scope.

Lemma split_concat (text : jsstring) :
  concat (split separator text)
  = filter (fun c => sepChar c = false) text.
Proof.
  unfold separator. rewrite split_plus_cls.
  apply (splitFrom_concat sepChar text []).
Qed.

(** The text has a piece that is not empty exactly when it has a
    character that is not a separator. *)
Lemma emails_nil (text : jsstring) :
  emails text = [] <-> forallb sepChar text = true.
Proof.
  rewrite emails_nonempty_pieces. pose proof (split_concat text) as Hc.
  split.
  - intros He. apply forallb_forall. intros c Hin.
    destruct (sepChar c) eqn:Hsep; [reflexivity|]. exfalso.
    assert (Hf : c ∈ filter (fun c => sepChar c = false) text).
    { apply list_elem_of_filter. split; [assumption | now apply list_elem_of_In]. }
    rewrite <- Hc in Hf. apply list_elem_of_In, in_concat in Hf.
    destruct Hf as (tok & Htok & Hin').
    assert (Hne : tok ∈ filter (fun e => e <> []) (split separator text)).
    { apply list_elem_of_filter. split; [|now apply list_elem_of_In].
      intros ->. destruct Hin'. }
    rewrite He in Hne. now apply elem_of_nil in Hne.
  - intros Hall.
    assert (Hnil : concat (split separator text) = []).
    { rewrite Hc. apply ContactFacts.filter_none. intros c Hin Hsep.
      rewrite forallb_forall in Hall.
      rewrite (Hall c) in Hsep by now apply list_elem_of_In. discriminate. }
    apply ContactFacts.filter_none. intros tok Htok Hne. apply Hne.
    destruct tok as [|c tok]; [reflexivity|]. exfalso.
    assert (Hin : In c (concat (split separator text))).
    { apply in_concat. exists (c :: tok). split; [now apply list_elem_of_In | now left]. }
    rewrite Hnil in Hin. destruct Hin.
Qed.

Lemma uniq_nil (l : list jsstring) : uniq l = [] -> l = [].
Proof.
  destruct l as [|x l]; [reflexivity|]. intros H.
  assert (Hx : x ∈ uniq (x :: l)) by (apply uniq_elem; left).
  rewrite H in Hx. now apply elem_of_nil in Hx.
Qed.

Lemma fold_setAdd_sublist (l acc : list jsstring) :
  exists k, fold_left setAdd l acc = acc ++ k /\ k `sublist_of` l.
Proof.
  revert acc. induction l as [|x l IH]; intros acc; cbn [fold_left].
  - exists []. rewrite app_nil_r. split; [reflexivity | constructor].
  - unfold setAdd at 2. case_bool_decide.
    + destruct (IH acc) as (k & -> & Hk). exists k. split; [reflexivity|].
      now apply sublist_cons.
    + destruct (IH (acc ++ [x])) as (k & -> & Hk). exists (x :: k).
      rewrite <- app_assoc. split; [reflexivity | now apply sublist_skip].
Qed.

Lemma uniq_sublist (l : list jsstring) : uniq l `sublist_of` l.
Proof.
  destruct (fold_setAdd_sublist l []) as (k & Hk & Hsub).
  unfold uniq. now rewrite Hk.
Qed.

(** *** The order of the first occurrences *)

Lemma uniq_snoc (l : list jsstring) (x : jsstring) :
  uniq (l ++ [x]) = setAdd (uniq l) x.
Proof. unfold uniq. now rewrite fold_left_app. Qed.

(** [uniq] keeps the first occurrence of each entry, in place. *)
Lemma uniq_first_order (p : list jsstring) :
  JSMore.firstOccurrenceOrder (uniq p) p.
Proof.
  induction p as [|x p IH] using rev_ind.
  - intros i j a b Hi. change (uniq []) with (@nil jsstring) in Hi.
    now rewrite lookup_nil in Hi.
  - assert (Hold : forall i j a b,
              uniq p !! i = Some a -> uniq p !! j = Some b -> i < j ->
              exists k, (p ++ [x]) !! k = Some a
                /\ forall k', (p ++ [x]) !! k' = Some b -> k < k').
    { intros i j a b Hi Hj Hlt.
      destruct (IH i j a b Hi Hj Hlt) as (k & Hk & Hall).
      pose proof (lookup_lt_Some _ _ _ Hk) as Hlen.
      exists k. split; [rewrite lookup_app_l by lia; exact Hk|].
      intros k' Hk'. destruct (decide (k' < length p)); [|lia].
      rewrite lookup_app_l in Hk' by lia. now apply Hall. }
    rewrite uniq_snoc. unfold setAdd. case_bool_decide as Hx.
    + intros i j a b. apply Hold.
    + intros i j a b Hi Hj Hlt.
      pose proof (lookup_lt_Some _ _ _ Hj) as Hjlen.
      rewrite length_app in Hjlen. cbn [length] in Hjlen.
      destruct (decide (j < length (uniq p))).
      * rewrite lookup_app_l in Hi, Hj by lia. now apply (Hold i j).
      * rewrite lookup_app_l in Hi by lia.
        rewrite lookup_app_r in Hj by lia.
        replace (j - length (uniq p)) with 0 in Hj by lia.
        injection Hj as <-.
        assert (Ha : a ∈ p).
        { apply uniq_elem. eapply list_elem_of_lookup_2. exact Hi. }
        apply list_elem_of_lookup_1 in Ha. destruct Ha as (k & Hk).
        pose proof (lookup_lt_Some _ _ _ Hk) as Hlen.
        exists k. split; [rewrite lookup_app_l by lia; exact Hk|].
        intros k' Hk'. destruct (decide (k' < length p)); [|lia].
        rewrite lookup_app_l in Hk' by lia. exfalso. apply Hx.
        apply uniq_elem. eapply list_elem_of_lookup_2. exact Hk'.
Qed.

(** Two entries of a sublist come in the same order in the list. *)
Lemma sublist_lookup_lt {A : Type} (l' l : list A) :
  l' `sublist_of` l ->
  forall i j a b,
    l' !! i = Some a -> l' !! j = Some b -> i < j ->
    exists i' j', l !! i' = Some a /\ l !! j' = Some b /\ i' < j'.
Proof.
  induction 1 as [|x l1 l2 Hsub IH|x l1 l2 Hsub IH]; intros i j a b Hi Hj Hlt.
  - now rewrite lookup_nil in Hi.
  - destruct j as [|j]; [lia|]. cbn in Hj. destruct i as [|i].
    + cbn in Hi. injection Hi as ->.
      assert (Hb : b ∈ l2).
      { eapply elem_of_sublist; [|exact Hsub].
        eapply list_elem_of_lookup_2. exact Hj. }
      apply list_elem_of_lookup_1 in Hb. destruct Hb as (k & Hk).
      exists 0, (S k). repeat split; [assumption | lia].
    + cbn in Hi. destruct (IH i j a b Hi Hj) as (i' & j' & Hi' & Hj' & Hlt');
        [lia|].
      exists (S i'), (S j'). repeat split; [assumption.. | lia].
  - destruct (IH i j a b Hi Hj Hlt) as (i' & j' & Hi' & Hj' & Hlt').
    exists (S i'), (S j'). repeat split; [assumption.. | lia].
Qed.

(** A sublist of a list in the order of the first occurrences is in that
    order. *)
Lemma sublist_first_order {A : Type} (l' l p : list A) :
  l' `sublist_of` l ->
  JSMore.firstOccurrenceOrder l p -> JSMore.firstOccurrenceOrder l' p.
Proof.
  intros Hsub Hl i j a b Hi Hj Hlt.
  destruct (sublist_lookup_lt l' l Hsub i j a b Hi Hj Hlt)
    as (i' & j' & Hi' & Hj' & Hlt').
  now apply (Hl i' j' a b).
Qed.

(** The domain both alternatives of the pattern admit holds a dot. *)
Lemma domain_has_dot (d : jsstring) :
  lang (Alt ipLiteral hostName) d -> ch "." ∈ d.
Proof.
  intros H. apply lang_alt_inv in H. destruct H as [H|H].
  - unfold ipLiteral in H.
    apply lang_seq_inv in H. destruct H as (u1 & v1 & -> & _ & H).
    apply lang_seq_inv in H. destruct H as (u2 & v2 & -> & _ & H).
    apply lang_seq_inv in H. destruct H as (u3 & v3 & -> & Hdot & _).
    apply lang_cls_inv in Hdot. destruct Hdot as (c & -> & Hc).
    apply N.eqb_eq in Hc. subst c.
    rewrite !elem_of_app. right. right. left. left.
  - unfold hostName, Plus in H.
    apply lang_seq_inv in H. destruct H as (u1 & v1 & -> & H & _).
    apply lang_seq_inv in H. destruct H as (u2 & v2 & -> & H & _).
    apply lang_seq_inv in H. destruct H as (u3 & v3 & -> & _ & Hdot).
    apply lang_cls_inv in Hdot. destruct Hdot as (c & -> & Hc).
    apply N.eqb_eq in Hc. subst c.
    rewrite !elem_of_app. left. left. right. left.
Qed.

Section Validator.

Variable unicodeLower : jsstring -> jsstring.
Variable disposableDomains roleBasedEmails : gset jsstring.

Local Abbreviation validation :=
  (validation unicodeLower disposableDomains roleBasedEmails).
Local Abbreviation validateEmails :=
  (validateEmails unicodeLower disposableDomains roleBasedEmails).
Local Abbreviation uniqueEmails := (uniqueEmails unicodeLower).
Local Abbreviation flagged := (flagged disposableDomains roleBasedEmails).

(** X16. Text that is not blank may still hold no address: [total] is 0
    exactly when the text is made of commas and white space only, and
    then the three lists are empty and [duplicates] is 0. *)
Theorem only_separators_total_zero (st : State) :
  blank (inputText st) = false ->
  exists r, results (validateEmails st) = Some r
    /\ (total r = 0%Z <-> forallb sepChar (inputText st) = true)
    /\ (total r = 0%Z ->
        valid r = [] /\ invalid r = [] /\ risky r = [] /\ duplicates r = 0%Z).
Proof.
  intros Hb. rewrite validateEmails_result by assumption. cbn [results].
  eexists. split; [reflexivity|].
  unfold validation, EmailValidation.validation.
  cbn [total duplicates lists]. split.
  - rewrite <- emails_nil. destruct (emails (inputText st)); cbn; split;
      intros H; try reflexivity; try discriminate; lia.
  - intros H0.
    assert (He : emails (inputText st) = [])
      by (destruct (emails (inputText st)); [reflexivity | cbn in H0; lia]).
    unfold uniqueEmails, EmailValidation.uniqueEmails. rewrite He.
    repeat split.
Qed.

(** X17. [duplicates] lies between 0 and [total], and below [total] as soon
    as there is an address at all. *)
Theorem duplicates_bounds (st : State) :
  blank (inputText st) = false ->
  exists r, results (validateEmails st) = Some r
    /\ (0 <= duplicates r <= total r)%Z
    /\ (0 < total r -> duplicates r < total r)%Z.
Proof.
  intros Hb. rewrite validateEmails_result by assumption. cbn [results].
  eexists. split; [reflexivity|].
  unfold validation, EmailValidation.validation. cbn [total duplicates].
  unfold uniqueEmails, EmailValidation.uniqueEmails.
  set (l := map _ (emails (inputText st))).
  assert (Hl : length l = length (emails (inputText st)))
    by (unfold l; apply length_map).
  pose proof (uniq_length l) as Hle. split; [lia|]. intros Hpos.
  assert (Hne : uniq l <> []).
  { intros Hnil. apply uniq_nil in Hnil. rewrite Hnil in Hl. cbn in Hl. lia. }
  destruct (uniq l); [congruence | cbn; lia].
Qed.

(** X18. Each of the three lists names its addresses in the order in which
    they first come in the text.  The deduplicated list holds each
    lower-cased piece of the text once, in the order of the first
    occurrences; the three lists are sublists of it and so in that order
    too. *)
Theorem lists_keep_text_order (text : jsstring) :
  let pieces :=
    map (fun e => toLowerCase unicodeLower (trim e)) (emails text) in
  (JSMore.firstOccurrenceOrder (uniqueEmails text) pieces
   /\ NoDup (uniqueEmails text)
   /\ forall x, x ∈ uniqueEmails text <-> x ∈ pieces)
  /\ (JSMore.firstOccurrenceOrder (valid (validation text)) pieces
      /\ JSMore.firstOccurrenceOrder (invalid (validation text)) pieces
      /\ JSMore.firstOccurrenceOrder (risky (validation text)) pieces)
  /\ (valid (validation text) `sublist_of` uniqueEmails text)
  /\ (invalid (validation text) `sublist_of` uniqueEmails text)
  /\ (risky (validation text) `sublist_of` uniqueEmails text)
  /\ (uniqueEmails text `sublist_of` pieces).
Proof.
  intros pieces.
  assert (Hu : JSMore.firstOccurrenceOrder (uniqueEmails text) pieces)
    by apply uniq_first_order.
  destruct (validation_lists unicodeLower disposableDomains roleBasedEmails text)
    as (Hv & Hi & Hr).
  rewrite Hv, Hi, Hr.
  split; [split; [exact Hu | split; [apply uniq_NoDup | apply uniq_elem]]|].
  split.
  { repeat split;
      (eapply sublist_first_order; [apply sublist_filter | exact Hu]). }
  repeat split; try apply sublist_filter. apply uniq_sublist.
Qed.

(** X19. The list an address lands in depends on the address alone: in any
    two texts that hold it, it is in the same list. *)
Theorem classification_by_address_alone (text1 text2 email : jsstring) :
  email ∈ uniqueEmails text1 -> email ∈ uniqueEmails text2 ->
  (email ∈ valid (validation text1) <-> email ∈ valid (validation text2))
  /\ (email ∈ invalid (validation text1) <-> email ∈ invalid (validation text2))
  /\ (email ∈ risky (validation text1) <-> email ∈ risky (validation text2)).
Proof.
  intros H1 H2.
  destruct (validation_lists unicodeLower disposableDomains roleBasedEmails text1)
    as (Hv1 & Hi1 & Hr1).
  destruct (validation_lists unicodeLower disposableDomains roleBasedEmails text2)
    as (Hv2 & Hi2 & Hr2).
  rewrite Hv1, Hi1, Hr1, Hv2, Hi2, Hr2, !list_elem_of_filter. tauto.
Qed.

(** X20. An address in [valid] or [risky] has a local part that is not empty,
    then an at sign, then a domain without at sign and with a dot in it. *)
Theorem accepted_address_shape (text email : jsstring) :
  email ∈ valid (validation text) \/ email ∈ risky (validation text) ->
  exists l d,
    email = l ++ ch "@" :: d /\ l <> []
    /\ (ch "@" ∉ d) /\ (ch "." ∈ d).
Proof.
  intros Hin.
  assert (Hp : passes email = true).
  { destruct (validation_lists unicodeLower disposableDomains roleBasedEmails text)
      as (Hv & _ & Hr).
    rewrite Hv, Hr, !list_elem_of_filter in Hin. tauto. }
  apply test_anchored_lang in Hp. unfold emailRegex in Hp.
  apply lang_seq_inv in Hp. destruct Hp as (l & v & -> & Hl & Hv).
  apply lang_seq_inv in Hv. destruct Hv as (a & d & -> & Ha & Hd).
  apply lang_cls_inv in Ha. destruct Ha as (c & -> & Hc).
  apply N.eqb_eq in Hc. subst c.
  exists l, d. split; [reflexivity|]. split; [|split].
  - apply localPart_cases in Hl. destruct Hl as [[Hne _]|(l' & ->)];
      [assumption | discriminate].
  - pose proof (domain_no_at d Hd) as Hno. rewrite Forall_forall in Hno.
    intros Hat. now apply (Hno _ Hat).
  - now apply domain_has_dot.
Qed.

End Validator.

(** X16 at a text of commas and a space. *)
Lemma only_separators_total_zero_witness :
  blank (inputText (typed (js ", ,"))) = false
  /\ exists r,
       results (validateEmails asciiOnly specDisposableDomains
                  specRoleBasedEmails (typed (js ", ,"))) = Some r
       /\ (total r = 0%Z
           <-> forallb sepChar (inputText (typed (js ", ,"))) = true)
       /\ (total r = 0%Z ->
           valid r = [] /\ invalid r = [] /\ risky r = []
           /\ duplicates r = 0%Z).
Proof.
  split; [reflexivity|].
  apply (only_separators_total_zero asciiOnly specDisposableDomains
           specRoleBasedEmails (typed (js ", ,"))).
  reflexivity.
Defined.

(** X17 at a text that repeats one address three times. *)
Lemma duplicates_bounds_witness :
  blank (inputText (typed (js "A@B.com, a@b.com a@b.com"))) = false
  /\ exists r,
       results (validateEmails asciiOnly specDisposableDomains
                  specRoleBasedEmails
                  (typed (js "A@B.com, a@b.com a@b.com"))) = Some r
       /\ (0 <= duplicates r <= total r)%Z
       /\ (0 < total r -> duplicates r < total r)%Z.
Proof.
  split; [reflexivity|].
  apply (duplicates_bounds asciiOnly specDisposableDomains
           specRoleBasedEmails (typed (js "A@B.com, a@b.com a@b.com"))).
  reflexivity.
Defined.

(** X19 at a role address in two different texts. *)
Lemma classification_by_address_alone_witness :
  js "admin@example.com"
    ∈ uniqueEmails asciiOnly (js "x@mailinator.com, admin@example.com")
  /\ js "admin@example.com"
       ∈ uniqueEmails asciiOnly (js "Admin@Example.com not-an-address")
  /\ (js "admin@example.com"
        ∈ valid (validation asciiOnly specDisposableDomains specRoleBasedEmails
                   (js "x@mailinator.com, admin@example.com"))
      <-> js "admin@example.com"
            ∈ valid (validation asciiOnly specDisposableDomains
                       specRoleBasedEmails
                       (js "Admin@Example.com not-an-address")))
  /\ (js "admin@example.com"
        ∈ invalid (validation asciiOnly specDisposableDomains
                     specRoleBasedEmails
                     (js "x@mailinator.com, admin@example.com"))
      <-> js "admin@example.com"
            ∈ invalid (validation asciiOnly specDisposableDomains
                         specRoleBasedEmails
                         (js "Admin@Example.com not-an-address")))
  /\ (js "admin@example.com"
        ∈ risky (validation asciiOnly specDisposableDomains specRoleBasedEmails
                   (js "x@mailinator.com, admin@example.com"))
      <-> js "admin@example.com"
            ∈ risky (validation asciiOnly specDisposableDomains
                       specRoleBasedEmails
                       (js "Admin@Example.com not-an-address"))).
Proof.
  split; [closed_decide|]. split; [closed_decide|].
  apply (classification_by_address_alone asciiOnly specDisposableDomains
           specRoleBasedEmails (js "x@mailinator.com, admin@example.com")
           (js "Admin@Example.com not-an-address") (js "admin@example.com"));
    closed_decide.
Defined.

(** X20 at a role address. *)
Lemma accepted_address_shape_witness :
  (js "admin@example.com"
     ∈ valid (validation asciiOnly specDisposableDomains specRoleBasedEmails
                (js "x@mailinator.com, admin@example.com"))
   \/ js "admin@example.com"
        ∈ risky (validation asciiOnly specDisposableDomains specRoleBasedEmails
                   (js "x@mailinator.com, admin@example.com")))
  /\ exists l d,
       js "admin@example.com" = l ++ ch "@" :: d /\ l <> []
       /\ (ch "@" ∉ d) /\ (ch "." ∈ d).
Proof.
  split; [right; closed_decide|].
  apply (accepted_address_shape asciiOnly specDisposableDomains
           specRoleBasedEmails (js "x@mailinator.com, admin@example.com")
           (js "admin@example.com")).
  right; closed_decide.
Defined.

End ValidatorExtras.

(** ** Letter case *)

Module CaseFacts.
Import JS RegExp JSFacts RegExpFacts RegExpMoreFacts.

Local Open Scope nat_scope.

Lemma sepChar_lower c :
  EmailValidation.sepChar (asciiLower c) = EmailValidation.sepChar c.
Proof. CharFacts.char_solve. Qed.

Lemma isWhiteSpace_lower c : isWhiteSpace (asciiLower c) = isWhiteSpace c.
Proof. CharFacts.char_solve. Qed.

Lemma addrChar_lower_eq c :
  EmailExtractor.addrChar (asciiLower c) = EmailExtractor.addrChar c.
Proof. CharFacts.char_solve. Qed.

Lemma isAt_lower c : isChar "@" (asciiLower c) = isChar "@" c.
Proof. CharFacts.char_solve. Qed.

Lemma isDot_lower c : isChar "." (asciiLower c) = isChar "." c.
Proof. CharFacts.char_solve. Qed.

Lemma map_lower_idem (s : jsstring) :
  map asciiLower (map asciiLower s) = map asciiLower s.
Proof.
  rewrite map_map. apply map_ext. intros c. apply CharFacts.asciiLower_idem.
Qed.

Lemma map_lower_ascii (s : jsstring) :
  forallb isAscii s = true -> forallb isAscii (map asciiLower s) = true.
Proof.
  rewrite !forallb_forall. intros H c Hc. apply in_map_iff in Hc.
  destruct Hc as (d & <- & Hd). apply CharFacts.asciiLower_ascii. now apply H.
Qed.

(** On an ASCII string, lower-casing first changes nothing of what
    [toLowerCase] returns. *)
Lemma toLowerCase_map_lower (u : jsstring -> jsstring) (s : jsstring) :
  forallb isAscii s = true ->
  toLowerCase u (map asciiLower s) = toLowerCase u s.
Proof.
  intros Hs. rewrite !toLowerCase_ascii by (assumption || now apply map_lower_ascii).
  apply map_lower_idem.
Qed.

End CaseFacts.

(** ** Further properties of the extractor, and letter case in both tools *)

Module ExtractorExtras.
Import JS RegExp JSFacts JSMoreFacts RegExpFacts RegExpMoreFacts
  ExtractorFacts CaseFacts.

Local Open Scope nat_scope.

(** Every match of the global search is a piece of the text. *)
Lemma matchAll_substring (r : re) (s : jsstring) :
  forall k m, In m (matchAll r k s) -> exists pre post, s = pre ++ m ++ post.
Proof.
  induction s as [|c s IH]; intros k m Hin.
  - cbn [matchAll] in Hin. destruct k, (runs r []); try destruct Hin as [<-|[]];
      try destruct Hin. now exists [], [].
  - destruct k as [|k].
    + rewrite matchAll_cons in Hin. destruct (runs r (c :: s)) as [|rest L].
      * destruct (IH _ _ Hin) as (pre & post & ->). now exists (c :: pre), post.
      * destruct Hin as [<-|Hin].
        -- exists [], (drop (length (c :: s) - length rest) (c :: s)).
           cbn [app]. now rewrite take_drop.
        -- destruct (IH _ _ Hin) as (pre & post & ->). now exists (c :: pre), post.
    + cbn [matchAll] in Hin.
      destruct (IH _ _ Hin) as (pre & post & ->). now exists (c :: pre), post.
Qed.

Lemma addrChar_no_at (a : jsstring) :
  forallb EmailExtractor.addrChar a = true -> occurrences (ch "@") a = 0.
Proof.
  intros Ha. apply occurrences_none, Forall_forall. intros c Hc.
  rewrite forallb_forall in Ha. apply CharFacts.addrChar_not_at, Ha.
  now apply list_elem_of_In.
Qed.

Lemma addressShape_one_at (e : jsstring) :
  EmailExtractor.addressShape e -> occurrences (ch "@") e = 1.
Proof.
  intros (a & b & c & -> & _ & _ & _ & Ha & Hb & Hc).
  rewrite occurrences_app, occurrences_cons, decide_True by reflexivity.
  rewrite occurrences_app, occurrences_cons.
  rewrite decide_False by discriminate.
  now rewrite !addrChar_no_at.
Qed.

Lemma looseRegex_renaming :
  classes (fun p => forall c, p (asciiLower c) = p c) EmailExtractor.emailRegex.
Proof.
  unfold EmailExtractor.emailRegex, Plus. cbn [classes].
  repeat match goal with |- _ /\ _ => split end; intros c;
    first [ apply addrChar_lower_eq | apply isAt_lower | apply isDot_lower ].
Qed.

Section Extractor.

Variable unicodeLower : jsstring -> jsstring.

Local Abbreviation extractEmails := (EmailExtractor.extractEmails unicodeLower).

(** X22. Text without an at sign holds no address. *)
Theorem no_at_nothing_extracted (text : jsstring) :
  occurrences (ch "@") text = 0 -> extractEmails text = [].
Proof.
  intros Hno. rewrite extractEmails_unguarded.
  unfold EmailExtractor.uniqueEmails, EmailExtractor.foundEmails.
  destruct (matchAll EmailExtractor.emailRegex 0 text) as [|m L] eqn:E;
    [reflexivity|]. exfalso.
  assert (Hin : In m (matchAll EmailExtractor.emailRegex 0 text))
    by (rewrite E; now left).
  pose proof (addressShape_one_at m
    (looseRegex_shape m (matchAll_sound _ _ _ _ Hin))) as Hone.
  destruct (matchAll_substring _ _ _ _ Hin) as (pre & post & Htext).
  rewrite Htext, !occurrences_app in Hno. lia.
Qed.

(** X23. The extractor makes nothing up: every entry of its list is the
    lower-casing of a piece of the text, and has the form of a run of
    address characters, one at sign, and a run with a dot inside it. *)
Theorem extracted_from_text (text e : jsstring) :
  e ∈ extractEmails text ->
  exists pre m post,
    text = pre ++ m ++ post /\ e = map asciiLower m
    /\ EmailExtractor.addressShape e /\ occurrences (ch "@") e = 1.
Proof.
  rewrite extractEmails_unguarded, <- sort_perm.
  unfold EmailExtractor.uniqueEmails, EmailExtractor.foundEmails.
  rewrite uniq_elem, list_elem_of_In, in_map_iff. intros (m & <- & Hm).
  destruct (matchAll_substring _ _ _ _ Hm) as (pre & post & Htext).
  pose proof (looseRegex_shape m (matchAll_sound _ _ _ _ Hm)) as Hshape.
  exists pre, m, post. split; [assumption|].
  rewrite toLowerCase_ascii by now apply addressShape_ascii.
  split; [reflexivity|].
  pose proof (addressShape_lower m Hshape) as Hl.
  split; [assumption | now apply addressShape_one_at].
Qed.

(** X24. From a text with one address on each line the extractor returns all
    of them: lower-cased, each once, in order. *)
Theorem extract_from_lines (L : list jsstring) :
  Forall EmailExtractor.addressShape L ->
  extractEmails (join [10%N] L) = sort (uniq (map (map asciiLower) L)).
Proof.
  intros HL. rewrite extractEmails_unguarded.
  unfold EmailExtractor.uniqueEmails, EmailExtractor.foundEmails.
  rewrite matchAll_join by assumption. do 2 f_equal.
  apply map_ext_in. intros e He. apply toLowerCase_ascii, addressShape_ascii.
  rewrite Forall_forall in HL. now apply HL, list_elem_of_In.
Qed.

(** X25. The case of the letters of the text does not matter: the text and
    its ASCII lower-casing give the same list. *)
Theorem extraction_ignores_case (text : jsstring) :
  extractEmails (map asciiLower text) = extractEmails text.
Proof.
  rewrite !extractEmails_unguarded.
  unfold EmailExtractor.uniqueEmails, EmailExtractor.foundEmails.
  rewrite (matchAll_map asciiLower _ looseRegex_renaming), map_map.
  do 2 f_equal. apply map_ext_in. intros m Hm.
  apply toLowerCase_map_lower, addressShape_ascii, looseRegex_shape.
  eapply matchAll_sound, Hm.
Qed.

(** X26. The search does not reach across a character that can be no part
    of an address: the addresses found in two texts joined by such a
    character (a line feed, a space, a comma) are those found in the one
    or in the other. *)
Theorem extraction_of_joined_texts (c0 : N) (a b e : jsstring) :
  EmailExtractor.addrChar c0 = false -> c0 <> ch "@" ->
  e ∈ extractEmails (a ++ c0 :: b)
  <-> e ∈ extractEmails a \/ e ∈ extractEmails b.
Proof.
  intros Hc Hat.
  assert (Hcls : classes (fun p => p c0 = false) EmailExtractor.emailRegex).
  { unfold EmailExtractor.emailRegex, Plus. cbn [classes].
    assert (Hdot : isChar "." c0 = false).
    { destruct (isChar "." c0) eqn:E; [|reflexivity].
      apply CharFacts.dot_addrChar in E. congruence. }
    assert (Hat' : isChar "@" c0 = false) by now apply N.eqb_neq.
    repeat match goal with |- _ /\ _ => split end; assumption. }
  rewrite !extractEmails_unguarded, <- !sort_perm.
  unfold EmailExtractor.uniqueEmails, EmailExtractor.foundEmails.
  rewrite !uniq_elem.
  rewrite (matchAll_stop_append c0 b _ Hcls eq_refl a 0) by lia.
  rewrite (matchAll_stop c0 b Hc), map_app, elem_of_app. reflexivity.
Qed.

End Extractor.

Section Validator.
Import EmailValidation ValidationFacts.

Variable unicodeLower : jsstring -> jsstring.
Variable disposableDomains roleBasedEmails : gset jsstring.

Lemma split_lower (text : jsstring) :
  split separator (map asciiLower text)
  = map (map asciiLower) (split separator text).
Proof.
  unfold separator. rewrite !split_plus_cls.
  apply (splitFrom_map asciiLower (Plus (Cls sepChar))) with (cur := []).
  unfold Plus. cbn [classes]. repeat split; apply sepChar_lower.
Qed.

Lemma emails_lower (text : jsstring) :
  emails (map asciiLower text) = map (map asciiLower) (emails text).
Proof.
  rewrite !emails_nonempty_pieces, split_lower.
  induction (split separator text) as [|tok l IH]; [reflexivity|].
  cbn [map]. rewrite !filter_cons.
  destruct tok as [|c tok]; cbn [map].
  - rewrite !decide_False by (intros H; now apply H). exact IH.
  - rewrite !decide_True by discriminate. cbn [map]. now rewrite IH.
Qed.

Lemma emails_ascii (text e : jsstring) :
  forallb isAscii text = true -> e ∈ emails text -> forallb isAscii e = true.
Proof.
  intros Ht He. rewrite emails_nonempty_pieces, list_elem_of_filter in He.
  destruct He as [_ He]. apply forallb_forall. intros c Hc.
  assert (Hin : In c (concat (split separator text))).
  { apply in_concat. exists e. split; [now apply list_elem_of_In | assumption]. }
  rewrite ValidatorExtras.split_concat in Hin.
  apply list_elem_of_In, list_elem_of_filter in Hin. destruct Hin as [_ Hin].
  rewrite forallb_forall in Ht. now apply Ht, list_elem_of_In.
Qed.

(** X27. For ASCII text the case of the letters does not matter to the
    validator: the text and its lower-casing give the same result. *)
Theorem validation_ignores_case (text : jsstring) :
  forallb isAscii text = true ->
  validation unicodeLower disposableDomains roleBasedEmails (map asciiLower text)
  = validation unicodeLower disposableDomains roleBasedEmails text.
Proof.
  intros Ht.
  assert (Hu : uniqueEmails unicodeLower (map asciiLower text)
               = uniqueEmails unicodeLower text).
  { unfold uniqueEmails. rewrite emails_lower, map_map. f_equal.
    apply map_ext_in. intros e He. apply list_elem_of_In in He.
    assert (He' : map asciiLower e ∈ emails (map asciiLower text)).
    { rewrite emails_lower. apply list_elem_of_In, in_map.
      now apply list_elem_of_In. }
    destruct (emails_trim _ _ He) as [-> _].
    destruct (emails_trim _ _ He') as [-> _].
    apply toLowerCase_map_lower. now apply (emails_ascii text). }
  unfold validation. rewrite Hu, emails_lower, length_map. reflexivity.
Qed.

End Validator.

(** X22 at a sentence without an at sign. *)
Lemma no_at_nothing_extracted_witness :
  occurrences (ch "@") (js "call 555-0100, no address here") = 0
  /\ EmailExtractor.extractEmails EmailValidation.asciiOnly
       (js "call 555-0100, no address here") = [].
Proof.
  split; [reflexivity|].
  apply (no_at_nothing_extracted EmailValidation.asciiOnly
           (js "call 555-0100, no address here")).
  reflexivity.
Defined.

(** X23 at an address in angle brackets inside a sentence. *)
Lemma extracted_from_text_witness :
  js "jane@example.com"
    ∈ EmailExtractor.extractEmails EmailValidation.asciiOnly
        (js "mail <Jane@Example.COM> today")
  /\ exists pre m post,
       js "mail <Jane@Example.COM> today" = pre ++ m ++ post
       /\ js "jane@example.com" = map asciiLower m
       /\ EmailExtractor.addressShape (js "jane@example.com")
       /\ occurrences (ch "@") (js "jane@example.com") = 1.
Proof.
  split; [closed_decide|].
  apply (extracted_from_text EmailValidation.asciiOnly
           (js "mail <Jane@Example.COM> today") (js "jane@example.com")).
  closed_decide.
Defined.

(** X24 at three lines, two of them equal. *)
Lemma extract_from_lines_witness :
  Forall EmailExtractor.addressShape [js "b@y.org"; js "A@x.org"; js "b@y.org"]
  /\ EmailExtractor.extractEmails EmailValidation.asciiOnly
       (join [10%N] [js "b@y.org"; js "A@x.org"; js "b@y.org"])
     = sort (uniq (map (map asciiLower)
                     [js "b@y.org"; js "A@x.org"; js "b@y.org"])).
Proof.
  assert (Hb : EmailExtractor.addressShape (js "b@y.org")).
  { exists (js "b"), (js "y"), (js "org").
    repeat split; try reflexivity; discriminate. }
  assert (Ha : EmailExtractor.addressShape (js "A@x.org")).
  { exists (js "A"), (js "x"), (js "org").
    repeat split; try reflexivity; discriminate. }
  split; [repeat constructor; assumption|].
  apply (extract_from_lines EmailValidation.asciiOnly
           [js "b@y.org"; js "A@x.org"; js "b@y.org"]).
  repeat constructor; assumption.
Defined.

(** X26 at two header lines joined by a line feed. *)
Lemma extraction_of_joined_texts_witness :
  EmailExtractor.addrChar 10%N = false
  /\ 10%N <> ch "@"
  /\ (js "a@x.org"
        ∈ EmailExtractor.extractEmails EmailValidation.asciiOnly
            (js "to: A@x.org" ++ 10%N :: js "cc: b@y.org")
      <-> js "a@x.org"
            ∈ EmailExtractor.extractEmails EmailValidation.asciiOnly
                (js "to: A@x.org")
          \/ js "a@x.org"
               ∈ EmailExtractor.extractEmails EmailValidation.asciiOnly
                   (js "cc: b@y.org")).
Proof.
  split; [reflexivity|]. split; [discriminate|].
  apply (extraction_of_joined_texts EmailValidation.asciiOnly 10%N
           (js "to: A@x.org") (js "cc: b@y.org") (js "a@x.org")).
  - reflexivity.
  - discriminate.
Defined.

(** X27 at a text with capitals. *)
Lemma validation_ignores_case_witness :
  forallb isAscii (js "Jane@Example.COM, ADMIN@x.org") = true
  /\ EmailValidation.validation EmailValidation.asciiOnly
       EmailValidation.specDisposableDomains
       EmailValidation.specRoleBasedEmails
       (map asciiLower (js "Jane@Example.COM, ADMIN@x.org"))
     = EmailValidation.validation EmailValidation.asciiOnly
         EmailValidation.specDisposableDomains
         EmailValidation.specRoleBasedEmails
         (js "Jane@Example.COM, ADMIN@x.org").
Proof.
  split; [reflexivity|].
  apply (validation_ignores_case EmailValidation.asciiOnly
           EmailValidation.specDisposableDomains
           EmailValidation.specRoleBasedEmails
           (js "Jane@Example.COM, ADMIN@x.org")).
  reflexivity.
Defined.

End ExtractorExtras.
